(** * Entity store and edit-packet sender of the octree replication layer

    A shallow embedding of
      - libraries/models/src/ModelTreeElement.cpp   (per-node entity store)
      - libraries/octree/src/OctreeEditPacketSender.cpp (edit batching)
    together with the properties the design document states about them.

    Conventions.
      - Unsigned fixed-width integers ([uint16_t], [unsigned short],
        [quint64]) are values of [Z] reduced modulo their width where the
        source can leave the range.  Signed [int] arithmetic is plain [Z]
        arithmetic: signed overflow is undefined in the source.
      - Bytes are values of [Z] in [0, 256); a buffer is a [list Z].
        Multi-byte stores through a cast pointer are little-endian (the
        byte order of the hosts the program is built for).
      - Code of the repository that is not part of the two files above
        (the entity class, the octree base class, the node directory, the
        packet-header helpers) enters as a [Variable] of the enclosing
        section. *)

From Stdlib Require Import ZArith List Bool Lia Permutation.
Import ListNotations.
Local Open Scope Z_scope.

(** ** Fixed-width integers and their byte images *)

Module Wire.

Definition uint16 (v : Z) : Z := v mod 2 ^ 16.
Definition uint64 (v : Z) : Z := v mod 2 ^ 64.

(** [le_bytes n v]: the [n] bytes a store of [v] through a cast pointer
    writes, lowest first. *)
Fixpoint le_bytes (n : nat) (v : Z) : list Z :=
  match n with
  | O => []
  | S n' => v mod 256 :: le_bytes n' (v / 256)
  end.

(** [le_value bs]: the unsigned value loaded from the bytes [bs]. *)
Fixpoint le_value (bs : list Z) : Z :=
  match bs with
  | [] => 0
  | b :: bs' => b + 256 * le_value bs'
  end.

(** [peek mem off]: the byte at [mem + off]; outside the allocation the
    source has no defined value and the model yields 0. *)
Definition peek (mem : list Z) (off : Z) : Z :=
  if off <? 0 then 0 else nth (Z.to_nat off) mem 0.

(** [load n mem off]: the [n]-byte unsigned value at [mem + off]. *)
Definition load (n : nat) (mem : list Z) (off : Z) : Z :=
  le_value (map (fun k => peek mem (off + Z.of_nat k)) (seq 0 n)).

(** [memcpy_at dst off src]: [memcpy(&dst[off], src, |src|)].  A copy that
    runs past the end of [dst] is undefined in the source; the model lets
    the list grow. *)
Definition memcpy_at (dst : list Z) (off : nat) (src : list Z) : list Z :=
  firstn off dst ++ src ++ skipn (off + length src) dst.

Lemma le_bytes_length (n : nat) : forall v, length (le_bytes n v) = n.
Proof. induction n as [|n IH]; intros v; simpl; [reflexivity|now rewrite IH]. Qed.

Lemma le_value_le_bytes (n : nat) :
  forall v, le_value (le_bytes n v) = v mod 256 ^ Z.of_nat n.
Proof.
  induction n as [|n IH]; intros v.
  - simpl. now rewrite Z.mod_1_r.
  - cbn [le_bytes le_value]. rewrite IH.
    rewrite Nat2Z.inj_succ, Z.pow_succ_r by lia.
    rewrite Z.rem_mul_r by lia. reflexivity.
Qed.

(** After [memcpy_at dst off src] the first [off + |src|] bytes are the
    first [off] bytes of [dst] followed by [src]. *)
Lemma firstn_memcpy_at (dst src : list Z) (off : nat) :
  (off <= length dst)%nat ->
  firstn (off + length src) (memcpy_at dst off src) = firstn off dst ++ src.
Proof.
  intros Hoff. unfold memcpy_at.
  rewrite app_assoc.
  rewrite firstn_app.
  rewrite length_app, length_firstn, Nat.min_l by assumption.
  rewrite Nat.sub_diag, firstn_O, app_nil_r.
  apply firstn_all2.
  rewrite length_app, length_firstn, Nat.min_l by assumption. lia.
Qed.

Lemma memcpy_at_length (dst src : list Z) (off : nat) :
  (off <= length dst)%nat ->
  (off + length src <= length (memcpy_at dst off src))%nat.
Proof.
  intros Hoff. unfold memcpy_at.
  rewrite !length_app, length_firstn, Nat.min_l by assumption. lia.
Qed.

End Wire.

(** ** ModelTreeElement: the per-node entity store *)

Module ModelTreeElement.

Section Element.

(** [float], [glm::vec3], [AABox] and the operations on them. *)
Variable float : Type.
Variable FLT_MAX : float.
Variable float_lt : float -> float -> bool.

Record vec3 : Type := mkVec3 { vx : float; vy : float; vz : float }.

Variable glm_distance : vec3 -> vec3 -> float.
Variable AABox : Type.
Variable AABox_contains : AABox -> vec3 -> bool.

(** The entity ([ModelItem]).  The class is declared outside the two
    files; the fields are the ones the element reads through its getters,
    everything else is the opaque [_properties]. *)
Variable Properties : Type.

Record ModelItem : Type := mkModelItem {
  _id : Z;                 (* uint32_t getID() *)
  _creatorTokenID : Z;     (* uint32_t getCreatorTokenID() *)
  _lastUpdated : Z;        (* quint64 getLastUpdated() *)
  _lastEdited : Z;         (* quint64 getLastEdited() *)
  _position : vec3;        (* getPosition() *)
  _radius : float;         (* getRadius() *)
  _shouldDie : bool;       (* getShouldDie() *)
  _properties : Properties
}.

(** Methods of [ModelItem] the element calls. *)
Variable ModelItem_update : Z -> ModelItem -> ModelItem.
Variable copyChangedProperties : ModelItem -> ModelItem -> ModelItem.
Variable expectedBytes : Z.
Variable ReadBitstreamToTreeParams : Type.
(** [readModelDataFromBuffer mem dataAt bytesLeftToRead args] is the
    decoded entity and the [int] the method returns. *)
Variable readModelDataFromBuffer :
  list Z -> Z -> Z -> ReadBitstreamToTreeParams -> ModelItem * Z.

(** The element: its box and change time (from [OctreeElement]) and the
    [QList<ModelItem>] it owns. *)
Record Element : Type := mkElement {
  _box : AABox;
  _lastChanged : Z;
  _modelItems : list ModelItem
}.

(** [markWithChangedTime()]: [_lastChanged = usecTimestampNow()]; [now] is
    the value the clock returns at the call. *)
Definition markWithChangedTime (now : Z) (e : Element) : Element :=
  mkElement (_box e) now (_modelItems e).

Definition setModelItems (e : Element) (l : list ModelItem) : Element :=
  mkElement (_box e) (_lastChanged e) l.

(** [uint16_t numberOfModels = _modelItems->size();] *)
Definition numberOfModels (e : Element) : nat :=
  Z.to_nat (Wire.uint16 (Z.of_nat (length (_modelItems e)))).

(** Assignment through the reference to element [i] of the list. *)
Fixpoint assign_at (l : list ModelItem) (i : nat) (v : ModelItem)
  : list ModelItem :=
  match l, i with
  | [], _ => []
  | _ :: t, O => v :: t
  | h :: t, S i' => h :: assign_at t i' v
  end.

(** *** storeModel *)
Definition storeModel (now : Z) (model : ModelItem) (e : Element) : Element :=
  markWithChangedTime now (setModelItems e (_modelItems e ++ [model])).

(** *** update: the per-tick sweep

    [update_loop lastChanged box items moving] runs the [while] loop from
    the iterator position whose remaining items are [items]; it returns
    the items that stay and the grown [args._movingModels]. *)
Fixpoint update_loop (lastChanged : Z) (box : AABox)
    (items moving : list ModelItem) : list ModelItem * list ModelItem :=
  match items with
  | [] => ([], moving)
  | m :: rest =>
      let model := ModelItem_update lastChanged m in
      if _shouldDie model || negb (AABox_contains box (_position model))
      then update_loop lastChanged box rest (moving ++ [model])
      else
        let r := update_loop lastChanged box rest moving in
        (model :: fst r, snd r)
  end.

Definition update (now : Z) (movingModels : list ModelItem) (e : Element)
  : Element * list ModelItem :=
  let e1 := markWithChangedTime now e in
  let r := update_loop (_lastChanged e1) (_box e1) (_modelItems e1)
             movingModels in
  (setModelItems e1 (fst r), snd r).

(** *** updateModel (const ModelItem&)

    [updateModel_loop model now e n i] runs the [for] loop from index [i]
    with [n] iterations left.  [wantDebug] is the constant [false]: the
    logging and the local [difference] it prints have no effect. *)
Fixpoint updateModel_loop (model : ModelItem) (now : Z) (e : Element)
    (n i : nat) : bool * Element :=
  match n with
  | O => (false, e)
  | S n' =>
      match nth_error (_modelItems e) i with
      | None => (false, e)
      | Some thisModel =>
          if _id thisModel =? _id model then
            let changedOnServer := _lastEdited thisModel <? _lastEdited model in
            let localOlder := _lastUpdated thisModel <? _lastUpdated model in
            if changedOnServer || localOlder then
              (true,
               markWithChangedTime now
                 (setModelItems e
                    (assign_at (_modelItems e) i
                       (copyChangedProperties thisModel model))))
            else (true, e)
          else updateModel_loop model now e n' (S i)
      end
  end.

Definition updateModel (model : ModelItem) (now : Z) (e : Element)
  : bool * Element :=
  updateModel_loop model now e (numberOfModels e) 0.

(** *** getClosestModel

    The result is the index of the entity the returned pointer refers to,
    [None] for [NULL].  The loop state is the pair of locals
    [(closestModel, closestModelDistance)]. *)
Fixpoint getClosestModel_loop (position : vec3) (items : list ModelItem)
    (n i : nat) (closestModel : option nat) (closestModelDistance : float)
  : option nat :=
  match n with
  | O => closestModel
  | S n' =>
      match nth_error items i with
      | None => closestModel
      | Some m =>
          let distanceToModel := glm_distance position (_position m) in
          if float_lt distanceToModel closestModelDistance
          then getClosestModel_loop position items n' (S i) (Some i)
                 closestModelDistance
          else getClosestModel_loop position items n' (S i) closestModel
                 closestModelDistance
      end
  end.

Definition getClosestModel (position : vec3) (e : Element) : option nat :=
  getClosestModel_loop position (_modelItems e) (numberOfModels e) 0
    None FLT_MAX.

(** *** readElementDataFromBuffer

    [mem] is the memory [data] points into, offsets are relative to
    [data].  The result is [bytesRead] and the entities handed to
    [_myTree->storeModel], in order. *)
Fixpoint readModels_loop (mem : list Z) (args : ReadBitstreamToTreeParams)
    (n : nat) (dataAt bytesLeftToRead bytesRead : Z) (stored : list ModelItem)
  : Z * list ModelItem :=
  match n with
  | O => (bytesRead, stored)
  | S n' =>
      let r := readModelDataFromBuffer mem dataAt bytesLeftToRead args in
      let tempModel := fst r in
      let bytesForThisModel := snd r in
      readModels_loop mem args n'
        (dataAt + bytesForThisModel)
        (bytesLeftToRead - bytesForThisModel)
        (bytesRead + bytesForThisModel)
        (stored ++ [tempModel])
  end.

Definition readElementDataFromBuffer (mem : list Z) (bytesLeftToRead : Z)
    (args : ReadBitstreamToTreeParams) : Z * list ModelItem :=
  let expectedBytesPerModel := expectedBytes in
  if 2 <=? bytesLeftToRead then
    let numberOfModels := Wire.load 2 mem 0 in
    let dataAt := 2 in
    let bytesLeftToRead := bytesLeftToRead - 2 in
    let bytesRead := 2 in
    if numberOfModels * expectedBytesPerModel <=? bytesLeftToRead then
      readModels_loop mem args (Z.to_nat numberOfModels)
        dataAt bytesLeftToRead bytesRead []
    else (bytesRead, [])
  else (0, []).

(** *** appendElementData

    [OctreePacketData] and the two writers the function calls are defined
    outside the two files; a writer returns its [bool] and the packet
    after the call. *)
Variable OctreePacketData : Type.
Variable appendValue : Z -> OctreePacketData -> bool * OctreePacketData.
Variable appendModelData :
  ModelItem -> OctreePacketData -> bool * OctreePacketData.

Fixpoint appendElementData_loop (items : list ModelItem) (n i : nat)
    (packetData : OctreePacketData) : bool * OctreePacketData :=
  match n with
  | O => (true, packetData)
  | S n' =>
      match nth_error items i with
      | None => (true, packetData)
      | Some model =>
          let r := appendModelData model packetData in
          if fst r
          then appendElementData_loop items n' (S i) (snd r)
          else (false, snd r)
      end
  end.

Definition appendElementData (e : Element) (packetData : OctreePacketData)
  : bool * OctreePacketData :=
  let r := appendValue (Z.of_nat (numberOfModels e)) packetData in
  if fst r
  then appendElementData_loop (_modelItems e) (numberOfModels e) 0 (snd r)
  else (false, snd r).

(** *** findSpherePenetration

    [==] on [float], componentwise on [glm::vec3], and
    [findSphereSpherePenetration], which returns its [bool] and the
    [penetration] it was passed by reference.  The result is the [bool],
    [penetration] and the index of the entity stored in
    [*penetratedObject], [None] when nothing is stored. *)
Variable float_eq : float -> float -> bool.
Variable findSphereSpherePenetration :
  vec3 -> float -> vec3 -> float -> vec3 -> bool * vec3.

Definition vec3_eq (a b : vec3) : bool :=
  float_eq (vx a) (vx b) && float_eq (vy a) (vy b) && float_eq (vz a) (vz b).

Fixpoint findSpherePenetration_loop (center : vec3) (radius : float)
    (items : list ModelItem) (i : nat) (penetration : vec3)
  : bool * vec3 * option nat :=
  match items with
  | [] => (false, penetration, None)
  | model :: rest =>
      let modelCenter := _position model in
      let modelRadius := _radius model in
      (* don't penetrate yourself *)
      if vec3_eq modelCenter center && float_eq modelRadius radius
      then (false, penetration, None)
      else
        let r := findSphereSpherePenetration center radius modelCenter
                   modelRadius penetration in
        if fst r
        then (true, snd r, Some i)
        else findSpherePenetration_loop center radius rest (S i) (snd r)
  end.

Definition findSpherePenetration (center : vec3) (radius : float)
    (penetration : vec3) (e : Element) : bool * vec3 * option nat :=
  findSpherePenetration_loop center radius (_modelItems e) 0 penetration.

(** *** updateModel (const ModelItemID&, const ModelItemProperties&)

    The overload used by local editors.  [setProperties] is a method of
    the entity class. *)
Record ModelItemID : Type := mkModelItemID {
  id : Z;
  creatorTokenID : Z;
  isKnownID : bool
}.

Variable ModelItemProperties : Type.
Variable setProperties : ModelItemProperties -> ModelItem -> ModelItem.

Fixpoint updateModelByID_loop (modelID : ModelItemID)
    (properties : ModelItemProperties) (now : Z) (e : Element) (n i : nat)
  : bool * Element :=
  match n with
  | O => (false, e)
  | S n' =>
      match nth_error (_modelItems e) i with
      | None => (false, e)
      | Some thisModel =>
          let found :=
            if isKnownID modelID
            then _id thisModel =? id modelID
            else _creatorTokenID thisModel =? creatorTokenID modelID in
          if found then
            (true,
             markWithChangedTime now
               (setModelItems e
                  (assign_at (_modelItems e) i
                     (setProperties properties thisModel))))
          else updateModelByID_loop modelID properties now e n' (S i)
      end
  end.

Definition updateModelByID (modelID : ModelItemID)
    (properties : ModelItemProperties) (now : Z) (e : Element)
  : bool * Element :=
  updateModelByID_loop modelID properties now e (numberOfModels e) 0.

(** *** updateModelItemID *)
Record FindAndUpdateModelItemIDArgs : Type := mkFindAndUpdateModelItemIDArgs {
  args_modelID : Z;
  args_creatorTokenID : Z;
  creatorTokenFound : bool;
  viewedModelFound : bool;
  isViewing : bool
}.

Variable UNKNOWN_MODEL_TOKEN : Z.

(** [ModelItem::setID] is a method of the entity class, defined in its
    header. *)
Variable setID : Z -> ModelItem -> ModelItem.

(** [QList::removeAt(i)] *)
Definition removeAt (l : list ModelItem) (i : nat) : list ModelItem :=
  firstn i l ++ skipn (S i) l.

(** The [for] loop with its two [uint16_t] counters [i] and
    [numberOfModels]; [fuel] bounds the number of iterations and is the
    value of [numberOfModels] on entry.  [thisModel] is a reference into
    the list: [setID] on it is an assignment to element [i]. *)
Fixpoint updateModelItemID_loop (fuel : nat) (items : list ModelItem)
    (args : FindAndUpdateModelItemIDArgs) (i numberOfModels : Z)
  : list ModelItem * FindAndUpdateModelItemIDArgs :=
  match fuel with
  | O => (items, args)
  | S fuel' =>
      if i <? numberOfModels then
        match nth_error items (Z.to_nat i) with
        | None => (items, args)
        | Some thisModel =>
            (* first, we're looking for matching creatorTokenIDs *)
            let r :=
              if negb (creatorTokenFound args) then
                if _creatorTokenID thisModel =? args_creatorTokenID args
                then
                  (setID (args_modelID args) thisModel,
                   mkFindAndUpdateModelItemIDArgs (args_modelID args)
                     (args_creatorTokenID args) true (viewedModelFound args)
                     (isViewing args))
                else (thisModel, args)
              else (thisModel, args) in
            let items := assign_at items (Z.to_nat i) (fst r) in
            let thisModel := fst r in
            let args := snd r in
            (* in an isViewing tree, look for and kill any viewed models *)
            let kill :=
              if negb (viewedModelFound args) && isViewing args then
                (_creatorTokenID thisModel =? UNKNOWN_MODEL_TOKEN) &&
                (_id thisModel =? args_modelID args)
              else false in
            if kill then
              updateModelItemID_loop fuel'
                (removeAt items (Z.to_nat i))
                (mkFindAndUpdateModelItemIDArgs (args_modelID args)
                   (args_creatorTokenID args) (creatorTokenFound args) true
                   (isViewing args))
                (Wire.uint16 (Wire.uint16 (i - 1) + 1))
                (Wire.uint16 (numberOfModels - 1))
            else
              updateModelItemID_loop fuel' items args
                (Wire.uint16 (i + 1)) numberOfModels
        end
      else (items, args)
  end.

Definition updateModelItemID (args : FindAndUpdateModelItemIDArgs)
    (e : Element) : Element * FindAndUpdateModelItemIDArgs :=
  let r := updateModelItemID_loop (numberOfModels e) (_modelItems e) args 0
             (Z.of_nat (numberOfModels e)) in
  (setModelItems e (fst r), snd r).

(** *** getModels

    [-] on [glm::vec3], [glm::length] and [+] on [float].  The result is
    [foundModels] after the call, entities given by index. *)
Variable vec3_sub : vec3 -> vec3 -> vec3.
Variable glm_length : vec3 -> float.
Variable float_add : float -> float -> float.

Fixpoint getModels_loop (searchPosition : vec3) (searchRadius : float)
    (items : list ModelItem) (n i : nat) (foundModels : list nat)
  : list nat :=
  match n with
  | O => foundModels
  | S n' =>
      match nth_error items i with
      | None => foundModels
      | Some model =>
          let distance :=
            glm_length (vec3_sub (_position model) searchPosition) in
          if float_lt distance (float_add searchRadius (_radius model))
          then getModels_loop searchPosition searchRadius items n' (S i)
                 (foundModels ++ [i])
          else getModels_loop searchPosition searchRadius items n' (S i)
                 foundModels
      end
  end.

Definition getModels (searchPosition : vec3) (searchRadius : float)
    (foundModels : list nat) (e : Element) : list nat :=
  getModels_loop searchPosition searchRadius (_modelItems e)
    (numberOfModels e) 0 foundModels.

(** *** getModelsForUpdate

    [AABox] is defined outside the two files: a default-constructed box,
    [setBox(corner, scale)] on a box, and [touches].  [glm::vec3(radius)]
    has the three components [radius]; [2.f * radius] is [*] on [float].
    The local [modelBox] is declared before the loop and set anew for
    every entity.  The result is [foundModels] after the call, entities
    given by index. *)
Variable AABox_default : AABox.
Variable setBox : vec3 -> float -> AABox -> AABox.
Variable touches : AABox -> AABox -> bool.
Variable float_mul : float -> float -> float.
Variable float_two : float.

Fixpoint getModelsForUpdate_loop (ownBox : AABox) (items : list ModelItem)
    (i : nat) (modelBox : AABox) (foundModels : list nat) : list nat :=
  match items with
  | [] => foundModels
  | model :: rest =>
      let radius := _radius model in
      let modelBox :=
        setBox (vec3_sub (_position model) (mkVec3 radius radius radius))
          (float_mul float_two radius) modelBox in
      if touches modelBox ownBox
      then getModelsForUpdate_loop ownBox rest (S i) modelBox
             (foundModels ++ [i])
      else getModelsForUpdate_loop ownBox rest (S i) modelBox foundModels
  end.

(** The test of the loop is made against [_box], the box of the element;
    the parameter [box] is not read. *)
Definition getModelsForUpdate (box : AABox) (foundModels : list nat)
    (e : Element) : list nat :=
  getModelsForUpdate_loop (_box e) (_modelItems e) 0 AABox_default
    foundModels.

(** *** getModelWithID *)
Fixpoint getModelWithID_loop (wanted : Z) (items : list ModelItem)
    (n i : nat) : option nat :=
  match n with
  | O => None
  | S n' =>
      match nth_error items i with
      | None => None
      | Some m =>
          if _id m =? wanted then Some i
          else getModelWithID_loop wanted items n' (S i)
      end
  end.

Definition getModelWithID (wanted : Z) (e : Element) : option nat :=
  getModelWithID_loop wanted (_modelItems e) (numberOfModels e) 0.

(** *** removeModelWithID *)
Fixpoint removeModelWithID_loop (wanted : Z) (e : Element) (n i : nat)
  : bool * Element :=
  match n with
  | O => (false, e)
  | S n' =>
      match nth_error (_modelItems e) i with
      | None => (false, e)
      | Some m =>
          if _id m =? wanted
          then (true, setModelItems e (removeAt (_modelItems e) i))
          else removeModelWithID_loop wanted e n' (S i)
      end
  end.

Definition removeModelWithID (wanted : Z) (e : Element) : bool * Element :=
  removeModelWithID_loop wanted e (numberOfModels e) 0.

(** *** Auxiliary definitions for the statements below *)

(** An entity stays in the node when it is alive and inside the box. *)
Definition stays (box : AABox) (model : ModelItem) : bool :=
  negb (_shouldDie model || negb (AABox_contains box (_position model))).

(** [merge n model items]: what the loop of [updateModel] makes of the
    list when it may still look at [n] entities. *)
Fixpoint merge (n : nat) (model : ModelItem) (items : list ModelItem)
  : list ModelItem :=
  match n, items with
  | S n', thisModel :: rest =>
      if _id thisModel =? _id model then
        (if (_lastEdited thisModel <? _lastEdited model) ||
            (_lastUpdated thisModel <? _lastUpdated model)
         then copyChangedProperties thisModel model
         else thisModel) :: rest
      else thisModel :: merge n' model rest
  | _, _ => items
  end.

(** The test [found] of the loop. *)
Definition designates (modelID : ModelItemID) (m : ModelItem) : bool :=
  if isKnownID modelID
  then _id m =? id modelID
  else _creatorTokenID m =? creatorTokenID modelID.

Definition isQuerySphere (center : vec3) (radius : float) (m : ModelItem)
  : bool :=
  vec3_eq (_position m) center && float_eq (_radius m) radius.

Definition inSearchSphere (searchPosition : vec3) (searchRadius : float)
    (m : ModelItem) : bool :=
  float_lt (glm_length (vec3_sub (_position m) searchPosition))
           (float_add searchRadius (_radius m)).

(** The two steps of the loop body on the entity [thisModel]: the
    confirmation of its creator token, and the test that removes it. *)
Definition confirm (args : FindAndUpdateModelItemIDArgs)
    (thisModel : ModelItem) : ModelItem * FindAndUpdateModelItemIDArgs :=
  if negb (creatorTokenFound args) then
    if _creatorTokenID thisModel =? args_creatorTokenID args
    then
      (setID (args_modelID args) thisModel,
       mkFindAndUpdateModelItemIDArgs (args_modelID args)
         (args_creatorTokenID args) true (viewedModelFound args)
         (isViewing args))
    else (thisModel, args)
  else (thisModel, args).

Definition kills (args : FindAndUpdateModelItemIDArgs)
    (thisModel : ModelItem) : bool :=
  if negb (viewedModelFound args) && isViewing args then
    (_creatorTokenID thisModel =? UNKNOWN_MODEL_TOKEN) &&
    (_id thisModel =? args_modelID args)
  else false.

Definition markViewed (args : FindAndUpdateModelItemIDArgs)
  : FindAndUpdateModelItemIDArgs :=
  mkFindAndUpdateModelItemIDArgs (args_modelID args)
    (args_creatorTokenID args) (creatorTokenFound args) true
    (isViewing args).

(** [reconcile k items args]: what the loop of [updateModelItemID] makes
    of the list and of [args] when it may still look at [k] entities. *)
Fixpoint reconcile (k : nat) (items : list ModelItem)
    (args : FindAndUpdateModelItemIDArgs)
  : list ModelItem * FindAndUpdateModelItemIDArgs :=
  match k, items with
  | S k', thisModel :: rest =>
      let r := confirm args thisModel in
      if kills (snd r) (fst r)
      then reconcile k' rest (markViewed (snd r))
      else
        let r' := reconcile k' rest (snd r) in
        (fst r :: fst r', snd r')
  | _, _ => (items, args)
  end.

(** The box [getModelsForUpdate] sets for an entity: the cube around its
    sphere. *)
Definition modelBoxOf (m : ModelItem) : AABox :=
  setBox (vec3_sub (_position m)
            (mkVec3 (_radius m) (_radius m) (_radius m)))
    (float_mul float_two (_radius m)) AABox_default.

(** The calls of the per-entity decoder the loop of
    [readElementDataFromBuffer] makes from [dataAt] with [left] bytes
    remaining: the entity and the byte count each call returns, in
    order. *)
Fixpoint decoded (mem : list Z) (args : ReadBitstreamToTreeParams)
    (n : nat) (dataAt left : Z) : list (ModelItem * Z) :=
  match n with
  | O => []
  | S n' =>
      let r := readModelDataFromBuffer mem dataAt left args in
      r :: decoded mem args n' (dataAt + snd r) (left - snd r)
  end.

Definition sumZ (l : list Z) : Z := fold_right Z.add 0 l.

(** [entityBytes mem dataAt] is the number of bytes the entity encoded at
    [dataAt] occupies. *)
Variable entityBytes : list Z -> Z -> Z.

(** Modelled from the spec: the loop of [decode] as the specification
    words it.  It decodes the entities one at a time while accounting the
    bytes consumed, and stops before an entity that would overrun the
    remaining bytes. *)
Fixpoint decodeStopping_loop (mem : list Z)
    (args : ReadBitstreamToTreeParams) (n : nat)
    (dataAt left bytesRead : Z) (stored : list ModelItem)
  : Z * list ModelItem :=
  match n with
  | O => (bytesRead, stored)
  | S n' =>
      let need := entityBytes mem dataAt in
      if need <=? left then
        let r := readModelDataFromBuffer mem dataAt left args in
        decodeStopping_loop mem args n' (dataAt + need) (left - need)
          (bytesRead + need) (stored ++ [fst r])
      else (bytesRead, stored)
  end.

(** Modelled from the spec: [decode] as the specification words it.  It
    reads the count when two bytes remain, then runs the loop above. *)
Definition decodeStopping (mem : list Z) (bytesLeftToRead : Z)
    (args : ReadBitstreamToTreeParams) : Z * list ModelItem :=
  if 2 <=? bytesLeftToRead then
    decodeStopping_loop mem args (Z.to_nat (Wire.load 2 mem 0)) 2
      (bytesLeftToRead - 2) 2 []
  else (0, []).

(** ** Properties of the entity store *)

(** *** The sweep *)

Lemma update_loop_filter (lastChanged : Z) (box : AABox) :
  forall items moving,
    update_loop lastChanged box items moving =
    (filter (stays box) (map (ModelItem_update lastChanged) items),
     moving ++
     filter (fun m => negb (stays box m))
       (map (ModelItem_update lastChanged) items)).
Proof.
  induction items as [|m rest IH]; intros moving; simpl.
  - now rewrite app_nil_r.
  - assert (Hs : stays box (ModelItem_update lastChanged m) =
                 negb (_shouldDie (ModelItem_update lastChanged m)
                       || negb (AABox_contains box
                            (_position (ModelItem_update lastChanged m)))))
      by reflexivity.
    rewrite Hs.
    destruct (_shouldDie (ModelItem_update lastChanged m)
              || negb (AABox_contains box
                         (_position (ModelItem_update lastChanged m))));
      simpl; rewrite IH; simpl.
    + now rewrite <- app_assoc.
    + reflexivity.
Qed.

Lemma filter_split_perm {A : Type} (p : A -> bool) :
  forall l, Permutation l (filter p l ++ filter (fun a => negb (p a)) l).
Proof.
  induction l as [|a l IH]; simpl; [constructor|].
  destruct (p a); simpl.
  - now constructor.
  - now apply Permutation_cons_app.
Qed.

(** C8.  After [update], every entity left in the node is alive and inside
    the node's box; the relocation list is the old one followed by the
    removed entities; and the entities of the node, each advanced by its
    own [update], are exactly the ones left together with the ones
    removed, so none is lost. *)
Theorem update_keeps_or_relocates (now : Z) (movingModels : list ModelItem)
    (e : Element) :
  let r := update now movingModels e in
  Forall (fun m => _shouldDie m = false /\
                   AABox_contains (_box e) (_position m) = true)
         (_modelItems (fst r)) /\
  exists removed,
    snd r = movingModels ++ removed /\
    Forall (fun m => _shouldDie m = true \/
                     AABox_contains (_box e) (_position m) = false) removed /\
    Permutation (map (ModelItem_update now) (_modelItems e))
                (_modelItems (fst r) ++ removed).
Proof.
  unfold update; simpl.
  rewrite update_loop_filter; simpl.
  split.
  - apply Forall_forall; intros m Hm.
    apply filter_In in Hm; destruct Hm as [_ Hs].
    unfold stays in Hs.
    destruct (_shouldDie m); [discriminate|].
    destruct (AABox_contains (_box e) (_position m)); [auto|discriminate].
  - eexists; split; [reflexivity|]; split.
    + apply Forall_forall; intros m Hm.
      apply filter_In in Hm; destruct Hm as [_ Hs].
      unfold stays in Hs.
      destruct (_shouldDie m); [now left|].
      destruct (AABox_contains (_box e) (_position m)); [discriminate|now right].
    + apply filter_split_perm.
Qed.

(** *** updateModel as a function on the list *)

Lemma assign_at_app (pre : list ModelItem) :
  forall post v, assign_at (pre ++ post) (length pre) v =
                 pre ++ assign_at post 0 v.
Proof.
  induction pre as [|h t IH]; intros post v; simpl; [reflexivity|].
  now rewrite IH.
Qed.

Lemma nth_error_at (pre : list ModelItem) (rest : list ModelItem) :
  nth_error (pre ++ rest) (length pre) = nth_error rest 0.
Proof.
  rewrite nth_error_app2 by lia. now rewrite Nat.sub_diag.
Qed.

Lemma updateModel_loop_items (model : ModelItem) (now : Z) (e : Element) :
  forall n pre rest,
    _modelItems e = pre ++ rest ->
    _modelItems (snd (updateModel_loop model now e n (length pre))) =
    pre ++ merge n model rest.
Proof.
  induction n as [|n IH]; intros pre rest He; simpl.
  - destruct rest; exact He.
  - rewrite He, nth_error_at.
    destruct rest as [|thisModel rest]; simpl.
    + exact He.
    + destruct (_id thisModel =? _id model).
      * destruct ((_lastEdited thisModel <? _lastEdited model)
                  || (_lastUpdated thisModel <? _lastUpdated model)); simpl.
        -- now rewrite assign_at_app.
        -- exact He.
      * specialize (IH (pre ++ [thisModel]) rest).
        rewrite length_app, Nat.add_1_r in IH.
        rewrite IH by now rewrite <- app_assoc.
        now rewrite <- app_assoc.
Qed.

Lemma updateModel_items (model : ModelItem) (now : Z) (e : Element) :
  _modelItems (snd (updateModel model now e)) =
  merge (numberOfModels e) model (_modelItems e).
Proof.
  unfold updateModel.
  exact (updateModel_loop_items model now e (numberOfModels e) [] _ eq_refl).
Qed.

Lemma merge_length (model : ModelItem) :
  forall n items, length (merge n model items) = length items.
Proof.
  induction n as [|n IH]; intros [|h t]; simpl; try reflexivity.
  destruct (_id h =? _id model); simpl; [reflexivity|].
  now rewrite IH.
Qed.

Lemma updateModel_numberOfModels (model : ModelItem) (now : Z) (e : Element) :
  numberOfModels (snd (updateModel model now e)) = numberOfModels e.
Proof.
  unfold numberOfModels.
  now rewrite updateModel_items, merge_length.
Qed.

Lemma numberOfModels_small (e : Element) :
  Z.of_nat (length (_modelItems e)) < 2 ^ 16 ->
  numberOfModels e = length (_modelItems e).
Proof.
  intros H. unfold numberOfModels, Wire.uint16.
  rewrite Z.mod_small by lia. apply Nat2Z.id.
Qed.

(** The loop from index [length pre] when no entity before it matched. *)
Lemma updateModel_loop_found (model : ModelItem) (now : Z) (e : Element) :
  forall skipped n pre thisModel post,
    _modelItems e = pre ++ skipped ++ thisModel :: post ->
    Forall (fun m => _id m <> _id model) skipped ->
    _id thisModel = _id model ->
    (length skipped < n)%nat ->
    updateModel_loop model now e n (length pre) =
    if (_lastEdited thisModel <? _lastEdited model) ||
       (_lastUpdated thisModel <? _lastUpdated model)
    then (true, mkElement (_box e) now
                  (pre ++ skipped ++
                   copyChangedProperties thisModel model :: post))
    else (true, e).
Proof.
  induction skipped as [|h skipped IH];
    intros n pre thisModel post He Hsk Hid Hn;
    (destruct n as [|n]; [simpl in Hn; lia|]); simpl.
  - assert (Hnth : nth_error (_modelItems e) (length pre) = Some thisModel)
      by (rewrite He, nth_error_at; reflexivity).
    rewrite Hnth, Hid, Z.eqb_refl.
    destruct ((_lastEdited thisModel <? _lastEdited model)
              || (_lastUpdated thisModel <? _lastUpdated model));
      [|reflexivity].
    unfold markWithChangedTime, setModelItems; simpl.
    now rewrite He, assign_at_app.
  - assert (Hnth : nth_error (_modelItems e) (length pre) = Some h)
      by (rewrite He, nth_error_at; reflexivity).
    rewrite Hnth.
    inversion Hsk as [|? ? Hh Hsk']; subst.
    destruct (Z.eqb_spec (_id h) (_id model)) as [Heq|_]; [contradiction|].
    specialize (IH n (pre ++ [h]) thisModel post).
    rewrite length_app, Nat.add_1_r, <- !app_assoc in IH. simpl in IH.
    apply IH; auto. simpl in Hn; lia.
Qed.

Lemma updateModel_loop_absent (model : ModelItem) (now : Z) (e : Element) :
  forall n pre rest,
    _modelItems e = pre ++ rest ->
    Forall (fun m => _id m <> _id model) rest ->
    updateModel_loop model now e n (length pre) = (false, e).
Proof.
  induction n as [|n IH]; intros pre rest He Hrest; simpl; [reflexivity|].
  destruct rest as [|h rest].
  - assert (Hnth : nth_error (_modelItems e) (length pre) = None)
      by (rewrite He, nth_error_at; reflexivity).
    now rewrite Hnth.
  - assert (Hnth : nth_error (_modelItems e) (length pre) = Some h)
      by (rewrite He, nth_error_at; reflexivity).
    rewrite Hnth.
    inversion Hrest as [|? ? Hh Hrest']; subst.
    destruct (Z.eqb_spec (_id h) (_id model)) as [Heq|_]; [contradiction|].
    specialize (IH (pre ++ [h]) rest).
    rewrite length_app, Nat.add_1_r, <- app_assoc in IH.
    apply IH; auto.
Qed.

(** C1 (amended).  In a node of fewer than 2^16 entities, let [thisModel]
    be the first entity with the ID of the incoming [model].  Then
    [updateModel] returns true; when
    [thisModel.lastEdited < model.lastEdited] or
    [thisModel.lastUpdated < model.lastUpdated] it replaces [thisModel] by
    [copyChangedProperties thisModel model] and marks the node changed,
    and otherwise it leaves the node as it is.  When no entity has the ID,
    it returns false and leaves the node as it is. *)
Theorem updateModel_first_match (model : ModelItem) (now : Z) (e : Element) :
  Z.of_nat (length (_modelItems e)) < 2 ^ 16 ->
  (forall pre thisModel post,
      _modelItems e = pre ++ thisModel :: post ->
      Forall (fun m => _id m <> _id model) pre ->
      _id thisModel = _id model ->
      updateModel model now e =
      if (_lastEdited thisModel <? _lastEdited model) ||
         (_lastUpdated thisModel <? _lastUpdated model)
      then (true, mkElement (_box e) now
                    (pre ++ copyChangedProperties thisModel model :: post))
      else (true, e)) /\
  (Forall (fun m => _id m <> _id model) (_modelItems e) ->
   updateModel model now e = (false, e)).
Proof.
  intros Hsmall; split.
  - intros pre thisModel post He Hpre Hid.
    unfold updateModel.
    apply (updateModel_loop_found model now e pre (numberOfModels e) []
             thisModel post); auto.
    rewrite numberOfModels_small by assumption.
    rewrite He, length_app; simpl; lia.
  - intros Habs. unfold updateModel.
    now apply (updateModel_loop_absent model now e (numberOfModels e) []
                 (_modelItems e)).
Qed.

(** *** The merge rule: idempotent, commutative on ordered stamps *)

Section Merge.

(** Modelled from the spec: [ModelItem::copyChangedProperties] is defined
    outside the two files; on overwrite it copies all incoming properties
    onto the local entity, which then equals the incoming one. *)
Hypothesis copy_is_incoming :
  forall thisModel model, copyChangedProperties thisModel model = model.

Lemma merge_idempotent (model : ModelItem) :
  forall n items,
    merge n model (merge n model items) = merge n model items.
Proof.
  induction n as [|n IH]; intros [|h t]; simpl; try reflexivity.
  destruct (_id h =? _id model) eqn:Hid.
  - destruct ((_lastEdited h <? _lastEdited model)
              || (_lastUpdated h <? _lastUpdated model)) eqn:Hc; simpl.
    + rewrite copy_is_incoming, Z.eqb_refl, !Z.ltb_irrefl. reflexivity.
    + now rewrite Hid, Hc.
  - simpl. now rewrite Hid, IH.
Qed.

Lemma merge_commutes (U1 U2 : ModelItem) :
  _id U1 = _id U2 ->
  _lastEdited U1 <= _lastEdited U2 ->
  _lastUpdated U1 <= _lastUpdated U2 ->
  _lastEdited U1 < _lastEdited U2 \/ _lastUpdated U1 < _lastUpdated U2 ->
  forall n items,
    merge n U2 (merge n U1 items) = merge n U1 (merge n U2 items).
Proof.
  intros Hid He Hu Hlt.
  induction n as [|n IH]; intros [|h t]; simpl; try reflexivity.
  rewrite <- Hid.
  destruct (_id h =? _id U1) eqn:Hh.
  - destruct (Z.ltb_spec (_lastEdited h) (_lastEdited U1));
    destruct (Z.ltb_spec (_lastUpdated h) (_lastUpdated U1));
    destruct (Z.ltb_spec (_lastEdited h) (_lastEdited U2));
    destruct (Z.ltb_spec (_lastUpdated h) (_lastUpdated U2));
    try lia; simpl; rewrite ?copy_is_incoming; simpl;
    rewrite <- ?Hid, ?Z.eqb_refl, ?Hh;
    repeat match goal with
    | |- context [?a <? ?b] => destruct (Z.ltb_spec a b)
    end; try lia; simpl; rewrite ?copy_is_incoming; reflexivity.
  - simpl. rewrite <- ?Hid, Hh. now rewrite IH.
Qed.

(** C2 (amended).  When an overwrite leaves the stored entity equal to the
    incoming one, the merge is idempotent: applying an update twice leaves
    the entities of the node as applying it once does.  Two updates of one
    ID commute when their stamps are ordered alike, that is when
    [U1.lastEdited <= U2.lastEdited] and [U1.lastUpdated <= U2.lastUpdated]
    with one of the two strict. *)
Theorem updateModel_idempotent_ordered_commute :
  (forall U now1 now2 e,
      _modelItems (snd (updateModel U now2 (snd (updateModel U now1 e)))) =
      _modelItems (snd (updateModel U now1 e))) /\
  (forall U1 U2 now1 now2 now3 now4 e,
      _id U1 = _id U2 ->
      _lastEdited U1 <= _lastEdited U2 ->
      _lastUpdated U1 <= _lastUpdated U2 ->
      _lastEdited U1 < _lastEdited U2 \/ _lastUpdated U1 < _lastUpdated U2 ->
      _modelItems (snd (updateModel U2 now2 (snd (updateModel U1 now1 e)))) =
      _modelItems (snd (updateModel U1 now4 (snd (updateModel U2 now3 e))))).
Proof.
  split; intros.
  - rewrite (updateModel_items U now2), updateModel_numberOfModels,
      updateModel_items.
    apply merge_idempotent.
  - rewrite (updateModel_items U2 now2), (updateModel_items U1 now4),
      !updateModel_numberOfModels, !updateModel_items.
    now apply merge_commutes.
Qed.

End Merge.

(** *** getClosestModel *)

Lemma getClosestModel_loop_last (position : vec3) (items : list ModelItem) :
  (forall m, In m items ->
             float_lt (glm_distance position (_position m)) FLT_MAX = true) ->
  forall n i closestModel,
    (i + n <= length items)%nat ->
    getClosestModel_loop position items n i closestModel FLT_MAX =
    match n with
    | O => closestModel
    | S _ => Some (i + n - 1)%nat
    end.
Proof.
  intros Hall.
  induction n as [|n IH]; intros i c Hlen; simpl; [reflexivity|].
  destruct (nth_error items i) as [m|] eqn:Hnth.
  - rewrite (Hall m (nth_error_In _ _ Hnth)).
    rewrite IH by lia.
    destruct n; f_equal; lia.
  - apply nth_error_None in Hnth. lia.
Qed.

(** C10 (what the code returns).  In a node of fewer than 2^16 entities,
    all at a distance below [FLT_MAX] from the query position,
    [getClosestModel] returns the last entity of the collection, whatever
    the distances of the others: the local [closestModelDistance] is
    never lowered. *)
Theorem getClosestModel_returns_last (position : vec3) (e : Element) :
  (0 < length (_modelItems e))%nat ->
  Z.of_nat (length (_modelItems e)) < 2 ^ 16 ->
  (forall m, In m (_modelItems e) ->
             float_lt (glm_distance position (_position m)) FLT_MAX = true) ->
  getClosestModel position e = Some (length (_modelItems e) - 1)%nat.
Proof.
  intros Hpos Hsmall Hall.
  unfold getClosestModel.
  rewrite numberOfModels_small by assumption.
  rewrite getClosestModel_loop_last by (auto; simpl; lia).
  destruct (length (_modelItems e)); [lia|reflexivity].
Qed.

(** *** readElementDataFromBuffer stays inside the buffer *)

Section Decode.

(** The per-entity decoder [ModelItem::readModelDataFromBuffer] is defined
    outside the two files.  Its contract: it consumes no more than the
    bytes it is told remain, and its result depends on those bytes only. *)
Hypothesis decoder_within :
  forall mem dataAt left args,
    0 <= snd (readModelDataFromBuffer mem dataAt left args) <= Z.max 0 left.
Hypothesis decoder_local :
  forall mem mem' dataAt left args,
    (forall k, dataAt <= k < dataAt + left ->
               Wire.peek mem k = Wire.peek mem' k) ->
    readModelDataFromBuffer mem dataAt left args =
    readModelDataFromBuffer mem' dataAt left args.

Lemma readModels_loop_within (mem mem' : list Z)
    (args : ReadBitstreamToTreeParams) (total : Z) :
  (forall k, 0 <= k < total -> Wire.peek mem k = Wire.peek mem' k) ->
  forall n dataAt left bytesRead stored,
    0 <= dataAt -> 0 <= left -> dataAt + left <= total ->
    readModels_loop mem args n dataAt left bytesRead stored =
    readModels_loop mem' args n dataAt left bytesRead stored /\
    bytesRead <= fst (readModels_loop mem args n dataAt left bytesRead stored)
              <= bytesRead + left.
Proof.
  intros Hagree.
  induction n as [|n IH]; intros dataAt left bytesRead stored Hd Hl Ht; simpl.
  - split; [reflexivity|lia].
  - rewrite <- (decoder_local mem mem' dataAt left args)
      by (intros k Hk; apply Hagree; lia).
    pose proof (decoder_within mem dataAt left args) as Hw.
    rewrite Z.max_r in Hw by lia.
    destruct (IH (dataAt + snd (readModelDataFromBuffer mem dataAt left args))
                 (left - snd (readModelDataFromBuffer mem dataAt left args))
                 (bytesRead + snd (readModelDataFromBuffer mem dataAt left args))
                 (stored ++ [fst (readModelDataFromBuffer mem dataAt left args)]))
      as [Heq Hb]; try lia.
    split; [exact Heq|lia].
Qed.

(** The loop stores what each call of the decoder returns and adds up the
    byte counts the calls return. *)
Lemma readModels_loop_decoded (mem : list Z)
    (args : ReadBitstreamToTreeParams) :
  forall n dataAt left bytesRead stored,
    readModels_loop mem args n dataAt left bytesRead stored =
    (bytesRead + sumZ (map snd (decoded mem args n dataAt left)),
     stored ++ map fst (decoded mem args n dataAt left)).
Proof.
  induction n as [|n IH]; intros dataAt left bytesRead stored.
  - cbn. now rewrite Z.add_0_r, app_nil_r.
  - cbn [readModels_loop decoded map sumZ fold_right].
    rewrite IH. fold (sumZ (map snd
      (decoded mem args n
         (dataAt + snd (readModelDataFromBuffer mem dataAt left args))
         (left - snd (readModelDataFromBuffer mem dataAt left args))))).
    f_equal; [lia|now rewrite <- app_assoc].
Qed.

Lemma decoded_length (mem : list Z) (args : ReadBitstreamToTreeParams) :
  forall n dataAt left, length (decoded mem args n dataAt left) = n.
Proof.
  induction n as [|n IH]; intros dataAt left; cbn; [reflexivity|].
  now rewrite IH.
Qed.

(** With a decoder that consumes [expectedBytes] whenever that many bytes
    remain, the calls are made at the offsets [dataAt + k * expectedBytes]. *)
Lemma decoded_fixed (mem : list Z) (args : ReadBitstreamToTreeParams) :
  (forall mem0 dataAt left args0,
      expectedBytes <= left ->
      snd (readModelDataFromBuffer mem0 dataAt left args0) = expectedBytes) ->
  0 <= expectedBytes ->
  forall n dataAt left,
    Z.of_nat n * expectedBytes <= left ->
    decoded mem args n dataAt left =
    map (fun k =>
           readModelDataFromBuffer mem
             (dataAt + Z.of_nat k * expectedBytes)
             (left - Z.of_nat k * expectedBytes) args)
        (seq 0 n) /\
    sumZ (map snd (decoded mem args n dataAt left)) =
    Z.of_nat n * expectedBytes.
Proof.
  intros Hfixed Hpos.
  induction n as [|n IH]; intros dataAt left Hfit; [now split|].
  assert (Hone : expectedBytes <= left) by nia.
  cbn [decoded seq map sumZ fold_right].
  rewrite (Hfixed mem dataAt left args Hone).
  destruct (IH (dataAt + expectedBytes) (left - expectedBytes))
    as [Hcalls Hsum]; [nia|].
  split.
  - rewrite Hcalls. f_equal.
    + f_equal; lia.
    + rewrite <- seq_shift, map_map. apply map_ext. intros k.
      f_equal; lia.
  - fold (sumZ (map snd (decoded mem args n (dataAt + expectedBytes)
                           (left - expectedBytes)))).
    rewrite Hsum. lia.
Qed.

(** C7 (amended).  For every memory [mem] and every [bytesLeftToRead],
    with a per-entity decoder that keeps to the bytes it is given:
    the count is read only when two bytes remain (otherwise nothing is
    consumed and nothing decoded); one test is made, that the bytes left
    after the count are at least [expectedBytes] for each announced
    entity; when it fails only the two bytes of the count are consumed
    and nothing is decoded; when it holds the decoder is called once for
    each announced entity, each call where the calls before it ended,
    every entity a call returns is stored (as many as were announced,
    whatever each call found to decode), and the number returned is 2
    plus the byte counts the calls returned.  That number is never above
    [bytesLeftToRead], and the result is the same for every memory that
    agrees with [mem] on the first [bytesLeftToRead] bytes, so no byte
    past the buffer is read.  With a decoder that consumes
    [expectedBytes] whenever that many remain, a buffer that passes the
    test gives the entities found at the offsets [2 + k * expectedBytes]
    and the count 2 plus [expectedBytes] for each. *)
Theorem readElementDataFromBuffer_accounts_bytes (mem : list Z)
    (bytesLeftToRead : Z) (args : ReadBitstreamToTreeParams) :
  let numberOfModels := Z.to_nat (Wire.load 2 mem 0) in
  let calls := decoded mem args numberOfModels 2 (bytesLeftToRead - 2) in
  let r := readElementDataFromBuffer mem bytesLeftToRead args in
  (bytesLeftToRead < 2 -> r = (0, [])) /\
  (2 <= bytesLeftToRead ->
   bytesLeftToRead - 2 < Wire.load 2 mem 0 * expectedBytes ->
   r = (2, [])) /\
  (2 <= bytesLeftToRead ->
   Wire.load 2 mem 0 * expectedBytes <= bytesLeftToRead - 2 ->
   r = (2 + sumZ (map snd calls), map fst calls) /\
   length (snd r) = numberOfModels) /\
  0 <= fst r <= Z.max 0 bytesLeftToRead /\
  (forall mem',
      (forall k, 0 <= k < bytesLeftToRead ->
                 Wire.peek mem k = Wire.peek mem' k) ->
      readElementDataFromBuffer mem' bytesLeftToRead args = r) /\
  ((forall mem0 dataAt left args0,
       expectedBytes <= left ->
       snd (readModelDataFromBuffer mem0 dataAt left args0) =
       expectedBytes) ->
   2 <= bytesLeftToRead ->
   Wire.load 2 mem 0 * expectedBytes <= bytesLeftToRead - 2 ->
   r = (2 + Z.of_nat numberOfModels * expectedBytes,
        map (fun k =>
               fst (readModelDataFromBuffer mem
                      (2 + Z.of_nat k * expectedBytes)
                      (bytesLeftToRead - 2 - Z.of_nat k * expectedBytes)
                      args))
            (seq 0 numberOfModels))).
Proof.
  intros numberOfModels calls r.
  assert (Hpass : 2 <= bytesLeftToRead ->
                  Wire.load 2 mem 0 * expectedBytes <= bytesLeftToRead - 2 ->
                  r = (2 + sumZ (map snd calls), map fst calls)).
  { intros Hge Hfit. unfold r, readElementDataFromBuffer.
    destruct (Z.leb_spec 2 bytesLeftToRead); [|lia].
    destruct (Z.leb_spec (Wire.load 2 mem 0 * expectedBytes)
                (bytesLeftToRead - 2)); [|lia].
    now rewrite readModels_loop_decoded. }
  split; [|split; [|split; [|split; [|split]]]].
  - intros Hlt. unfold r, readElementDataFromBuffer.
    destruct (Z.leb_spec 2 bytesLeftToRead); [lia|reflexivity].
  - intros Hge Hshort. unfold r, readElementDataFromBuffer.
    destruct (Z.leb_spec 2 bytesLeftToRead); [|lia].
    destruct (Z.leb_spec (Wire.load 2 mem 0 * expectedBytes)
                (bytesLeftToRead - 2)); [lia|reflexivity].
  - intros Hge Hfit. split; [now apply Hpass|].
    rewrite (Hpass Hge Hfit). cbn [snd].
    unfold calls. now rewrite length_map, decoded_length.
  - unfold r, readElementDataFromBuffer.
    destruct (Z.leb_spec 2 bytesLeftToRead) as [Hge|Hlt]; [|simpl; lia].
    destruct (Z.leb_spec (Wire.load 2 mem 0 * expectedBytes)
                (bytesLeftToRead - 2)); simpl; [|lia].
    destruct (readModels_loop_within mem mem args bytesLeftToRead
                (fun _ _ => eq_refl)
                (Z.to_nat (Wire.load 2 mem 0)) 2 (bytesLeftToRead - 2)
                2 []) as [_ Hb]; lia.
  - intros mem' Hagree. unfold r, readElementDataFromBuffer.
    destruct (Z.leb_spec 2 bytesLeftToRead) as [Hge|Hlt]; [|reflexivity].
    assert (Hload : Wire.load 2 mem' 0 = Wire.load 2 mem 0).
    { unfold Wire.load; simpl.
      rewrite <- (Hagree 0), <- (Hagree 1) by lia. reflexivity. }
    rewrite Hload.
    destruct (Wire.load 2 mem 0 * expectedBytes <=? bytesLeftToRead - 2);
      [|reflexivity].
    symmetry.
    apply (readModels_loop_within mem mem' args bytesLeftToRead Hagree);
      lia.
  - intros Hfixed Hge Hfit.
    assert (Hpos : 0 <= expectedBytes).
    { pose proof (decoder_within mem 0 (Z.max 0 expectedBytes) args) as Hw.
      rewrite (Hfixed mem 0 (Z.max 0 expectedBytes) args) in Hw by lia.
      lia. }
    assert (Hcount : Z.of_nat numberOfModels * expectedBytes
                     <= bytesLeftToRead - 2).
    { unfold numberOfModels.
      destruct (Z.le_gt_cases 0 (Wire.load 2 mem 0)).
      - rewrite Z2Nat.id by assumption. exact Hfit.
      - replace (Z.to_nat (Wire.load 2 mem 0)) with 0%nat by lia. lia. }
    destruct (decoded_fixed mem args Hfixed Hpos numberOfModels 2
                (bytesLeftToRead - 2) Hcount) as [Hcalls Hsum].
    rewrite (Hpass Hge Hfit). unfold calls.
    rewrite Hsum, Hcalls, map_map. reflexivity.
Qed.

End Decode.

(** ** Further properties of the entity store *)

(** *** Lookup and removal by ID *)

Lemma getModelWithID_loop_found (wanted : Z) :
  forall skipped n pre m post,
    Forall (fun m' => _id m' <> wanted) skipped ->
    _id m = wanted ->
    (length skipped < n)%nat ->
    getModelWithID_loop wanted (pre ++ skipped ++ m :: post) n (length pre) =
    Some (length pre + length skipped)%nat.
Proof.
  induction skipped as [|h skipped IH]; intros n pre m post Hsk Hid Hn;
    (destruct n as [|n]; [simpl in Hn; lia|]); cbn [getModelWithID_loop].
  - rewrite nth_error_at. cbn [app nth_error].
    rewrite Hid, Z.eqb_refl. f_equal. simpl. lia.
  - rewrite nth_error_at. cbn [app nth_error].
    inversion Hsk as [|? ? Hh Hsk']; subst.
    destruct (Z.eqb_spec (_id h) (_id m)) as [Heq|_]; [contradiction|].
    specialize (IH n (pre ++ [h]) m post Hsk' eq_refl).
    rewrite length_app, Nat.add_1_r, <- app_assoc in IH.
    cbn [app] in IH. rewrite IH by (simpl in Hn; lia).
    f_equal. simpl. lia.
Qed.

Lemma getModelWithID_loop_absent (wanted : Z) :
  forall n pre rest,
    Forall (fun m => _id m <> wanted) (firstn n rest) ->
    getModelWithID_loop wanted (pre ++ rest) n (length pre) = None.
Proof.
  induction n as [|n IH]; intros pre rest Hrest;
    cbn [getModelWithID_loop]; [reflexivity|].
  rewrite nth_error_at.
  destruct rest as [|h rest]; cbn [nth_error]; [reflexivity|].
  cbn [firstn] in Hrest. inversion Hrest as [|? ? Hh Hrest']; subst.
  destruct (Z.eqb_spec (_id h) wanted) as [Heq|_]; [contradiction|].
  specialize (IH (pre ++ [h]) rest Hrest').
  rewrite length_app, Nat.add_1_r, <- app_assoc in IH. exact IH.
Qed.

(** A list is either free of the ID or splits at its first entity with
    the ID. *)
Lemma first_with_id (wanted : Z) :
  forall l : list ModelItem,
    Forall (fun m => _id m <> wanted) l \/
    exists pre m post,
      l = pre ++ m :: post /\ _id m = wanted /\
      Forall (fun m' => _id m' <> wanted) pre.
Proof.
  induction l as [|h l IH]; [left; constructor|].
  destruct (Z.eq_dec (_id h) wanted) as [Heq|Hne].
  - right. exists [], h, l. repeat split; [exact Heq|constructor].
  - destruct IH as [Hall|[pre [m [post [Hl [Hid Hpre]]]]]].
    + left. now constructor.
    + right. exists (h :: pre), m, post. subst l.
      repeat split; [exact Hid|now constructor].
Qed.

(** X1.  [getModelWithID] returns the index of the first entity with the
    wanted ID among the first [numberOfModels] entities (the 16-bit count
    of the collection), and [NULL] exactly when none of those has it. *)
Theorem getModelWithID_first (wanted : Z) (e : Element) :
  match getModelWithID wanted e with
  | Some i =>
      (i < numberOfModels e)%nat /\
      exists pre m post,
        _modelItems e = pre ++ m :: post /\ length pre = i /\
        _id m = wanted /\ Forall (fun m' => _id m' <> wanted) pre
  | None =>
      Forall (fun m => _id m <> wanted)
             (firstn (numberOfModels e) (_modelItems e))
  end.
Proof.
  unfold getModelWithID.
  destruct (first_with_id wanted (firstn (numberOfModels e) (_modelItems e)))
    as [Hall|[pre [m [post [Hl [Hid Hpre]]]]]].
  - pose proof (getModelWithID_loop_absent wanted (numberOfModels e) []
                  (_modelItems e) Hall) as H.
    cbn [app length] in H. rewrite H. exact Hall.
  - assert (Hlen : (length pre < numberOfModels e)%nat).
    { apply (f_equal (@length _)) in Hl.
      rewrite length_firstn, length_app in Hl. simpl in Hl. lia. }
    assert (Hitems : _modelItems e =
                     pre ++ m :: post ++
                     skipn (numberOfModels e) (_modelItems e)).
    { rewrite <- (firstn_skipn (numberOfModels e) (_modelItems e)) at 1.
      rewrite Hl, <- app_assoc. reflexivity. }
    pose proof (getModelWithID_loop_found wanted pre (numberOfModels e) [] m
                  (post ++ skipn (numberOfModels e) (_modelItems e))
                  Hpre Hid Hlen) as H.
    cbn [app length Nat.add] in H. rewrite <- Hitems in H. rewrite H.
    split; [exact Hlen|].
    exists pre, m, (post ++ skipn (numberOfModels e) (_modelItems e)).
    repeat split; assumption.
Qed.

Lemma removeAt_app (pre : list ModelItem) (m : ModelItem)
    (post : list ModelItem) :
  removeAt (pre ++ m :: post) (length pre) = pre ++ post.
Proof.
  unfold removeAt.
  rewrite firstn_app, Nat.sub_diag, firstn_all, firstn_O, app_nil_r.
  rewrite skipn_app.
  replace (S (length pre) - length pre)%nat with 1%nat by lia.
  rewrite skipn_all2 by lia. reflexivity.
Qed.

Lemma removeModelWithID_loop_found (wanted : Z) (e : Element) :
  forall skipped n pre m post,
    _modelItems e = pre ++ skipped ++ m :: post ->
    Forall (fun m' => _id m' <> wanted) skipped ->
    _id m = wanted ->
    (length skipped < n)%nat ->
    removeModelWithID_loop wanted e n (length pre) =
    (true, mkElement (_box e) (_lastChanged e) (pre ++ skipped ++ post)).
Proof.
  induction skipped as [|h skipped IH];
    intros n pre m post He Hsk Hid Hn;
    (destruct n as [|n]; [simpl in Hn; lia|]); cbn [removeModelWithID_loop].
  - assert (Hnth : nth_error (_modelItems e) (length pre) = Some m)
      by (rewrite He, nth_error_at; reflexivity).
    rewrite Hnth, Hid, Z.eqb_refl.
    unfold setModelItems. rewrite He. cbn [app].
    now rewrite removeAt_app.
  - assert (Hnth : nth_error (_modelItems e) (length pre) = Some h)
      by (rewrite He, nth_error_at; reflexivity).
    rewrite Hnth.
    inversion Hsk as [|? ? Hh Hsk']; subst.
    destruct (Z.eqb_spec (_id h) (_id m)) as [Heq|_]; [contradiction|].
    specialize (IH n (pre ++ [h]) m post).
    rewrite length_app, Nat.add_1_r, <- !app_assoc in IH. cbn [app] in IH.
    apply IH; auto. simpl in Hn; lia.
Qed.

Lemma removeModelWithID_loop_absent (wanted : Z) (e : Element) :
  forall n pre rest,
    _modelItems e = pre ++ rest ->
    Forall (fun m => _id m <> wanted) (firstn n rest) ->
    removeModelWithID_loop wanted e n (length pre) = (false, e).
Proof.
  induction n as [|n IH]; intros pre rest He Hrest;
    cbn [removeModelWithID_loop]; [reflexivity|].
  destruct rest as [|h rest].
  - assert (Hnth : nth_error (_modelItems e) (length pre) = None)
      by (rewrite He, nth_error_at; reflexivity).
    now rewrite Hnth.
  - assert (Hnth : nth_error (_modelItems e) (length pre) = Some h)
      by (rewrite He, nth_error_at; reflexivity).
    rewrite Hnth.
    cbn [firstn] in Hrest. inversion Hrest as [|? ? Hh Hrest']; subst.
    destruct (Z.eqb_spec (_id h) wanted) as [Heq|_]; [contradiction|].
    specialize (IH (pre ++ [h]) rest).
    rewrite length_app, Nat.add_1_r, <- app_assoc in IH.
    apply IH; auto.
Qed.

(** X2.  [removeModelWithID] erases the first entity with the wanted ID
    among the first [numberOfModels] entities and returns true, leaving
    the other entities, their order and the change time of the node as
    they were; when none of those entities has the ID it returns false
    and leaves the node as it is. *)
Theorem removeModelWithID_first (wanted : Z) (e : Element) :
  (forall pre m post,
      _modelItems e = pre ++ m :: post ->
      (length pre < numberOfModels e)%nat ->
      Forall (fun m' => _id m' <> wanted) pre ->
      _id m = wanted ->
      removeModelWithID wanted e =
      (true, mkElement (_box e) (_lastChanged e) (pre ++ post))) /\
  (Forall (fun m => _id m <> wanted)
          (firstn (numberOfModels e) (_modelItems e)) ->
   removeModelWithID wanted e = (false, e)).
Proof.
  split.
  - intros pre m post He Hlen Hpre Hid.
    apply (removeModelWithID_loop_found wanted e pre (numberOfModels e) []
             m post); assumption.
  - intros Habs.
    apply (removeModelWithID_loop_absent wanted e (numberOfModels e) []
             (_modelItems e)); [reflexivity|assumption].
Qed.

(** X3.  Storing an entity whose ID is not in the node, in a node that
    stays below 2^16 entities, and looking the ID up finds the stored
    entity at the end of the collection; removing the ID then gives back
    the entities the node had before. *)
Theorem storeModel_lookup_remove (now : Z) (model : ModelItem) (e : Element) :
  Z.of_nat (length (_modelItems e)) + 1 < 2 ^ 16 ->
  Forall (fun m => _id m <> _id model) (_modelItems e) ->
  getModelWithID (_id model) (storeModel now model e) =
    Some (length (_modelItems e)) /\
  removeModelWithID (_id model) (storeModel now model e) =
    (true, mkElement (_box e) now (_modelItems e)).
Proof.
  intros Hsmall Hfresh.
  assert (Hn : numberOfModels (storeModel now model e) =
               S (length (_modelItems e))).
  { rewrite numberOfModels_small; cbn [storeModel markWithChangedTime
      setModelItems _modelItems]; rewrite length_app; simpl; lia. }
  split.
  - unfold getModelWithID. rewrite Hn.
    cbn [storeModel markWithChangedTime setModelItems _modelItems].
    pose proof (getModelWithID_loop_found (_id model) (_modelItems e)
                  (S (length (_modelItems e))) [] model [] Hfresh eq_refl
                  (Nat.lt_succ_diag_r _)) as H.
    cbn [app length Nat.add] in H. exact H.
  - unfold removeModelWithID. rewrite Hn.
    pose proof (removeModelWithID_loop_found (_id model)
                  (storeModel now model e) (_modelItems e)
                  (S (length (_modelItems e))) [] model [] eq_refl Hfresh
                  eq_refl (Nat.lt_succ_diag_r _)) as H.
    cbn [app length] in H. rewrite app_nil_r in H. exact H.
Qed.

(** *** The local-editor overload of updateModel *)

Lemma updateModelByID_loop_found (modelID : ModelItemID)
    (properties : ModelItemProperties) (now : Z) (e : Element) :
  forall skipped n pre thisModel post,
    _modelItems e = pre ++ skipped ++ thisModel :: post ->
    Forall (fun m => designates modelID m = false) skipped ->
    designates modelID thisModel = true ->
    (length skipped < n)%nat ->
    updateModelByID_loop modelID properties now e n (length pre) =
    (true, mkElement (_box e) now
             (pre ++ skipped ++ setProperties properties thisModel :: post)).
Proof.
  induction skipped as [|h skipped IH];
    intros n pre thisModel post He Hsk Hd Hn;
    (destruct n as [|n]; [simpl in Hn; lia|]); cbn [updateModelByID_loop].
  - assert (Hnth : nth_error (_modelItems e) (length pre) = Some thisModel)
      by (rewrite He, nth_error_at; reflexivity).
    rewrite Hnth. unfold designates in Hd. rewrite Hd.
    unfold markWithChangedTime, setModelItems; simpl.
    now rewrite He, assign_at_app.
  - assert (Hnth : nth_error (_modelItems e) (length pre) = Some h)
      by (rewrite He, nth_error_at; reflexivity).
    rewrite Hnth.
    inversion Hsk as [|? ? Hh Hsk']; subst.
    unfold designates in Hh. rewrite Hh.
    specialize (IH n (pre ++ [h]) thisModel post).
    rewrite length_app, Nat.add_1_r, <- !app_assoc in IH. cbn [app] in IH.
    apply IH; auto. simpl in Hn; lia.
Qed.

Lemma updateModelByID_loop_absent (modelID : ModelItemID)
    (properties : ModelItemProperties) (now : Z) (e : Element) :
  forall n pre rest,
    _modelItems e = pre ++ rest ->
    Forall (fun m => designates modelID m = false) (firstn n rest) ->
    updateModelByID_loop modelID properties now e n (length pre) = (false, e).
Proof.
  induction n as [|n IH]; intros pre rest He Hrest;
    cbn [updateModelByID_loop]; [reflexivity|].
  destruct rest as [|h rest].
  - assert (Hnth : nth_error (_modelItems e) (length pre) = None)
      by (rewrite He, nth_error_at; reflexivity).
    now rewrite Hnth.
  - assert (Hnth : nth_error (_modelItems e) (length pre) = Some h)
      by (rewrite He, nth_error_at; reflexivity).
    rewrite Hnth.
    cbn [firstn] in Hrest. inversion Hrest as [|? ? Hh Hrest']; subst.
    unfold designates in Hh. rewrite Hh.
    specialize (IH (pre ++ [h]) rest).
    rewrite length_app, Nat.add_1_r, <- app_assoc in IH.
    apply IH; auto.
Qed.

(** X4.  The local-editor [updateModel] looks for the first entity, among
    the first [numberOfModels], with the given ID when the ID is known and
    with the given creator token otherwise.  It sets the properties of
    that entity whatever the time stamps are, marks the node changed and
    returns true; when there is no such entity it returns false and leaves
    the node as it is. *)
Theorem updateModelByID_first (modelID : ModelItemID)
    (properties : ModelItemProperties) (now : Z) (e : Element) :
  (forall pre thisModel post,
      _modelItems e = pre ++ thisModel :: post ->
      (length pre < numberOfModels e)%nat ->
      Forall (fun m => designates modelID m = false) pre ->
      designates modelID thisModel = true ->
      updateModelByID modelID properties now e =
      (true, mkElement (_box e) now
               (pre ++ setProperties properties thisModel :: post))) /\
  (Forall (fun m => designates modelID m = false)
          (firstn (numberOfModels e) (_modelItems e)) ->
   updateModelByID modelID properties now e = (false, e)).
Proof.
  split.
  - intros pre thisModel post He Hlen Hpre Hd.
    apply (updateModelByID_loop_found modelID properties now e pre
             (numberOfModels e) [] thisModel post); assumption.
  - intros Habs.
    apply (updateModelByID_loop_absent modelID properties now e
             (numberOfModels e) [] (_modelItems e));
      [reflexivity|assumption].
Qed.

(** *** getClosestModel on nodes with far or no entities *)

Lemma getClosestModel_loop_result (position : vec3)
    (items : list ModelItem) :
  forall n i closestModel,
    (i + n <= length items)%nat ->
    match getClosestModel_loop position items n i closestModel FLT_MAX with
    | Some k =>
        (Some k = closestModel /\
         forall j m, (i <= j < i + n)%nat -> nth_error items j = Some m ->
           float_lt (glm_distance position (_position m)) FLT_MAX = false) \/
        ((i <= k < i + n)%nat /\
         (exists m, nth_error items k = Some m /\
            float_lt (glm_distance position (_position m)) FLT_MAX = true) /\
         forall j m, (k < j < i + n)%nat -> nth_error items j = Some m ->
           float_lt (glm_distance position (_position m)) FLT_MAX = false)
    | None =>
        closestModel = None /\
        forall j m, (i <= j < i + n)%nat -> nth_error items j = Some m ->
          float_lt (glm_distance position (_position m)) FLT_MAX = false
    end.
Proof.
  induction n as [|n IH]; intros i c Hlen; cbn [getClosestModel_loop].
  - destruct c as [k|].
    + left. split; [reflexivity|]. intros j m Hj. lia.
    + split; [reflexivity|]. intros j m Hj. lia.
  - destruct (nth_error items i) as [m|] eqn:Hnth;
      [|apply nth_error_None in Hnth; lia].
    destruct (float_lt (glm_distance position (_position m)) FLT_MAX) eqn:Hlt.
    + specialize (IH (S i) (Some i)).
      destruct (getClosestModel_loop position items n (S i) (Some i) FLT_MAX)
        as [k|].
      * right. destruct IH as [[Hk Hfar]|[Hk [Hm Hfar]]]; [lia| |].
        -- inversion Hk; subst k. split; [lia|]. split.
           ++ exists m. split; assumption.
           ++ intros j m' Hj. apply Hfar. lia.
        -- split; [lia|]. split; [exact Hm|].
           intros j m' Hj. apply Hfar. lia.
      * destruct IH as [Hk _]; [lia|discriminate].
    + specialize (IH (S i) c).
      assert (Hhere : forall j m', (i <= j < S i)%nat ->
                nth_error items j = Some m' ->
                float_lt (glm_distance position (_position m')) FLT_MAX
                = false).
      { intros j m' Hj Hm'. assert (j = i) by lia. subst j.
        rewrite Hnth in Hm'. inversion Hm'; subst. exact Hlt. }
      destruct (getClosestModel_loop position items n (S i) c FLT_MAX)
        as [k|].
      * destruct IH as [[Hk Hfar]|[Hk [Hm Hfar]]]; [lia| |].
        -- left. split; [exact Hk|]. intros j m' Hj Hm'.
           destruct (Nat.eq_dec j i) as [->|Hne].
           ++ apply (Hhere i m'); [lia|exact Hm'].
           ++ apply (Hfar j m'); [lia|exact Hm'].
        -- right. split; [lia|]. split; [exact Hm|].
           intros j m' Hj. apply Hfar. lia.
      * destruct IH as [Hk Hfar]; [lia|]. split; [exact Hk|].
        intros j m' Hj Hm'.
        destruct (Nat.eq_dec j i) as [->|Hne].
        -- apply (Hhere i m'); [lia|exact Hm'].
        -- apply (Hfar j m'); [lia|exact Hm'].
Qed.

Lemma numberOfModels_le (e : Element) :
  (numberOfModels e <= length (_modelItems e))%nat.
Proof.
  unfold numberOfModels, Wire.uint16.
  assert (H : 0 <= Z.of_nat (length (_modelItems e)) mod 2 ^ 16
              <= Z.of_nat (length (_modelItems e))).
  { split.
    - apply Z.mod_pos_bound. lia.
    - apply Z.mod_le; lia. }
  lia.
Qed.

(** X5.  [getClosestModel] returns [NULL] exactly when no entity among the
    first [numberOfModels] is closer to the position than [FLT_MAX] (so
    for an empty node, and for a node whose count wraps to 0); otherwise
    it returns the last of the entities closer than [FLT_MAX]. *)
Theorem getClosestModel_null_or_last_near (position : vec3) (e : Element) :
  match getClosestModel position e with
  | Some k =>
      (k < numberOfModels e)%nat /\
      (exists m, nth_error (_modelItems e) k = Some m /\
         float_lt (glm_distance position (_position m)) FLT_MAX = true) /\
      forall j m, (k < j < numberOfModels e)%nat ->
        nth_error (_modelItems e) j = Some m ->
        float_lt (glm_distance position (_position m)) FLT_MAX = false
  | None =>
      forall j m, (j < numberOfModels e)%nat ->
        nth_error (_modelItems e) j = Some m ->
        float_lt (glm_distance position (_position m)) FLT_MAX = false
  end.
Proof.
  unfold getClosestModel.
  pose proof (getClosestModel_loop_result position (_modelItems e)
                (numberOfModels e) 0 None (numberOfModels_le e)) as H.
  destruct (getClosestModel_loop position (_modelItems e) (numberOfModels e)
              0 None FLT_MAX) as [k|].
  - destruct H as [[Hk _]|[Hk [Hm Hfar]]]; [discriminate|].
    split; [lia|]. split; [exact Hm|].
    intros j m Hj. apply Hfar. lia.
  - destruct H as [_ Hfar]. intros j m Hj. apply Hfar. lia.
Qed.

(** *** findSpherePenetration *)

(** X6.  [findSpherePenetration] gives up at the first entity that has
    the centre and radius of the query sphere: when no entity before it
    is penetrated, the result is false and no entity is reported,
    whatever entities follow it. *)
Theorem findSpherePenetration_stops_at_itself (center : vec3)
    (radius : float) (penetration : vec3) (e : Element) :
  forall pre self post,
    _modelItems e = pre ++ self :: post ->
    Forall (fun m =>
              isQuerySphere center radius m = false /\
              forall p, fst (findSphereSpherePenetration center radius
                               (_position m) (_radius m) p) = false) pre ->
    isQuerySphere center radius self = true ->
    fst (fst (findSpherePenetration center radius penetration e)) = false /\
    snd (findSpherePenetration center radius penetration e) = None.
Proof.
  intros pre self post He Hpre Hself.
  unfold findSpherePenetration. rewrite He. clear He.
  generalize 0%nat as i. revert penetration.
  induction pre as [|m pre IH]; intros penetration i;
    cbn [app findSpherePenetration_loop].
  - unfold isQuerySphere in Hself. rewrite Hself. split; reflexivity.
  - inversion Hpre as [|? ? [Hm Hmiss] Hpre']; subst.
    unfold isQuerySphere in Hm. rewrite Hm.
    rewrite (Hmiss penetration). apply IH. exact Hpre'.
Qed.

(** *** getModels *)

Lemma getModels_loop_filter (searchPosition : vec3) (searchRadius : float)
    (items : list ModelItem) :
  forall n i foundModels,
    (i + n <= length items)%nat ->
    getModels_loop searchPosition searchRadius items n i foundModels =
    foundModels ++
    filter (fun j =>
              match nth_error items j with
              | Some m => inSearchSphere searchPosition searchRadius m
              | None => false
              end)
           (seq i n).
Proof.
  induction n as [|n IH]; intros i found Hlen;
    cbn [getModels_loop seq filter].
  - now rewrite app_nil_r.
  - destruct (nth_error items i) as [m|] eqn:Hnth;
      [|apply nth_error_None in Hnth; lia].
    unfold inSearchSphere at 1.
    destruct (float_lt (glm_length (vec3_sub (_position m) searchPosition))
                (float_add searchRadius (_radius m))).
    + rewrite IH by lia. now rewrite <- app_assoc.
    + apply IH. lia.
Qed.

(** X7.  [getModels] appends to [foundModels], in the order of the
    collection, exactly the entities among the first [numberOfModels]
    whose distance to the search position is below the search radius plus
    their own radius; what [foundModels] held before stays in front. *)
Theorem getModels_appends_matches (searchPosition : vec3)
    (searchRadius : float) (foundModels : list nat) (e : Element) :
  getModels searchPosition searchRadius foundModels e =
  foundModels ++
  filter (fun j =>
            match nth_error (_modelItems e) j with
            | Some m => inSearchSphere searchPosition searchRadius m
            | None => false
            end)
         (seq 0 (numberOfModels e)).
Proof.
  unfold getModels. apply getModels_loop_filter.
  pose proof (numberOfModels_le e). lia.
Qed.

(** *** updateModelItemID as a function on the list *)

Lemma uint16_small (v : Z) : 0 <= v < 2 ^ 16 -> Wire.uint16 v = v.
Proof. intros H. unfold Wire.uint16. now apply Z.mod_small. Qed.

Lemma uint16_back_and_forth (i : Z) :
  0 <= i < 2 ^ 16 -> Wire.uint16 (Wire.uint16 (i - 1) + 1) = i.
Proof.
  intros H. unfold Wire.uint16.
  rewrite Zplus_mod_idemp_l.
  replace (i - 1 + 1) with i by lia. now apply Z.mod_small.
Qed.

Lemma updateModelItemID_loop_reconcile :
  forall fuel k pre rest args n,
    (k <= fuel)%nat ->
    (k <= length rest)%nat ->
    Z.of_nat (length pre) + Z.of_nat k = n ->
    n < 2 ^ 16 ->
    updateModelItemID_loop fuel (pre ++ rest) args
      (Z.of_nat (length pre)) n =
    (pre ++ fst (reconcile k rest args), snd (reconcile k rest args)).
Proof.
  induction fuel as [|fuel IH]; intros k pre rest args n Hfuel Hrest Hn Hsmall.
  - assert (k = 0%nat) by lia. subst k. reflexivity.
  - cbn [updateModelItemID_loop].
    destruct k as [|k].
    + destruct (Z.ltb_spec (Z.of_nat (length pre)) n); [lia|reflexivity].
    + destruct (Z.ltb_spec (Z.of_nat (length pre)) n); [|lia].
      destruct rest as [|thisModel rest]; [simpl in Hrest; lia|].
      rewrite Nat2Z.id, nth_error_at. cbn [nth_error reconcile].
      change (if negb (creatorTokenFound args) then
                if _creatorTokenID thisModel =? args_creatorTokenID args
                then
                  (setID (args_modelID args) thisModel,
                   mkFindAndUpdateModelItemIDArgs (args_modelID args)
                     (args_creatorTokenID args) true
                     (viewedModelFound args) (isViewing args))
                else (thisModel, args)
              else (thisModel, args))
        with (confirm args thisModel).
      set (r := confirm args thisModel).
      rewrite assign_at_app. cbn [assign_at].
      change (if negb (viewedModelFound (snd r)) && isViewing (snd r)
              then
                (_creatorTokenID (fst r) =? UNKNOWN_MODEL_TOKEN) &&
                (_id (fst r) =? args_modelID (snd r))
              else false)
        with (kills (snd r) (fst r)).
      change (mkFindAndUpdateModelItemIDArgs (args_modelID (snd r))
                (args_creatorTokenID (snd r)) (creatorTokenFound (snd r))
                true (isViewing (snd r)))
        with (markViewed (snd r)).
      destruct (kills (snd r) (fst r)).
      * rewrite removeAt_app.
        rewrite uint16_back_and_forth by lia.
        rewrite (uint16_small (n - 1)) by lia.
        apply IH; simpl in *; lia.
      * rewrite uint16_small by lia.
        replace (Z.of_nat (length pre) + 1)
          with (Z.of_nat (length (pre ++ [fst r])))
          by (rewrite length_app; simpl; lia).
        replace (pre ++ fst r :: rest) with ((pre ++ [fst r]) ++ rest)
          by now rewrite <- app_assoc.
        rewrite (IH k (pre ++ [fst r]) rest (snd r) n);
          try (simpl in *; lia).
        -- cbn [fst snd]. now rewrite <- app_assoc.
        -- rewrite length_app. simpl in *. lia.
Qed.

Lemma numberOfModels_bound (e : Element) :
  Z.of_nat (numberOfModels e) < 2 ^ 16.
Proof.
  unfold numberOfModels, Wire.uint16.
  pose proof (Z.mod_pos_bound (Z.of_nat (length (_modelItems e))) (2 ^ 16)).
  lia.
Qed.

Lemma updateModelItemID_reconcile (args : FindAndUpdateModelItemIDArgs)
    (e : Element) :
  updateModelItemID args e =
  (setModelItems e
     (fst (reconcile (numberOfModels e) (_modelItems e) args)),
   snd (reconcile (numberOfModels e) (_modelItems e) args)).
Proof.
  unfold updateModelItemID.
  pose proof (updateModelItemID_loop_reconcile (numberOfModels e)
                (numberOfModels e) [] (_modelItems e) args
                (Z.of_nat (numberOfModels e)) (Nat.le_refl _)
                (numberOfModels_le e) eq_refl (numberOfModels_bound e)) as H.
  cbn [app length Z.of_nat] in H. rewrite H. reflexivity.
Qed.

Lemma confirm_args (args : FindAndUpdateModelItemIDArgs) (m : ModelItem) :
  args_modelID (snd (confirm args m)) = args_modelID args /\
  args_creatorTokenID (snd (confirm args m)) = args_creatorTokenID args /\
  isViewing (snd (confirm args m)) = isViewing args /\
  viewedModelFound (snd (confirm args m)) = viewedModelFound args /\
  (creatorTokenFound args = true ->
   creatorTokenFound (snd (confirm args m)) = true).
Proof.
  unfold confirm.
  destruct (creatorTokenFound args) eqn:Hf; cbn [negb];
    [|destruct (_creatorTokenID m =? args_creatorTokenID args)];
    cbn; repeat split; auto; intros; congruence.
Qed.

Lemma kills_quiet (args : FindAndUpdateModelItemIDArgs) (m : ModelItem) :
  viewedModelFound args = true \/ isViewing args = false ->
  kills args m = false.
Proof.
  intros [H|H]; unfold kills; rewrite H; [reflexivity|].
  now rewrite andb_false_r.
Qed.

Lemma kills_viewing (args : FindAndUpdateModelItemIDArgs) (m : ModelItem) :
  kills args m = true ->
  viewedModelFound args = false /\ isViewing args = true.
Proof.
  unfold kills.
  destruct (viewedModelFound args), (isViewing args); cbn;
    intros H; try discriminate; auto.
Qed.

Lemma reconcile_args :
  forall k items args,
    args_modelID (snd (reconcile k items args)) = args_modelID args /\
    args_creatorTokenID (snd (reconcile k items args)) =
      args_creatorTokenID args /\
    isViewing (snd (reconcile k items args)) = isViewing args /\
    (creatorTokenFound args = true ->
     creatorTokenFound (snd (reconcile k items args)) = true).
Proof.
  induction k as [|k IH]; intros items args; [cbn; auto|].
  destruct items as [|m rest]; [cbn; auto|].
  cbn [reconcile].
  destruct (confirm_args args m) as [C1 [C2 [C3 [C4 C5]]]].
  destruct (kills (snd (confirm args m)) (fst (confirm args m))).
  - destruct (IH rest (markViewed (snd (confirm args m))))
      as [I1 [I2 [I3 I4]]].
    cbn [markViewed args_modelID args_creatorTokenID isViewing
         creatorTokenFound] in *.
    repeat split; try congruence. auto.
  - destruct (IH rest (snd (confirm args m))) as [I1 [I2 [I3 I4]]].
    cbn [fst snd]. repeat split; try congruence. auto.
Qed.

Lemma reconcile_keeps_all :
  forall k items args,
    viewedModelFound args = true \/ isViewing args = false ->
    viewedModelFound (snd (reconcile k items args)) = viewedModelFound args /\
    length (fst (reconcile k items args)) = length items.
Proof.
  induction k as [|k IH]; intros items args Hq; [cbn; auto|].
  destruct items as [|m rest]; [cbn; auto|].
  cbn [reconcile].
  destruct (confirm_args args m) as [C1 [C2 [C3 [C4 C5]]]].
  rewrite kills_quiet by (rewrite C3, C4; exact Hq).
  cbn [fst snd length].
  destruct (IH rest (snd (confirm args m))) as [I1 I2];
    [rewrite C3, C4; exact Hq|].
  split; [congruence|now rewrite I2].
Qed.

Lemma reconcile_accounting :
  forall k items args,
    (length (fst (reconcile k items args)) +
       (if negb (viewedModelFound args) &&
           viewedModelFound (snd (reconcile k items args))
        then 1 else 0) = length items)%nat.
Proof.
  induction k as [|k IH]; intros items args.
  - cbn. destruct (viewedModelFound args); cbn; lia.
  - destruct items as [|m rest].
    + cbn. destruct (viewedModelFound args); cbn; lia.
    + cbn [reconcile].
      destruct (confirm_args args m) as [C1 [C2 [C3 [C4 C5]]]].
      destruct (kills (snd (confirm args m)) (fst (confirm args m))) eqn:Hk.
      * apply kills_viewing in Hk. destruct Hk as [Hv _].
        rewrite C4 in Hv.
        destruct (reconcile_keeps_all k rest
                    (markViewed (snd (confirm args m))) (or_introl eq_refl))
          as [I1 I2].
        cbn [markViewed viewedModelFound] in I1.
        rewrite Hv, I1, I2. cbn. lia.
      * specialize (IH rest (snd (confirm args m))).
        rewrite C4 in IH. cbn [fst snd length]. lia.
Qed.

(** X8.  [updateModelItemID] removes at most one entity: the collection
    shrinks by one exactly when [viewedModelFound] turns from false to
    true, and not at all when the tree is not a viewing tree or a viewed
    model was found before.  [creatorTokenFound] and [viewedModelFound]
    are never reset, and the IDs and the viewing flag of [args] are left
    as they are. *)
Theorem updateModelItemID_removes_at_most_one
    (args : FindAndUpdateModelItemIDArgs) (e : Element) :
  let r := updateModelItemID args e in
  args_modelID (snd r) = args_modelID args /\
  args_creatorTokenID (snd r) = args_creatorTokenID args /\
  isViewing (snd r) = isViewing args /\
  (creatorTokenFound args = true -> creatorTokenFound (snd r) = true) /\
  (viewedModelFound args = true \/ isViewing args = false ->
   viewedModelFound (snd r) = viewedModelFound args /\
   length (_modelItems (fst r)) = length (_modelItems e)) /\
  (length (_modelItems (fst r)) +
     (if negb (viewedModelFound args) && viewedModelFound (snd r)
      then 1 else 0) = length (_modelItems e))%nat.
Proof.
  cbv zeta. rewrite updateModelItemID_reconcile.
  cbn [fst snd _modelItems setModelItems].
  destruct (reconcile_args (numberOfModels e) (_modelItems e) args)
    as [A1 [A2 [A3 A4]]].
  repeat split; auto.
  - now apply reconcile_keeps_all.
  - now apply reconcile_keeps_all.
  - apply reconcile_accounting.
Qed.

Lemma reconcile_done :
  forall k items args,
    creatorTokenFound args = true ->
    viewedModelFound args = true \/ isViewing args = false ->
    reconcile k items args = (items, args).
Proof.
  induction k as [|k IH]; intros items args Hf Hq; [reflexivity|].
  destruct items as [|h t]; [reflexivity|].
  cbn [reconcile].
  assert (Hc : confirm args h = (h, args))
    by (unfold confirm; now rewrite Hf).
  rewrite Hc. cbn [fst snd].
  rewrite kills_quiet by exact Hq.
  now rewrite IH.
Qed.

Lemma reconcile_confirms_first :
  forall skipped k m post args,
    creatorTokenFound args = false ->
    viewedModelFound args = true \/ isViewing args = false ->
    Forall (fun m' => _creatorTokenID m' <> args_creatorTokenID args)
           skipped ->
    _creatorTokenID m = args_creatorTokenID args ->
    (length skipped < k)%nat ->
    reconcile k (skipped ++ m :: post) args =
    (skipped ++ setID (args_modelID args) m :: post,
     mkFindAndUpdateModelItemIDArgs (args_modelID args)
       (args_creatorTokenID args) true (viewedModelFound args)
       (isViewing args)).
Proof.
  induction skipped as [|h skipped IH];
    intros k m post args Hf Hq Hsk Htok Hk;
    (destruct k as [|k]; [simpl in Hk; lia|]); cbn [app reconcile].
  - assert (Hc : confirm args m =
                 (setID (args_modelID args) m,
                  mkFindAndUpdateModelItemIDArgs (args_modelID args)
                    (args_creatorTokenID args) true (viewedModelFound args)
                    (isViewing args)))
      by (unfold confirm; now rewrite Hf, Htok, Z.eqb_refl).
    rewrite Hc. cbn [fst snd].
    rewrite kills_quiet by exact Hq.
    rewrite reconcile_done; [reflexivity|reflexivity|exact Hq].
  - inversion Hsk as [|? ? Hh Hsk']; subst.
    assert (Hc : confirm args h = (h, args)).
    { unfold confirm. rewrite Hf. cbn [negb].
      destruct (Z.eqb_spec (_creatorTokenID h) (args_creatorTokenID args));
        [contradiction|reflexivity]. }
    rewrite Hc. cbn [fst snd].
    rewrite kills_quiet by exact Hq.
    rewrite IH; auto. simpl in Hk; lia.
Qed.

Lemma reconcile_token_absent :
  forall k items args,
    viewedModelFound args = true \/ isViewing args = false ->
    Forall (fun m' => _creatorTokenID m' <> args_creatorTokenID args)
           (firstn k items) ->
    reconcile k items args = (items, args).
Proof.
  induction k as [|k IH]; intros items args Hq Habs; [reflexivity|].
  destruct items as [|h t]; [reflexivity|].
  cbn [reconcile firstn] in *.
  inversion Habs as [|? ? Hh Habs']; subst.
  assert (Hc : confirm args h = (h, args)).
  { unfold confirm.
    destruct (Z.eqb_spec (_creatorTokenID h) (args_creatorTokenID args));
      [contradiction|].
    now destruct (negb (creatorTokenFound args)). }
  rewrite Hc. cbn [fst snd].
  rewrite kills_quiet by exact Hq.
  now rewrite IH.
Qed.

(** X9.  In a tree that is not a viewing tree (or once the viewed model
    was found), with the creator token not yet found: [updateModelItemID]
    gives the assigned ID to the first entity, among the first
    [numberOfModels], that carries the creator token, sets
    [creatorTokenFound] and changes no other entity; when no such entity
    carries the token, the node and [args] stay as they are. *)
Theorem updateModelItemID_confirms_first
    (args : FindAndUpdateModelItemIDArgs) (e : Element) :
  creatorTokenFound args = false ->
  viewedModelFound args = true \/ isViewing args = false ->
  (forall pre m post,
      _modelItems e = pre ++ m :: post ->
      (length pre < numberOfModels e)%nat ->
      Forall (fun m' => _creatorTokenID m' <> args_creatorTokenID args) pre ->
      _creatorTokenID m = args_creatorTokenID args ->
      updateModelItemID args e =
      (setModelItems e (pre ++ setID (args_modelID args) m :: post),
       mkFindAndUpdateModelItemIDArgs (args_modelID args)
         (args_creatorTokenID args) true (viewedModelFound args)
         (isViewing args))) /\
  (Forall (fun m' => _creatorTokenID m' <> args_creatorTokenID args)
          (firstn (numberOfModels e) (_modelItems e)) ->
   updateModelItemID args e = (setModelItems e (_modelItems e), args)).
Proof.
  intros Hf Hq. split.
  - intros pre m post He Hlen Hpre Htok.
    rewrite updateModelItemID_reconcile, He.
    now rewrite (reconcile_confirms_first pre (numberOfModels e) m post args).
  - intros Habs.
    rewrite updateModelItemID_reconcile.
    now rewrite (reconcile_token_absent (numberOfModels e) (_modelItems e)
                   args).
Qed.

(** *** updateModelItemID in a viewing tree *)

Lemma kills_spec (args : FindAndUpdateModelItemIDArgs) (m : ModelItem) :
  viewedModelFound args = false ->
  isViewing args = true ->
  kills args m =
  (_creatorTokenID m =? UNKNOWN_MODEL_TOKEN) && (_id m =? args_modelID args).
Proof. intros Hv Hi. unfold kills. now rewrite Hv, Hi. Qed.

Lemma confirm_done (args : FindAndUpdateModelItemIDArgs) (m : ModelItem) :
  creatorTokenFound args = true -> confirm args m = (m, args).
Proof. intros H. unfold confirm. now rewrite H. Qed.

Lemma reconcile_kills_first :
  forall skipped k m post args,
    creatorTokenFound args = true ->
    viewedModelFound args = false ->
    isViewing args = true ->
    Forall (fun m' => kills args m' = false) skipped ->
    kills args m = true ->
    (length skipped < k)%nat ->
    reconcile k (skipped ++ m :: post) args =
    (skipped ++ post, markViewed args).
Proof.
  induction skipped as [|h skipped IH];
    intros k m post args Hf Hv Hi Hsk Hkill Hk;
    (destruct k as [|k]; [simpl in Hk; lia|]); cbn [app reconcile];
    rewrite confirm_done by exact Hf; cbn [fst snd].
  - rewrite Hkill.
    apply reconcile_done; [exact Hf|now left].
  - inversion Hsk as [|? ? Hh Hsk']; subst.
    rewrite Hh. rewrite IH; auto. simpl in Hk; lia.
Qed.

Lemma reconcile_nothing_viewed :
  forall k items args,
    creatorTokenFound args = true ->
    Forall (fun m' => kills args m' = false) (firstn k items) ->
    reconcile k items args = (items, args).
Proof.
  induction k as [|k IH]; intros items args Hf Habs; [reflexivity|].
  destruct items as [|h t]; [reflexivity|].
  cbn [reconcile firstn] in *.
  inversion Habs as [|? ? Hh Habs']; subst.
  rewrite confirm_done by exact Hf. cbn [fst snd].
  rewrite Hh. now rewrite IH.
Qed.

(** X23.  In a viewing tree, with the creator token already found and no
    viewed model found yet, [updateModelItemID] removes the first entity,
    among the first [numberOfModels], that has the unknown creator token
    and the ID of [args], sets [viewedModelFound] and changes no other
    entity; later entities of that kind stay.  When there is no such
    entity, the entities and [args] stay as they are. *)
Theorem updateModelItemID_kills_first_viewed
    (args : FindAndUpdateModelItemIDArgs) (e : Element) :
  creatorTokenFound args = true ->
  viewedModelFound args = false ->
  isViewing args = true ->
  (forall pre m post,
      _modelItems e = pre ++ m :: post ->
      (length pre < numberOfModels e)%nat ->
      Forall (fun m' => _creatorTokenID m' <> UNKNOWN_MODEL_TOKEN \/
                        _id m' <> args_modelID args) pre ->
      _creatorTokenID m = UNKNOWN_MODEL_TOKEN ->
      _id m = args_modelID args ->
      updateModelItemID args e =
      (setModelItems e (pre ++ post),
       mkFindAndUpdateModelItemIDArgs (args_modelID args)
         (args_creatorTokenID args) true true true)) /\
  (Forall (fun m' => _creatorTokenID m' <> UNKNOWN_MODEL_TOKEN \/
                     _id m' <> args_modelID args)
          (firstn (numberOfModels e) (_modelItems e)) ->
   updateModelItemID args e = (setModelItems e (_modelItems e), args)).
Proof.
  intros Hf Hv Hi.
  assert (Hquiet : forall l,
             Forall (fun m' => _creatorTokenID m' <> UNKNOWN_MODEL_TOKEN \/
                               _id m' <> args_modelID args) l ->
             Forall (fun m' => kills args m' = false) l).
  { intros l Hl. apply Forall_forall. intros m' Hin.
    rewrite Forall_forall in Hl. specialize (Hl m' Hin).
    rewrite kills_spec by assumption.
    destruct (Z.eqb_spec (_creatorTokenID m') UNKNOWN_MODEL_TOKEN);
      destruct (Z.eqb_spec (_id m') (args_modelID args));
      cbn [andb]; try reflexivity.
    destruct Hl; contradiction. }
  split.
  - intros pre m post He Hlen Hpre Htok Hid.
    rewrite updateModelItemID_reconcile, He.
    rewrite (reconcile_kills_first pre (numberOfModels e) m post args);
      auto.
    + unfold markViewed. now rewrite Hf, Hi.
    + rewrite kills_spec by assumption.
      now rewrite Htok, Hid, !Z.eqb_refl.
  - intros Habs.
    rewrite updateModelItemID_reconcile.
    now rewrite (reconcile_nothing_viewed (numberOfModels e)
                   (_modelItems e) args Hf (Hquiet _ Habs)).
Qed.

(** *** appendElementData and readElementDataFromBuffer *)

Lemma load_count (v : Z) (rest : list Z) :
  Wire.load 2 (Wire.le_bytes 2 v ++ rest) 0 = Wire.uint16 v.
Proof.
  change (Wire.load 2 (Wire.le_bytes 2 v ++ rest) 0)
    with (Wire.le_value (Wire.le_bytes 2 v)).
  now rewrite Wire.le_value_le_bytes.
Qed.

Lemma skipn_nth_error (l : list ModelItem) :
  forall i m, nth_error l i = Some m -> skipn i l = m :: skipn (S i) l.
Proof.
  induction l as [|h t IH]; intros [|i] m H; try discriminate.
  - now inversion H.
  - cbn [nth_error] in H. change (skipn i t = m :: skipn (S i) t). auto.
Qed.

Section Codec.

(** The writers and the per-entity decoder are defined outside the two
    files.  Their contract, for the entities of the node [e]: a writer that
    succeeds appends to the bytes of the packet the two bytes of the count,
    or the [expectedBytes] bytes of the entity, and the decoder told that
    at least [expectedBytes] bytes remain gives the entity back from
    those bytes and returns [expectedBytes]. *)
Variable e : Element.
Variable bytes : OctreePacketData -> list Z.
Variable encode : ModelItem -> list Z.

Hypothesis appendValue_bytes :
  forall v packetData,
    fst (appendValue v packetData) = true ->
    bytes (snd (appendValue v packetData)) =
    bytes packetData ++ Wire.le_bytes 2 v.
Hypothesis appendModelData_bytes :
  forall m packetData,
    fst (appendModelData m packetData) = true ->
    bytes (snd (appendModelData m packetData)) =
    bytes packetData ++ encode m.
Hypothesis encode_length :
  forall m, In m (_modelItems e) ->
    Z.of_nat (length (encode m)) = expectedBytes.
Hypothesis decode_encode :
  forall m mem dataAt left args,
    In m (_modelItems e) ->
    0 <= dataAt ->
    firstn (length (encode m)) (skipn (Z.to_nat dataAt) mem) = encode m ->
    expectedBytes <= left ->
    readModelDataFromBuffer mem dataAt left args = (m, expectedBytes).

Lemma appendElementData_loop_bytes :
  forall n i packetData packetData',
    (i + n <= length (_modelItems e))%nat ->
    appendElementData_loop (_modelItems e) n i packetData =
      (true, packetData') ->
    bytes packetData' =
    bytes packetData ++
    concat (map encode (firstn n (skipn i (_modelItems e)))).
Proof.
  induction n as [|n IH]; intros i p p' Hi H; cbn [appendElementData_loop] in H.
  - inversion H. cbn. now rewrite app_nil_r.
  - destruct (nth_error (_modelItems e) i) as [model|] eqn:Hnth.
    2:{ apply nth_error_None in Hnth. lia. }
    rewrite (skipn_nth_error _ _ _ Hnth). cbn [firstn map concat].
    destruct (fst (appendModelData model p)) eqn:Hok; [|discriminate H].
    rewrite (IH (S i) _ _ ltac:(lia) H).
    rewrite (appendModelData_bytes _ _ Hok).
    now rewrite <- app_assoc.
Qed.

Lemma readModels_loop_decodes (args : ReadBitstreamToTreeParams) :
  forall ms pre post left bytesRead stored,
    incl ms (_modelItems e) ->
    Z.of_nat (length ms) * expectedBytes <= left ->
    readModels_loop (pre ++ concat (map encode ms) ++ post) args (length ms)
      (Z.of_nat (length pre)) left bytesRead stored =
    (bytesRead + Z.of_nat (length (concat (map encode ms))), stored ++ ms).
Proof.
  induction ms as [|m ms IH]; intros pre post left bytesRead stored Hin Hleft.
  - cbn. now rewrite Z.add_0_r, app_nil_r.
  - assert (Hm : In m (_modelItems e)) by (apply Hin; now left).
    assert (Hms : incl ms (_modelItems e))
      by (intros x Hx; apply Hin; now right).
    pose proof (encode_length m Hm) as Hlen.
    assert (Hpos : 0 <= expectedBytes) by lia.
    cbn [length readModels_loop map concat].
    rewrite (decode_encode m _ _ left args Hm).
    + cbn [fst snd].
      rewrite <- Hlen.
      replace (Z.of_nat (length pre) + Z.of_nat (length (encode m)))
        with (Z.of_nat (length (pre ++ encode m)))
        by (rewrite length_app; lia).
      replace (pre ++ (encode m ++ concat (map encode ms)) ++ post)
        with ((pre ++ encode m) ++ concat (map encode ms) ++ post)
        by (now rewrite <- !app_assoc).
      rewrite IH; [|exact Hms|rewrite Hlen; cbn [length] in Hleft; lia].
      rewrite <- app_assoc. cbn [app].
      f_equal. rewrite length_app. lia.
    + lia.
    + rewrite Nat2Z.id, skipn_app, skipn_all, Nat.sub_diag.
      cbn [app skipn]. rewrite <- app_assoc.
      rewrite firstn_app, Nat.sub_diag, firstn_all. cbn [firstn].
      now rewrite app_nil_r.
    + cbn [length] in Hleft. nia.
Qed.

Lemma encoded_length :
  forall ms,
    incl ms (_modelItems e) ->
    Z.of_nat (length (concat (map encode ms))) =
    Z.of_nat (length ms) * expectedBytes.
Proof.
  induction ms as [|m ms IH]; intros Hin; [reflexivity|].
  cbn [map concat length]. rewrite length_app, Nat2Z.inj_add.
  rewrite IH by (intros x Hx; apply Hin; now right).
  rewrite (encode_length m) by (apply Hin; now left). lia.
Qed.

Lemma firstn_incl (n : nat) (l : list ModelItem) : incl (firstn n l) l.
Proof.
  intros x Hx. rewrite <- (firstn_skipn n l). apply in_or_app. now left.
Qed.

(** X10.  What [appendElementData] writes, [readElementDataFromBuffer]
    reads back: when the encoder succeeds, the bytes it appended to the
    packet, followed by any other bytes, decode to the first
    [numberOfModels] entities of the node in order, and the decoder
    consumes exactly the bytes the encoder appended. *)
Theorem appendElementData_read_back (packetData packetData' : OctreePacketData)
    (args : ReadBitstreamToTreeParams) :
  appendElementData e packetData = (true, packetData') ->
  exists written,
    bytes packetData' = bytes packetData ++ written /\
    forall more,
      readElementDataFromBuffer (written ++ more)
        (Z.of_nat (length (written ++ more))) args =
      (Z.of_nat (length written),
       firstn (numberOfModels e) (_modelItems e)).
Proof.
  unfold appendElementData. intros H.
  destruct (fst (appendValue (Z.of_nat (numberOfModels e)) packetData))
    eqn:Hcount; [|discriminate H].
  pose proof (numberOfModels_le e) as Hle.
  pose proof (numberOfModels_bound e) as Hbound.
  set (ms := firstn (numberOfModels e) (_modelItems e)).
  assert (Hms : incl ms (_modelItems e)) by apply firstn_incl.
  assert (Hn : length ms = numberOfModels e)
    by (unfold ms; rewrite length_firstn; lia).
  exists (Wire.le_bytes 2 (Z.of_nat (numberOfModels e)) ++
          concat (map encode ms)).
  split.
  - rewrite (appendElementData_loop_bytes (numberOfModels e) 0 _ _ Hle H).
    rewrite (appendValue_bytes _ _ Hcount).
    cbn [skipn]. now rewrite <- app_assoc.
  - intros more.
    pose proof (encoded_length ms Hms) as Hbody.
    unfold readElementDataFromBuffer.
    rewrite <- app_assoc, load_count.
    unfold Wire.uint16. rewrite Z.mod_small by lia.
    rewrite !length_app, Wire.le_bytes_length.
    destruct (Z.leb_spec 2 (Z.of_nat (2 + (length (concat (map encode ms)) +
                                           length more)))); [|lia].
    destruct (Z.leb_spec (Z.of_nat (numberOfModels e) * expectedBytes)
                (Z.of_nat (2 + (length (concat (map encode ms)) +
                                length more)) - 2)); [|lia].
    rewrite Nat2Z.id, <- Hn.
    pose proof (readModels_loop_decodes args ms
                  (Wire.le_bytes 2 (Z.of_nat (length ms))) more) as Hloop.
    rewrite Wire.le_bytes_length in Hloop.
    rewrite (Hloop _ 2 []) by (exact Hms || lia).
    cbn [app]. f_equal. lia.
Qed.

End Codec.

(** *** getModelsForUpdate *)

Section UpdateBox.

(** [AABox::setBox] assigns the corner and the scale of the box: the box
    it leaves does not depend on the box it was called on. *)
Hypothesis setBox_overwrites :
  forall corner scale b b', setBox corner scale b = setBox corner scale b'.

Lemma getModelsForUpdate_loop_filter (ownBox : AABox) :
  forall items i modelBox foundModels,
    getModelsForUpdate_loop ownBox items i modelBox foundModels =
    foundModels ++
    map fst
      (filter (fun p => touches (modelBoxOf (snd p)) ownBox)
         (combine (seq i (length items)) items)).
Proof.
  induction items as [|model rest IH]; intros i modelBox foundModels.
  - cbn. now rewrite app_nil_r.
  - cbn [getModelsForUpdate_loop length seq combine filter snd].
    rewrite (setBox_overwrites _ _ modelBox AABox_default).
    fold (modelBoxOf model).
    destruct (touches (modelBoxOf model) ownBox); rewrite IH.
    + cbn [map fst]. now rewrite <- app_assoc.
    + reflexivity.
Qed.

(** X21.  [getModelsForUpdate] appends to [foundModels], in the order of
    the collection and over the whole collection, exactly the entities
    whose cube (corner: position minus radius on each axis, scale: twice
    the radius) touches the box of the element itself; the box passed as
    argument has no influence on the result. *)
Theorem getModelsForUpdate_uses_own_box (box : AABox)
    (foundModels : list nat) (e : Element) :
  getModelsForUpdate box foundModels e =
  foundModels ++
  map fst
    (filter (fun p => touches (modelBoxOf (snd p)) (_box e))
       (combine (seq 0 (length (_modelItems e))) (_modelItems e))).
Proof.
  unfold getModelsForUpdate. apply getModelsForUpdate_loop_filter.
Qed.

End UpdateBox.

End Element.

(** ** The entity store on concrete nodes

    Coordinates and distances with small integral values are exact in
    [float]; the nodes below use only such values, so [float] is read as
    [Z], [<] as [Z.ltb], and the distance of two points whose squared
    distance is a perfect square as its integer root. *)

Definition FLT_MAX_value : Z := 340282346638528859811704183484516925440.

Definition integral_distance (p q : vec3 Z) : Z :=
  Z.sqrt ((vx Z p - vx Z q) ^ 2 + (vy Z p - vy Z q) ^ 2 +
          (vz Z p - vz Z q) ^ 2).

(** Modelled from the spec: [ModelItem::copyChangedProperties] is defined
    outside the two files; on overwrite it copies all incoming properties
    onto the local entity. *)
Definition copyAllProperties (thisModel model : ModelItem Z nat)
  : ModelItem Z nat := model.

Definition entity (id edited updated x y z : Z) (payload : nat)
  : ModelItem Z nat :=
  mkModelItem Z nat id 0 updated edited (mkVec3 Z x y z) 1 false payload.

Definition node (items : list (ModelItem Z nat)) : Element Z unit nat :=
  mkElement Z unit nat tt 0 items.

(** A node of 2^16 entities whose first one has ID 7. *)
Definition crowded_node : Element Z unit nat :=
  node (entity 7 0 0 0 0 0 0 :: repeat (entity 1 0 0 0 0 0 0) (Z.to_nat 65535)).

(** C1 as stated fails: the node [crowded_node] contains an entity of the
    incoming ID 7, yet [updateModel] reports it as not found, because the
    16-bit count of its 2^16 entities is 0. *)
Lemma updateModel_crowded_node_not_found :
  ~ (forall (e : Element Z unit nat) (model : ModelItem Z nat) (now : Z),
        (exists m, In m (_modelItems Z unit nat e) /\
                   _id Z nat m = _id Z nat model) ->
        fst (updateModel Z unit nat copyAllProperties model now e) = true).
Proof.
  intros H.
  specialize (H crowded_node (entity 7 9 9 0 0 0 1) 5).
  assert (Hex : exists m, In m (_modelItems Z unit nat crowded_node) /\
                          _id Z nat m = _id Z nat (entity 7 9 9 0 0 0 1)).
  { exists (entity 7 0 0 0 0 0 0). split; [left; reflexivity|reflexivity]. }
  specialize (H Hex).
  vm_compute in H. discriminate H.
Qed.

Lemma updateModel_first_match_witness :
  let e := node [entity 3 0 0 0 0 0 0; entity 7 4 4 0 0 0 0;
                 entity 7 1 1 0 0 0 0] in
  let model := entity 7 2 5 0 0 0 9 in
  Z.of_nat (length (_modelItems Z unit nat e)) < 2 ^ 16 /\
  updateModel Z unit nat copyAllProperties model 11 e =
  (true, mkElement Z unit nat tt 11
           [entity 3 0 0 0 0 0 0; model; entity 7 1 1 0 0 0 0]).
Proof.
  intros e model.
  assert (Hsmall : Z.of_nat (length (_modelItems Z unit nat e)) < 2 ^ 16)
    by (vm_compute; reflexivity).
  split; [exact Hsmall|].
  destruct (updateModel_first_match Z unit nat copyAllProperties model 11 e
              Hsmall) as [Hfound _].
  apply (Hfound [entity 3 0 0 0 0 0 0] (entity 7 4 4 0 0 0 0)
           [entity 7 1 1 0 0 0 0]).
  - reflexivity.
  - constructor; [|constructor]. vm_compute. discriminate.
  - reflexivity.
Defined.

(** C2 as stated fails: two updates of the stored entity 7 whose stamps
    cross ([U1] edited earlier but touched later than [U2]) leave the node
    with a different entity in each order. *)
Lemma updateModel_order_matters :
  ~ (forall (e : Element Z unit nat) (U1 U2 : ModelItem Z nat) (now : Z),
        _id Z nat U1 = _id Z nat U2 ->
        _modelItems Z unit nat
          (snd (updateModel Z unit nat copyAllProperties U2 now
             (snd (updateModel Z unit nat copyAllProperties U1 now e)))) =
        _modelItems Z unit nat
          (snd (updateModel Z unit nat copyAllProperties U1 now
             (snd (updateModel Z unit nat copyAllProperties U2 now e))))).
Proof.
  intros H.
  specialize (H (node [entity 7 0 0 0 0 0 0])
                (entity 7 1 5 0 0 0 1) (entity 7 5 1 0 0 0 2) 9 eq_refl).
  vm_compute in H. discriminate H.
Qed.

Lemma updateModel_idempotent_ordered_commute_witness :
  (forall thisModel model, copyAllProperties thisModel model = model) /\
  let e := node [entity 7 0 0 0 0 0 0] in
  let U1 := entity 7 1 1 0 0 0 1 in
  let U2 := entity 7 5 1 0 0 0 2 in
  _modelItems Z unit nat
    (snd (updateModel Z unit nat copyAllProperties U1 2
       (snd (updateModel Z unit nat copyAllProperties U1 1 e)))) =
  _modelItems Z unit nat
    (snd (updateModel Z unit nat copyAllProperties U1 1 e)) /\
  _modelItems Z unit nat
    (snd (updateModel Z unit nat copyAllProperties U2 2
       (snd (updateModel Z unit nat copyAllProperties U1 1 e)))) =
  _modelItems Z unit nat
    (snd (updateModel Z unit nat copyAllProperties U1 4
       (snd (updateModel Z unit nat copyAllProperties U2 3 e)))).
Proof.
  split; [reflexivity|].
  intros e U1 U2.
  destruct (updateModel_idempotent_ordered_commute Z unit nat
              copyAllProperties (fun _ _ => eq_refl)) as [Hidem Hcomm].
  split.
  - apply Hidem.
  - apply Hcomm; vm_compute; try reflexivity; try discriminate.
    left; reflexivity.
Defined.

(** The entity at the query position comes first, one at distance 5
    second. *)
Lemma getClosestModel_returns_last_witness :
  let e := node [entity 1 0 0 0 0 0 0; entity 2 0 0 3 4 0 0] in
  let position := mkVec3 Z 0 0 0 in
  integral_distance position (mkVec3 Z 0 0 0) = 0 /\
  integral_distance position (mkVec3 Z 3 4 0) = 5 /\
  getClosestModel Z FLT_MAX_value Z.ltb integral_distance unit nat
    position e = Some 1%nat.
Proof.
  intros e position.
  split; [reflexivity|]. split; [reflexivity|].
  apply (getClosestModel_returns_last Z FLT_MAX_value Z.ltb
           integral_distance unit nat position e).
  - simpl; lia.
  - vm_compute; reflexivity.
  - intros m [Hm|[Hm|[]]]; subst m; reflexivity.
Defined.

(** A decoder of one-byte entities: the byte is the ID. *)
Definition readOneByteModel (mem : list Z) (dataAt left : Z) (args : unit)
  : ModelItem Z nat * Z :=
  if 1 <=? left
  then (entity (Wire.peek mem dataAt) 0 0 0 0 0 0, 1)
  else (entity 0 0 0 0 0 0 0, 0).

Lemma readOneByteModel_within :
  forall mem dataAt left args,
    0 <= snd (readOneByteModel mem dataAt left args) <= Z.max 0 left.
Proof.
  intros; unfold readOneByteModel.
  destruct (Z.leb_spec 1 left); simpl; lia.
Qed.

Lemma readOneByteModel_local :
  forall mem mem' dataAt left args,
    (forall k, dataAt <= k < dataAt + left ->
               Wire.peek mem k = Wire.peek mem' k) ->
    readOneByteModel mem dataAt left args =
    readOneByteModel mem' dataAt left args.
Proof.
  intros mem mem' dataAt left args H; unfold readOneByteModel.
  destruct (Z.leb_spec 1 left); [|reflexivity].
  rewrite (H dataAt) by lia. reflexivity.
Qed.

(** A decoder of entities of variable length: a byte that gives the
    length of the payload, then the payload, whose first byte is the ID.
    An entity that does not fit the bytes that remain is not decoded: the
    call consumes nothing and leaves the entity as it was constructed.
    [expectedBytes] is 1 for this decoder, the least an entity
    occupies. *)
Definition readPrefixedModel (mem : list Z) (dataAt left : Z) (args : unit)
  : ModelItem Z nat * Z :=
  let len := Wire.peek mem dataAt in
  if (1 <=? left) && (0 <=? len) && (1 + len <=? left)
  then (entity (if len =? 0 then 0 else Wire.peek mem (dataAt + 1))
          0 0 0 0 0 0,
        1 + len)
  else (entity 0 0 0 0 0 0 0, 0).

Definition prefixedBytes (mem : list Z) (dataAt : Z) : Z :=
  1 + Z.max 0 (Wire.peek mem dataAt).

Lemma readPrefixedModel_within :
  forall mem dataAt left args,
    0 <= snd (readPrefixedModel mem dataAt left args) <= Z.max 0 left.
Proof.
  intros; unfold readPrefixedModel. cbv zeta.
  destruct (Z.leb_spec 1 left); cbn [andb]; [|cbn [snd]; lia].
  destruct (Z.leb_spec 0 (Wire.peek mem dataAt)); cbn [andb];
    [|cbn [snd]; lia].
  destruct (Z.leb_spec (1 + Wire.peek mem dataAt) left); cbn [snd]; lia.
Qed.

Lemma readPrefixedModel_local :
  forall mem mem' dataAt left args,
    (forall k, dataAt <= k < dataAt + left ->
               Wire.peek mem k = Wire.peek mem' k) ->
    readPrefixedModel mem dataAt left args =
    readPrefixedModel mem' dataAt left args.
Proof.
  intros mem mem' dataAt left args H; unfold readPrefixedModel. cbv zeta.
  destruct (Z.leb_spec 1 left); cbn [andb]; [|reflexivity].
  rewrite <- (H dataAt) by lia.
  destruct (Z.leb_spec 0 (Wire.peek mem dataAt)); cbn [andb]; [|reflexivity].
  destruct (Z.leb_spec (1 + Wire.peek mem dataAt) left); [|reflexivity].
  destruct (Z.eqb_spec (Wire.peek mem dataAt) 0); [reflexivity|].
  rewrite <- (H (dataAt + 1)) by lia. reflexivity.
Qed.

(** C7 as stated fails: the buffer announces two entities of variable
    length; the first occupies two bytes, and of the second only the
    length byte is there, so it would overrun the byte that remains.  The
    up-front test passes (two entities of at least one byte, three bytes
    left), the decoder is called for the second entity all the same, and
    what it leaves is stored: two entities are stored, where a decoder
    that stops before the overrunning entity stores the first only. *)
Lemma readElementDataFromBuffer_stores_overrunning_entity :
  ~ (forall (mem : list Z) (bytesLeftToRead : Z),
        exists rest,
          snd (decodeStopping Z nat unit readPrefixedModel prefixedBytes
                 mem bytesLeftToRead tt) =
          snd (readElementDataFromBuffer Z nat 1 unit readPrefixedModel
                 mem bytesLeftToRead tt) ++ rest).
Proof.
  intros H.
  destruct (H [2; 0; 1; 7; 1] 5) as [rest Hrest].
  vm_compute in Hrest. discriminate Hrest.
Qed.

(** The same buffer: both announced entities are stored and four bytes
    are accounted.  Two one-byte entities announced and present: both are
    decoded, from the offsets 2 and 3.  Three one-byte entities announced
    and the buffer cut after the second: only the count is consumed. *)
Lemma readElementDataFromBuffer_accounts_bytes_witness :
  readElementDataFromBuffer Z nat 1 unit readPrefixedModel [2; 0; 1; 7; 1]
    5 tt = (4, [entity 7 0 0 0 0 0 0; entity 0 0 0 0 0 0 0]) /\
  readElementDataFromBuffer Z nat 1 unit readOneByteModel [2; 0; 10; 11; 12]
    5 tt = (4, [entity 10 0 0 0 0 0 0; entity 11 0 0 0 0 0 0]) /\
  readElementDataFromBuffer Z nat 1 unit readOneByteModel [3; 0; 10; 11]
    4 tt = (2, []) /\
  readElementDataFromBuffer Z nat 1 unit readOneByteModel
    ([3; 0; 10; 11] ++ [12; 13]) 4 tt =
  readElementDataFromBuffer Z nat 1 unit readOneByteModel [3; 0; 10; 11]
    4 tt.
Proof.
  destruct (readElementDataFromBuffer_accounts_bytes Z nat 1 unit
              readPrefixedModel readPrefixedModel_within
              readPrefixedModel_local [2; 0; 1; 7; 1] 5 tt)
    as [_ [_ [Hall _]]].
  destruct (readElementDataFromBuffer_accounts_bytes Z nat 1 unit
              readOneByteModel readOneByteModel_within
              readOneByteModel_local [2; 0; 10; 11; 12] 5 tt)
    as [_ [_ [_ [_ [_ Hfixed]]]]].
  destruct (readElementDataFromBuffer_accounts_bytes Z nat 1 unit
              readOneByteModel readOneByteModel_within
              readOneByteModel_local [3; 0; 10; 11] 4 tt)
    as [_ [Hshort [_ [_ [Hlocal _]]]]].
  split; [|split; [|split]].
  - destruct Hall as [Hread _]; [vm_compute; discriminate
                                |vm_compute; discriminate|].
    exact Hread.
  - refine (eq_trans (Hfixed _ _ _) _).
    + intros mem0 dataAt left args0 Hleft. unfold readOneByteModel.
      destruct (Z.leb_spec 1 left); [reflexivity|lia].
    + vm_compute; discriminate.
    + vm_compute; discriminate.
    + reflexivity.
  - apply Hshort; vm_compute; [discriminate|reflexivity].
  - apply Hlocal.
    intros k Hk.
    assert (Hcases : k = 0 \/ k = 1 \/ k = 2 \/ k = 3) by lia.
    destruct Hcases as [-> | [-> | [-> | ->]]]; reflexivity.
Defined.

(** ** Lookup, removal and reconciliation on concrete nodes *)

(** Storing the entity 7 in a node of two other entities. *)
Lemma storeModel_lookup_remove_witness :
  let e := node [entity 3 0 0 0 0 0 0; entity 4 0 0 1 0 0 0] in
  let model := entity 7 2 2 0 1 0 5 in
  getModelWithID Z unit nat 7 (storeModel Z unit nat 11 model e) =
    Some 2%nat /\
  removeModelWithID Z unit nat 7 (storeModel Z unit nat 11 model e) =
    (true, mkElement Z unit nat tt 11
             [entity 3 0 0 0 0 0 0; entity 4 0 0 1 0 0 0]).
Proof.
  intros e model.
  apply (storeModel_lookup_remove Z unit nat 11 model e).
  - vm_compute. reflexivity.
  - repeat constructor; vm_compute; discriminate.
Defined.

(** The overlap test of two spheres on integral coordinates; the
    penetration vector is left as it was passed. *)
Definition spheresOverlap (firstCenter : vec3 Z) (firstRadius : Z)
    (secondCenter : vec3 Z) (secondRadius : Z) (penetration : vec3 Z)
  : bool * vec3 Z :=
  (integral_distance firstCenter secondCenter <? firstRadius + secondRadius,
   penetration).

(** The query sphere of centre (0,0,0) and radius 1 in a node that holds
    a distant entity, the sphere itself, and an entity that overlaps it:
    the overlapping entity is never looked at. *)
Lemma findSpherePenetration_stops_at_itself_witness :
  let e := node [entity 1 0 0 10 0 0 0; entity 2 0 0 0 0 0 0;
                 entity 3 0 0 1 0 0 0] in
  let center := mkVec3 Z 0 0 0 in
  fst (spheresOverlap center 1 (mkVec3 Z 1 0 0) 1 center) = true /\
  fst (fst (findSpherePenetration Z unit nat Z.eqb spheresOverlap center 1
              center e)) = false /\
  snd (findSpherePenetration Z unit nat Z.eqb spheresOverlap center 1
         center e) = None.
Proof.
  intros e center.
  split; [reflexivity|].
  apply (findSpherePenetration_stops_at_itself Z unit nat Z.eqb
           spheresOverlap center 1 center e
           [entity 1 0 0 10 0 0 0] (entity 2 0 0 0 0 0 0)
           [entity 3 0 0 1 0 0 0]).
  - reflexivity.
  - constructor; [|constructor].
    split; [reflexivity|intros p; reflexivity].
  - reflexivity.
Defined.

(** Modelled from the spec: [ModelItem::setID] is defined in the class
    header, which is not part of the file; it rewrites the identity of the
    entity to the assigned ID in place, and the creator token is
    retained. *)
Definition assignID (newID : Z) (m : ModelItem Z nat) : ModelItem Z nat :=
  mkModelItem Z nat newID (_creatorTokenID Z nat m) (_lastUpdated Z nat m)
    (_lastEdited Z nat m) (_position Z nat m) (_radius Z nat m)
    (_shouldDie Z nat m) (_properties Z nat m).

Definition UNKNOWN_MODEL_TOKEN_value : Z := 4294967295.

(** An entity created locally under the creator token [token], not yet
    confirmed. *)
Definition provisional (token : Z) (payload : nat) : ModelItem Z nat :=
  mkModelItem Z nat 0 token 0 0 (mkVec3 Z 0 0 0) 1 false payload.

(** The server confirms token 7 as ID 42 in a tree that is not a viewing
    tree: the first entity created under token 7 gets the ID, the second
    one keeps its own. *)
Lemma updateModelItemID_confirms_first_witness :
  let e := node [provisional 5 0; provisional 7 1; provisional 7 2] in
  let args := mkFindAndUpdateModelItemIDArgs 42 7 false false false in
  updateModelItemID Z unit nat UNKNOWN_MODEL_TOKEN_value assignID args e =
  (node [provisional 5 0; assignID 42 (provisional 7 1); provisional 7 2],
   mkFindAndUpdateModelItemIDArgs 42 7 true false false).
Proof.
  intros e args.
  destruct (updateModelItemID_confirms_first Z unit nat
              UNKNOWN_MODEL_TOKEN_value assignID args e eq_refl
              (or_intror eq_refl)) as [Hfound _].
  apply (Hfound [provisional 5 0] (provisional 7 1) [provisional 7 2]).
  - reflexivity.
  - vm_compute. lia.
  - constructor; [|constructor]. vm_compute. discriminate.
  - reflexivity.
Defined.

(** The viewed copy of the model 42 (an entity with the unknown creator
    token and that ID) is removed from a viewing tree; the confirmed
    entity and a second copy stay. *)
Lemma updateModelItemID_kills_first_viewed_witness :
  let copy := mkModelItem Z nat 42 UNKNOWN_MODEL_TOKEN_value 0 0
                (mkVec3 Z 0 0 0) 1 false 0%nat in
  let e := node [assignID 42 (provisional 7 1); copy; copy] in
  let args := mkFindAndUpdateModelItemIDArgs 42 7 true false true in
  updateModelItemID Z unit nat UNKNOWN_MODEL_TOKEN_value assignID args e =
  (node [assignID 42 (provisional 7 1); copy],
   mkFindAndUpdateModelItemIDArgs 42 7 true true true).
Proof.
  intros copy e args.
  destruct (updateModelItemID_kills_first_viewed Z unit nat
              UNKNOWN_MODEL_TOKEN_value assignID args e eq_refl eq_refl
              eq_refl) as [Hfound _].
  apply (Hfound [assignID 42 (provisional 7 1)] copy [copy]).
  - reflexivity.
  - vm_compute. lia.
  - constructor; [|constructor]. left. vm_compute. discriminate.
  - reflexivity.
  - reflexivity.
Defined.

(** ** Writing a node and reading it back *)

(** A packet of at most [capacity] bytes: a writer fails, and writes
    nothing, when its bytes do not fit. *)
Definition writeValue (capacity : nat) (v : Z) (packetData : list Z)
  : bool * list Z :=
  if (length packetData + 2 <=? capacity)%nat
  then (true, packetData ++ Wire.le_bytes 2 v)
  else (false, packetData).

(** The writer of one-byte entities, the counterpart of
    [readOneByteModel]. *)
Definition writeOneByteModel (capacity : nat) (m : ModelItem Z nat)
    (packetData : list Z) : bool * list Z :=
  if (length packetData + 1 <=? capacity)%nat
  then (true, packetData ++ [_id Z nat m])
  else (false, packetData).

Lemma peek_skipn (mem : list Z) (x : Z) :
  forall n, firstn 1 (skipn n mem) = [x] ->
            Wire.peek mem (Z.of_nat n) = x.
Proof.
  intros n H. unfold Wire.peek.
  destruct (Z.ltb_spec (Z.of_nat n) 0) as [Hneg|_]; [lia|].
  rewrite Nat2Z.id. revert mem H.
  induction n as [|n IH]; intros [|h t] H; try discriminate.
  - now inversion H.
  - cbn [nth]. apply IH. exact H.
Qed.

(** A node of the entities 3 and 9 written to an empty packet of eight
    bytes and read back. *)
Lemma appendElementData_read_back_witness :
  let e := node [entity 3 0 0 0 0 0 0; entity 9 0 0 0 0 0 0] in
  appendElementData Z unit nat (list Z) (writeValue 8) (writeOneByteModel 8)
    e [] = (true, [2; 0; 3; 9]) /\
  exists written,
    [2; 0; 3; 9] = [] ++ written /\
    forall more,
      readElementDataFromBuffer Z nat 1 unit readOneByteModel
        (written ++ more) (Z.of_nat (length (written ++ more))) tt =
      (Z.of_nat (length written),
       firstn (numberOfModels Z unit nat e) (_modelItems Z unit nat e)).
Proof.
  intros e.
  split; [reflexivity|].
  apply (appendElementData_read_back Z unit nat 1 unit readOneByteModel
           (list Z) (writeValue 8) (writeOneByteModel 8) e
           (fun packetData => packetData)
           (fun m => [_id Z nat m])).
  - intros v p. unfold writeValue.
    destruct (length p + 2 <=? 8)%nat; [reflexivity|discriminate].
  - intros m p. unfold writeOneByteModel.
    destruct (length p + 1 <=? 8)%nat; [reflexivity|discriminate].
  - intros m _. reflexivity.
  - intros m mem dataAt left args Hm Hat Hbytes Hleft.
    unfold readOneByteModel.
    destruct (Z.leb_spec 1 left); [|lia].
    rewrite <- (Z2Nat.id dataAt Hat).
    rewrite (peek_skipn mem (_id Z nat m) _ Hbytes).
    destruct Hm as [<- | [<- | []]]; reflexivity.
  - reflexivity.
Defined.

(** ** Boxes on integral coordinates *)

(** A cube is its corner and its scale; two cubes touch when they overlap
    on the three axes. *)
Definition Cube : Type := (vec3 Z * Z)%type.

Definition subtract (a b : vec3 Z) : vec3 Z :=
  mkVec3 Z (vx Z a - vx Z b) (vy Z a - vy Z b) (vz Z a - vz Z b).

Definition setCube (corner : vec3 Z) (scale : Z) (box : Cube) : Cube :=
  (corner, scale).

Definition cubesTouch (a b : Cube) : bool :=
  let overlap (p q : Z) :=
    (p <=? q + snd b) && (q <=? p + snd a) in
  overlap (vx Z (fst a)) (vx Z (fst b)) &&
  overlap (vy Z (fst a)) (vy Z (fst b)) &&
  overlap (vz Z (fst a)) (vz Z (fst b)).

(** An element whose box is the cube of corner (0,0,0) and scale 4, with
    an entity inside, one far away and one at its edge; the box passed is
    far from all of them. *)
Lemma getModelsForUpdate_uses_own_box_witness :
  let e :=
    mkElement Z Cube nat (mkVec3 Z 0 0 0, 4) 0
      [entity 1 0 0 1 1 1 0; entity 2 0 0 20 0 0 0; entity 3 0 0 5 5 5 0] in
  getModelsForUpdate Z Cube nat subtract (mkVec3 Z 0 0 0, 0) setCube
    cubesTouch Z.mul 2 (mkVec3 Z 100 100 100, 1) [] e = [0%nat; 2%nat].
Proof.
  intros e.
  refine (eq_trans
            (getModelsForUpdate_uses_own_box Z Cube nat subtract
               (mkVec3 Z 0 0 0, 0) setCube cubesTouch Z.mul 2 _
               (mkVec3 Z 100 100 100, 1) [] e) _).
  - reflexivity.
  - reflexivity.
Defined.

End ModelTreeElement.

(** ** OctreeEditPacketSender: jurisdiction-aware edit batching *)

Module OctreeEditPacketSender.

(** A [QUuid] is its 128-bit value, 0 for the null id; [std::map] orders
    its keys by [<]. *)
Definition QUuid : Type := Z.
Definition isNull (u : QUuid) : bool := u =? 0.

(** [PacketType] is an enumeration whose first member is
    [PacketTypeUnknown]. *)
Definition PacketType : Type := Z.
Definition PacketTypeUnknown : PacketType := 0.

Definition NodeType : Type := Z.

(** What the sender reads of a [Node] of the node directory. *)
Record Node : Type := mkNode {
  getType : NodeType;
  getUUID : QUuid;
  getActiveSocket : bool;       (* the socket pointer is not NULL *)
  getClockSkewUsec : Z
}.

Record EditPacketBuffer : Type := mkEditPacketBuffer {
  _nodeUUID : QUuid;
  _currentType : PacketType;
  _currentBuffer : list Z;      (* the bytes written so far *)
  _currentSize : Z
}.

(** The default constructor, which [std::map::operator[]] runs for a
    destination without a buffer.  Modelled from the spec: the class is
    declared in the header, which is not part of the file; a created
    buffer is empty and of no type. *)
Definition EditPacketBuffer_default : EditPacketBuffer :=
  mkEditPacketBuffer 0 PacketTypeUnknown [] 0.

(** [EditPacketBuffer(type, buffer, length)], [nodeUUID] defaulted. *)
Definition EditPacketBuffer_new (type : PacketType) (buffer : list Z)
  : EditPacketBuffer :=
  mkEditPacketBuffer 0 type (Wire.memcpy_at [] 0 buffer)
    (Z.of_nat (length buffer)).

(** The valid prefix [&_currentBuffer[0], _currentSize]. *)
Definition contents (pb : EditPacketBuffer) : list Z :=
  firstn (Z.to_nat (_currentSize pb)) (_currentBuffer pb).

(** *** [std::map<QUuid, V>] as a list sorted by key *)

Section StdMap.
Context {V : Type}.

Fixpoint map_find (k : QUuid) (m : list (QUuid * V)) : option V :=
  match m with
  | [] => None
  | (k', v) :: t => if k =? k' then Some v else map_find k t
  end.

Fixpoint map_put (k : QUuid) (v : V) (m : list (QUuid * V))
  : list (QUuid * V) :=
  match m with
  | [] => [(k, v)]
  | (k', v') :: t =>
      if k <? k' then (k, v) :: m
      else if k =? k' then (k, v) :: t
      else (k', v') :: map_put k v t
  end.

(** [m[k]]: the entry, created with [d] when absent. *)
Definition map_at (d : V) (k : QUuid) (m : list (QUuid * V)) : V :=
  match map_find k m with
  | Some v => v
  | None => d
  end.

End StdMap.

(** *** The sender and its surroundings *)

Section Sender.

Variable JurisdictionMap : Type.
(** [isMyJurisdiction jm octcode] holds when
    [jm.isMyJurisdiction(octcode, CHECK_NODE_ONLY) == JurisdictionMap::WITHIN]. *)
Variable isMyJurisdiction : JurisdictionMap -> list Z -> bool.
(** The pure virtual [getMyNodeType()]. *)
Variable getMyNodeType : NodeType.
(** [numBytesForPacketHeader(packet)] and the bytes
    [populatePacketHeader(packet, type)] writes; it returns their number. *)
Variable numBytesForPacketHeader : list Z -> Z.
Variable populatePacketHeader : PacketType -> list Z.
(** [usecTimestampNow k]: what the clock returns at its [k]-th reading. *)
Variable usecTimestampNow : nat -> Z.
(** The virtual [adjustEditPacketForClockSkew(codeColorBuffer, length,
    clockSkew)]: the caller's buffer after the call. *)
Variable adjustEditPacketForClockSkew : list Z -> Z -> list Z.
(** A default-constructed [JurisdictionMap]. *)
Variable JurisdictionMap_default : JurisdictionMap.

(** The directory's node hash in iteration order, and the map
    [_serverJurisdictions] points to ([None] for [NULL]). *)
Record World : Type := mkWorld {
  getNodeHash : list Node;
  _serverJurisdictions : option (QUuid -> option JurisdictionMap)
}.

(** The sender.  [_packets] is the sequence of calls
    [queuePacketForSending(node, bytes)] made on the base class, oldest
    first; [_clockReads] counts the readings of the clock.  The class is
    declared in the header, which is not part of the file: the members are
    the ones the file uses, and [_sequenceNumber] has the 16 bits the
    design gives it (it is stored through an [unsigned short int*]). *)
Record Sender : Type := mkSender {
  _shouldSend : bool;
  _maxPendingMessages : Z;
  _releaseQueuedMessagesPending : bool;
  _sequenceNumber : Z;          (* unsigned short *)
  _maxPacketSize : Z;
  _preServerSingleMessagePackets : list EditPacketBuffer;
  _preServerPackets : list EditPacketBuffer;
  _pendingEditPackets : list (QUuid * EditPacketBuffer);
  _packets : list (QUuid * list Z);
  _clockReads : nat
}.

Definition set_releaseQueuedMessagesPending (b : bool) (s : Sender) :=
  mkSender (_shouldSend s) (_maxPendingMessages s) b (_sequenceNumber s)
    (_maxPacketSize s) (_preServerSingleMessagePackets s)
    (_preServerPackets s) (_pendingEditPackets s) (_packets s)
    (_clockReads s).

Definition set_sequenceNumber (n : Z) (s : Sender) :=
  mkSender (_shouldSend s) (_maxPendingMessages s)
    (_releaseQueuedMessagesPending s) n
    (_maxPacketSize s) (_preServerSingleMessagePackets s)
    (_preServerPackets s) (_pendingEditPackets s) (_packets s)
    (_clockReads s).

Definition set_preServerSingleMessagePackets (l : list EditPacketBuffer)
    (s : Sender) :=
  mkSender (_shouldSend s) (_maxPendingMessages s)
    (_releaseQueuedMessagesPending s) (_sequenceNumber s)
    (_maxPacketSize s) l
    (_preServerPackets s) (_pendingEditPackets s) (_packets s)
    (_clockReads s).

Definition set_preServerPackets (l : list EditPacketBuffer) (s : Sender) :=
  mkSender (_shouldSend s) (_maxPendingMessages s)
    (_releaseQueuedMessagesPending s) (_sequenceNumber s)
    (_maxPacketSize s) (_preServerSingleMessagePackets s)
    l (_pendingEditPackets s) (_packets s)
    (_clockReads s).

Definition set_pendingEditPackets (m : list (QUuid * EditPacketBuffer))
    (s : Sender) :=
  mkSender (_shouldSend s) (_maxPendingMessages s)
    (_releaseQueuedMessagesPending s) (_sequenceNumber s)
    (_maxPacketSize s) (_preServerSingleMessagePackets s)
    (_preServerPackets s) m (_packets s)
    (_clockReads s).

Definition set_packets (q : list (QUuid * list Z)) (s : Sender) :=
  mkSender (_shouldSend s) (_maxPendingMessages s)
    (_releaseQueuedMessagesPending s) (_sequenceNumber s)
    (_maxPacketSize s) (_preServerSingleMessagePackets s)
    (_preServerPackets s) (_pendingEditPackets s) q
    (_clockReads s).

Definition set_clockReads (k : nat) (s : Sender) :=
  mkSender (_shouldSend s) (_maxPendingMessages s)
    (_releaseQueuedMessagesPending s) (_sequenceNumber s)
    (_maxPacketSize s) (_preServerSingleMessagePackets s)
    (_preServerPackets s) (_pendingEditPackets s) (_packets s)
    k.

(** [queuePacketForSending(node, bytes)] of the base class. *)
Definition queuePacketForSending (node : Node) (bytes : list Z) (s : Sender)
  : Sender :=
  set_packets (_packets s ++ [(getUUID node, bytes)]) s.

(** *** serversExist

    The loop state is [(hasServers, atLeastOneJurisdictionMissing)]. *)
Fixpoint serversExist_loop (w : World) (nodes : list Node) (hasServers : bool)
  : bool * bool :=
  match nodes with
  | [] => (hasServers, false)
  | node :: rest =>
      if (getType node =? getMyNodeType) && getActiveSocket node then
        let missing :=
          match _serverJurisdictions w with
          | Some jurisdictions =>
              match jurisdictions (getUUID node) with
              | None => true
              | Some _ => false
              end
          | None => false
          end in
        if missing then (true, true)
        else serversExist_loop w rest true
      else serversExist_loop w rest hasServers
  end.

Definition serversExist (w : World) : bool :=
  let r := serversExist_loop w (getNodeHash w) false in
  fst r && negb (snd r).

(** *** queuePacketToNode *)
Fixpoint queuePacketToNode_loop (nodes : list Node) (nodeUUID : QUuid)
    (buffer : list Z) (s : Sender) : Sender :=
  match nodes with
  | [] => s
  | node :: rest =>
      let s' :=
        if (getType node =? getMyNodeType) &&
           ((getUUID node =? nodeUUID) || isNull nodeUUID)
        then
          if getActiveSocket node
          then queuePacketForSending node buffer s
          else s
        else s in
      queuePacketToNode_loop rest nodeUUID buffer s'
  end.

Definition queuePacketToNode (w : World) (nodeUUID : QUuid)
    (buffer : list Z) (s : Sender) : Sender :=
  queuePacketToNode_loop (getNodeHash w) nodeUUID buffer s.

(** *** releaseQueuedPacket and initializePacket

    Both work on a buffer passed by reference; the model returns it. *)
Definition releaseQueuedPacket (w : World) (packetBuffer : EditPacketBuffer)
    (s : Sender) : EditPacketBuffer * Sender :=
  let s' :=
    if (0 <? _currentSize packetBuffer) &&
       negb (_currentType packetBuffer =? PacketTypeUnknown)
    then queuePacketToNode w (_nodeUUID packetBuffer)
           (contents packetBuffer) s
    else s in
  (mkEditPacketBuffer (_nodeUUID packetBuffer) PacketTypeUnknown
     (_currentBuffer packetBuffer) 0, s').

Definition initializePacket (packetBuffer : EditPacketBuffer)
    (type : PacketType) (s : Sender) : EditPacketBuffer * Sender :=
  let header := populatePacketHeader type in
  let buffer1 := Wire.memcpy_at (_currentBuffer packetBuffer) 0 header in
  let size1 := Z.of_nat (length header) in
  (* pack in sequence numbers *)
  let buffer2 :=
    Wire.memcpy_at buffer1 (Z.to_nat size1)
      (Wire.le_bytes 2 (_sequenceNumber s)) in
  let size2 := size1 + 2 in
  let s1 := set_sequenceNumber (Wire.uint16 (_sequenceNumber s + 1)) s in
  (* pack in timestamp *)
  let now := usecTimestampNow (_clockReads s1) in
  let s2 := set_clockReads (S (_clockReads s1)) s1 in
  let buffer3 :=
    Wire.memcpy_at buffer2 (Z.to_nat size2) (Wire.le_bytes 8 now) in
  let size3 := size2 + 8 in
  (mkEditPacketBuffer (_nodeUUID packetBuffer) type buffer3 size3, s2).

(** *** queuePendingPacketToNodes *)
Definition queuePendingPacketToNodes (type : PacketType) (buffer : list Z)
    (s : Sender) : Sender :=
  if 0 <? _maxPendingMessages s then
    let packet := EditPacketBuffer_new type buffer in
    let s1 :=
      set_preServerSingleMessagePackets
        (_preServerSingleMessagePackets s ++ [packet]) s in
    (* if we've saved MORE than our max, then clear out the oldest packet *)
    let allPendingMessages :=
      Z.of_nat (length (_preServerSingleMessagePackets s1)) +
      Z.of_nat (length (_preServerPackets s1)) in
    if _maxPendingMessages s1 <? allPendingMessages then
      set_preServerSingleMessagePackets
        (tl (_preServerSingleMessagePackets s1)) s1
    else s1
  else s.

(** *** queuePacketToNodes

    [None] is an abort: a failed [assert], or the dereference of a
    [NULL] [_serverJurisdictions].  After the assertion every node the
    loop selects has an entry in the map, so [operator[]] creates none. *)
Fixpoint queuePacketToNodes_loop (w : World) (nodes : list Node)
    (buffer octCode : list Z) (s : Sender) : option Sender :=
  match nodes with
  | [] => Some s
  | node :: rest =>
      if getActiveSocket node && (getType node =? getMyNodeType) then
        let nodeUUID := getUUID node in
        match _serverJurisdictions w with
        | None => None
        | Some jurisdictions =>
            let map :=
              match jurisdictions nodeUUID with
              | Some jm => jm
              | None => JurisdictionMap_default
              end in
            let isMy := isMyJurisdiction map octCode in
            let s' :=
              if isMy then queuePacketToNode w nodeUUID buffer s else s in
            queuePacketToNodes_loop w rest buffer octCode s'
        end
      else queuePacketToNodes_loop w rest buffer octCode s
  end.

Definition queuePacketToNodes (w : World) (buffer : list Z) (s : Sender)
  : option Sender :=
  if negb (_shouldSend s) then Some s
  else if negb (serversExist w) then None
  else
    let headerBytes := numBytesForPacketHeader buffer + 2 + 8 in
    let octCode := skipn (Z.to_nat headerBytes) buffer in
    queuePacketToNodes_loop w (getNodeHash w) buffer octCode s.

(** *** queueOctreeEditMessage

    [queueToServer] is the body of the [if (isMyJurisdiction)] block for
    one node; [codeColorBuffer] is the caller's buffer, which the
    clock-skew hook rewrites in place, so the loop threads it. *)
Definition queueToServer (w : World) (node : Node) (type : PacketType)
    (length : Z) (codeColorBuffer : list Z) (s : Sender)
  : Sender * list Z :=
  let nodeUUID := getUUID node in
  let packetBuffer :=
    map_at EditPacketBuffer_default nodeUUID (_pendingEditPackets s) in
  let packetBuffer :=
    mkEditPacketBuffer nodeUUID (_currentType packetBuffer)
      (_currentBuffer packetBuffer) (_currentSize packetBuffer) in
  (* If we're switching type, then we send the last one and start over *)
  let r1 :=
    if (negb (type =? _currentType packetBuffer) &&
        (0 <? _currentSize packetBuffer)) ||
       (_maxPacketSize s <=? _currentSize packetBuffer + length)
    then
      let r := releaseQueuedPacket w packetBuffer s in
      initializePacket (fst r) type (snd r)
    else (packetBuffer, s) in
  (* If the buffer is empty and not correctly initialized for our type *)
  let r2 :=
    if negb (type =? _currentType (fst r1)) &&
       (_currentSize (fst r1) =? 0)
    then initializePacket (fst r1) type (snd r1)
    else r1 in
  let codeColorBuffer :=
    if negb (getClockSkewUsec node =? 0)
    then adjustEditPacketForClockSkew codeColorBuffer
           (getClockSkewUsec node)
    else codeColorBuffer in
  let packetBuffer := fst r2 in
  let packetBuffer :=
    mkEditPacketBuffer (_nodeUUID packetBuffer) (_currentType packetBuffer)
      (Wire.memcpy_at (_currentBuffer packetBuffer)
         (Z.to_nat (_currentSize packetBuffer))
         (firstn (Z.to_nat length) codeColorBuffer))
      (_currentSize packetBuffer + length) in
  (set_pendingEditPackets
     (map_put nodeUUID packetBuffer (_pendingEditPackets (snd r2)))
     (snd r2),
   codeColorBuffer).

Fixpoint queueOctreeEditMessage_loop (w : World) (nodes : list Node)
    (type : PacketType) (length : Z) (codeColorBuffer : list Z) (s : Sender)
  : Sender * list Z :=
  match nodes with
  | [] => (s, codeColorBuffer)
  | node :: rest =>
      if getActiveSocket node && (getType node =? getMyNodeType) then
        let nodeUUID := getUUID node in
        let isMy :=
          match _serverJurisdictions w with
          | Some jurisdictions =>
              match jurisdictions nodeUUID with
              | Some map => isMyJurisdiction map codeColorBuffer
              | None => false
              end
          | None => true
          end in
        if isMy then
          let r := queueToServer w node type length codeColorBuffer s in
          queueOctreeEditMessage_loop w rest type length (snd r) (fst r)
        else queueOctreeEditMessage_loop w rest type length codeColorBuffer s
      else queueOctreeEditMessage_loop w rest type length codeColorBuffer s
  end.

Definition queueOctreeEditMessage (w : World) (type : PacketType)
    (codeColorBuffer : list Z) (s : Sender) : Sender :=
  if negb (_shouldSend s) then s
  else if negb (serversExist w) then
    if 0 <? _maxPendingMessages s then
      let packet := EditPacketBuffer_new type codeColorBuffer in
      let s1 := set_preServerPackets (_preServerPackets s ++ [packet]) s in
      (* if we've saved MORE than out max, then clear out the oldest packet *)
      let allPendingMessages :=
        Z.of_nat (length (_preServerSingleMessagePackets s1)) +
        Z.of_nat (length (_preServerPackets s1)) in
      if _maxPendingMessages s1 <? allPendingMessages then
        set_preServerPackets (tl (_preServerPackets s1)) s1
      else s1
    else s
  else
    fst (queueOctreeEditMessage_loop w (getNodeHash w) type
           (Z.of_nat (length codeColorBuffer)) codeColorBuffer s).

(** *** releaseQueuedMessages *)
Fixpoint releaseQueuedMessages_loop (w : World)
    (entries : list (QUuid * EditPacketBuffer)) (s : Sender)
  : list (QUuid * EditPacketBuffer) * Sender :=
  match entries with
  | [] => ([], s)
  | (k, packetBuffer) :: rest =>
      let r := releaseQueuedPacket w packetBuffer s in
      let r' := releaseQueuedMessages_loop w rest (snd r) in
      ((k, fst r) :: fst r', snd r')
  end.

Definition releaseQueuedMessages (w : World) (s : Sender) : Sender :=
  if negb (serversExist w) then set_releaseQueuedMessagesPending true s
  else
    let r := releaseQueuedMessages_loop w (_pendingEditPackets s) s in
    set_pendingEditPackets (fst r) (snd r).

(** *** processPreServerExistsPackets

    Each [while] loop runs while its list is not empty; [fuel] bounds the
    number of iterations and is the length of the list on entry. *)
Fixpoint drainSingleMessagePackets (w : World) (fuel : nat) (s : Sender)
  : option Sender :=
  match fuel with
  | O => Some s
  | S fuel' =>
      match _preServerSingleMessagePackets s with
      | [] => Some s
      | packet :: _ =>
          match queuePacketToNodes w (contents packet) s with
          | None => None
          | Some s1 =>
              drainSingleMessagePackets w fuel'
                (set_preServerSingleMessagePackets
                   (tl (_preServerSingleMessagePackets s1)) s1)
          end
      end
  end.

Fixpoint drainPackets (w : World) (fuel : nat) (s : Sender) : Sender :=
  match fuel with
  | O => s
  | S fuel' =>
      match _preServerPackets s with
      | [] => s
      | packet :: _ =>
          let s1 :=
            queueOctreeEditMessage w (_currentType packet)
              (contents packet) s in
          drainPackets w fuel'
            (set_preServerPackets (tl (_preServerPackets s1)) s1)
      end
  end.

Definition processPreServerExistsPackets (w : World) (s : Sender)
  : option Sender :=
  if negb (serversExist w) then None
  else
    (* First send out all the single message packets *)
    match drainSingleMessagePackets w
            (length (_preServerSingleMessagePackets s)) s with
    | None => None
    | Some s1 =>
        (* Then "process" all the packable messages *)
        let s2 := drainPackets w (length (_preServerPackets s1)) s1 in
        if _releaseQueuedMessagesPending s2 then
          Some (set_releaseQueuedMessagesPending false
                  (releaseQueuedMessages w s2))
        else Some s2
    end.

(** *** process, up to the call of the base class *)
Definition process (w : World) (s : Sender) : option Sender :=
  if serversExist w &&
     (negb (match _preServerPackets s with [] => true | _ => false end) ||
      negb (match _preServerSingleMessagePackets s with
            | [] => true | _ => false end))
  then processPreServerExistsPackets w s
  else Some s.

(** *** Auxiliary definitions for the statements below *)

(** The datagrams one call of [queuePacketToNode] queues. *)
Definition recipients (nodes : list Node) (nodeUUID : QUuid)
    (buffer : list Z) : list (QUuid * list Z) :=
  flat_map
    (fun node =>
       if ((getType node =? getMyNodeType) &&
           ((getUUID node =? nodeUUID) || isNull nodeUUID)) &&
          getActiveSocket node
       then [(getUUID node, buffer)]
       else [])
    nodes.

(** The bytes of the record a node is sent: the caller's buffer after the
    clock-skew hook, when the node's skew is not zero. *)
Definition skewed (node : Node) (codeColorBuffer : list Z) : list Z :=
  if negb (getClockSkewUsec node =? 0)
  then adjustEditPacketForClockSkew codeColorBuffer (getClockSkewUsec node)
  else codeColorBuffer.

(** The buffer of the node with its [_nodeUUID] set, as the first two
    [if]s of [queueToServer] find it, and what they make of it. *)
Definition claimed (node : Node) (s : Sender) : EditPacketBuffer :=
  let pb := map_at EditPacketBuffer_default (getUUID node)
              (_pendingEditPackets s) in
  mkEditPacketBuffer (getUUID node) (_currentType pb) (_currentBuffer pb)
    (_currentSize pb).

Definition prepared (w : World) (node : Node) (type : PacketType)
    (length : Z) (s : Sender) : EditPacketBuffer * Sender :=
  let packetBuffer := claimed node s in
  let r1 :=
    if (negb (type =? _currentType packetBuffer) &&
        (0 <? _currentSize packetBuffer)) ||
       (_maxPacketSize s <=? _currentSize packetBuffer + length)
    then
      let r := releaseQueuedPacket w packetBuffer s in
      initializePacket (fst r) type (snd r)
    else (packetBuffer, s) in
  if negb (type =? _currentType (fst r1)) && (_currentSize (fst r1) =? 0)
  then initializePacket (fst r1) type (snd r1)
  else r1.

(** The node is one the loop of [queueOctreeEditMessage] serves, and its
    jurisdiction contains the record. *)
Definition selected (node : Node) : bool :=
  getActiveSocket node && (getType node =? getMyNodeType).

Definition owns (w : World) (node : Node) (codeColorBuffer : list Z) : bool :=
  match _serverJurisdictions w with
  | Some jurisdictions =>
      match jurisdictions (getUUID node) with
      | Some map => isMyJurisdiction map codeColorBuffer
      | None => false
      end
  | None => true
  end.


(** The edits of a list submitted one after the other. *)
Definition submitEdits (w : World) (edits : list (PacketType * list Z))
    (s : Sender) : Sender :=
  fold_left (fun s' e => queueOctreeEditMessage w (fst e) (snd e) s')
    edits s.

(** The map of jurisdictions is set and has no entry for the node. *)
Definition lacksJurisdiction (w : World) (node : Node) : bool :=
  match _serverJurisdictions w with
  | Some jurisdictions =>
      match jurisdictions (getUUID node) with
      | None => true
      | Some _ => false
      end
  | None => false
  end.

(** A buffer after [releaseQueuedPacket], and the datagrams the call
    queues. *)
Definition emptied (pb : EditPacketBuffer) : EditPacketBuffer :=
  mkEditPacketBuffer (_nodeUUID pb) PacketTypeUnknown (_currentBuffer pb) 0.

Definition flushed (w : World) (pb : EditPacketBuffer)
  : list (QUuid * list Z) :=
  if (0 <? _currentSize pb) && negb (_currentType pb =? PacketTypeUnknown)
  then recipients (getNodeHash w) (_nodeUUID pb) (contents pb)
  else [].

(** The datagram is addressed to a node of the directory that has the
    sender's type and an active socket. *)
Definition deliverable (w : World) (p : QUuid * list Z) : Prop :=
  exists node,
    In node (getNodeHash w) /\ selected node = true /\ getUUID node = fst p.

(** [s'] has the datagrams of [s], in their order, followed by deliverable
    ones. *)
Definition queuesMore (w : World) (s s' : Sender) : Prop :=
  exists sent,
    _packets s' = _packets s ++ sent /\ Forall (deliverable w) sent.

(** [s'] has the pending lists and the capacity of [s]. *)
Definition keepsPending (s s' : Sender) : Prop :=
  _preServerSingleMessagePackets s' = _preServerSingleMessagePackets s /\
  _preServerPackets s' = _preServerPackets s /\
  _maxPendingMessages s' = _maxPendingMessages s.

Definition pendingCount (s : Sender) : Z :=
  Z.of_nat (length (_preServerSingleMessagePackets s)) +
  Z.of_nat (length (_preServerPackets s)).

(** What a client asks of the sender, each time under the directory and
    the jurisdictions of the moment. *)
Inductive Request : Type :=
| QueueEdit (w : World) (type : PacketType) (codeColorBuffer : list Z)
| QueuePending (type : PacketType) (buffer : list Z)
| Release (w : World).

Definition serve (s : Sender) (r : Request) : Sender :=
  match r with
  | QueueEdit w type codeColorBuffer =>
      queueOctreeEditMessage w type codeColorBuffer s
  | QueuePending type buffer => queuePendingPacketToNodes type buffer s
  | Release w => releaseQueuedMessages w s
  end.

(** The start of the packet a sender in state [s0] initializes. *)
Definition preamble (type : PacketType) (s0 : Sender) : list Z :=
  populatePacketHeader type ++
  Wire.le_bytes 2 (_sequenceNumber s0) ++
  Wire.le_bytes 8 (usecTimestampNow (_clockReads s0)).

(** The sender that started in [s0] holds one buffer, for the server,
    with the preamble and the records [acc], and has queued nothing. *)
Definition batching (node : Node) (type : PacketType) (s0 s : Sender)
    (acc : list (list Z)) : Prop :=
  exists pb,
    _pendingEditPackets s = [(getUUID node, pb)] /\
    _nodeUUID pb = getUUID node /\
    _currentType pb = type /\
    contents pb = preamble type s0 ++ concat acc /\
    _currentSize pb = Z.of_nat (length (contents pb)) /\
    (Z.to_nat (_currentSize pb) <= length (_currentBuffer pb))%nat /\
    _packets s = _packets s0 /\
    _shouldSend s = true /\
    _maxPacketSize s = _maxPacketSize s0.

(** Sending is disabled and every buffer is empty. *)
Definition idle (s : Sender) : Prop :=
  _shouldSend s = false /\
  Forall (fun entry => _currentSize (snd entry) = 0) (_pendingEditPackets s).

(** The valid prefix of the buffer lies within the bytes written. *)
Definition wellFormed (pb : EditPacketBuffer) : Prop :=
  0 <= _currentSize pb /\
  (Z.to_nat (_currentSize pb) <= length (_currentBuffer pb))%nat.

Definition buffersWellFormed (s : Sender) : Prop :=
  forall k pb, map_find k (_pendingEditPackets s) = Some pb -> wellFormed pb.

(** The buffer of destination [u] has the given type and ends with the
    record. *)
Definition received (u : QUuid) (type : PacketType) (record : list Z)
    (s : Sender) : Prop :=
  exists pb front,
    map_find u (_pendingEditPackets s) = Some pb /\
    _currentType pb = type /\
    contents pb = front ++ record.










(** ** Properties of the sender *)

Lemma contents_new (type : PacketType) (buffer : list Z) :
  contents (EditPacketBuffer_new type buffer) = buffer.
Proof.
  unfold contents, EditPacketBuffer_new, Wire.memcpy_at; simpl.
  rewrite Nat2Z.id, skipn_nil, app_nil_r. apply firstn_all.
Qed.

(** *** initializePacket *)

Lemma initializePacket_contents (packetBuffer : EditPacketBuffer)
    (type : PacketType) (s : Sender) :
  let r := initializePacket packetBuffer type s in
  contents (fst r) =
    populatePacketHeader type ++
    Wire.le_bytes 2 (_sequenceNumber s) ++
    Wire.le_bytes 8 (usecTimestampNow (_clockReads s)) /\
  _currentSize (fst r) = Z.of_nat (length (populatePacketHeader type)) + 2 + 8 /\
  (Z.to_nat (_currentSize (fst r)) <= length (_currentBuffer (fst r)))%nat.
Proof.
  unfold initializePacket, contents; cbn [fst snd _currentSize _currentBuffer
    _clockReads set_sequenceNumber].
  set (header := populatePacketHeader type).
  set (seqb := Wire.le_bytes 2 (_sequenceNumber s)).
  set (nowb := Wire.le_bytes 8 (usecTimestampNow (_clockReads s))).
  set (b1 := Wire.memcpy_at (_currentBuffer packetBuffer) 0 header).
  assert (H1 : firstn (length header) b1 = header /\
               (length header <= length b1)%nat).
  { split.
    - exact (Wire.firstn_memcpy_at (_currentBuffer packetBuffer) header 0
               (Nat.le_0_l _)).
    - exact (Wire.memcpy_at_length (_currentBuffer packetBuffer) header 0
               (Nat.le_0_l _)). }
  destruct H1 as [H1 L1].
  rewrite Nat2Z.id.
  set (b2 := Wire.memcpy_at b1 (length header) seqb).
  assert (H2 : firstn (length header + 2) b2 = header ++ seqb /\
               (length header + 2 <= length b2)%nat).
  { split.
    - rewrite <- H1 at 2.
      exact (Wire.firstn_memcpy_at b1 seqb (length header) L1).
    - exact (Wire.memcpy_at_length b1 seqb (length header) L1). }
  destruct H2 as [H2 L2].
  replace (Z.to_nat (Z.of_nat (length header) + 2))
    with (length header + 2)%nat by lia.
  set (b3 := Wire.memcpy_at b2 (length header + 2) nowb).
  replace (Z.to_nat (Z.of_nat (length header) + 2 + 8))
    with (length header + 2 + 8)%nat by lia.
  split; [|split; [reflexivity|]].
  - pose proof (Wire.firstn_memcpy_at b2 nowb (length header + 2) L2) as H3.
    rewrite H2 in H3. fold b3 in H3.
    change (length nowb) with 8%nat in H3.
    rewrite H3. now rewrite <- app_assoc.
  - exact (Wire.memcpy_at_length b2 nowb (length header + 2) L2).
Qed.

Lemma uint16_succ (v : Z) :
  Wire.uint16 (Wire.uint16 v + 1) = Wire.uint16 (v + 1).
Proof. unfold Wire.uint16. now rewrite Zplus_mod_idemp_l. Qed.

(** C9.  A buffer just initialized for [type] holds, in this order, the
    packet header of [type], the two bytes of the sequence counter and the
    eight bytes of the clock reading taken at the initialization (the raw
    reading: no clock-skew hook has touched it); the two bytes are the
    counter modulo 2^16 and the eight bytes the reading modulo 2^64.  Each
    initialization advances the counter by one modulo 2^16, so after [k]
    initializations it stands [k] further, modulo 2^16. *)
Theorem initializePacket_header_layout (packetBuffer : EditPacketBuffer)
    (type : PacketType) (s : Sender) :
  let r := initializePacket packetBuffer type s in
  contents (fst r) =
    populatePacketHeader type ++
    Wire.le_bytes 2 (_sequenceNumber s) ++
    Wire.le_bytes 8 (usecTimestampNow (_clockReads s)) /\
  _currentType (fst r) = type /\
  Wire.le_value (Wire.le_bytes 2 (_sequenceNumber s)) =
    Wire.uint16 (_sequenceNumber s) /\
  Wire.le_value (Wire.le_bytes 8 (usecTimestampNow (_clockReads s))) =
    Wire.uint64 (usecTimestampNow (_clockReads s)) /\
  _sequenceNumber (snd r) = Wire.uint16 (_sequenceNumber s + 1) /\
  forall k : nat,
    Wire.uint16
      (_sequenceNumber
         (Nat.iter k (fun s' => snd (initializePacket packetBuffer type s'))
            s)) =
    Wire.uint16 (_sequenceNumber s + Z.of_nat k).
Proof.
  intros r.
  split; [apply initializePacket_contents|].
  split; [reflexivity|].
  split; [apply (Wire.le_value_le_bytes 2)|].
  split; [apply (Wire.le_value_le_bytes 8)|].
  split; [reflexivity|].
  induction k as [|k IH].
  - simpl. now rewrite Z.add_0_r.
  - rewrite Nat2Z.inj_succ.
    set (f := fun s' => snd (initializePacket packetBuffer type s')) in *.
    change (Nat.iter (S k) f s) with (f (Nat.iter k f s)).
    change (_sequenceNumber (f (Nat.iter k f s)))
      with (Wire.uint16 (_sequenceNumber (Nat.iter k f s) + 1)).
    unfold Wire.uint16 in *.
    rewrite Z.mod_mod by lia.
    rewrite <- Zplus_mod_idemp_l, IH, Zplus_mod_idemp_l.
    f_equal; lia.
Qed.

(** *** The map of buffers *)

Lemma map_find_put_same {V : Type} (k : QUuid) (v : V) :
  forall m, map_find k (map_put k v m) = Some v.
Proof.
  induction m as [|[k' v'] m IH]; simpl.
  - now rewrite Z.eqb_refl.
  - destruct (Z.ltb_spec k k'); simpl.
    + now rewrite Z.eqb_refl.
    + destruct (Z.eqb_spec k k') as [->|Hne]; simpl.
      * now rewrite Z.eqb_refl.
      * destruct (Z.eqb_spec k k'); [contradiction|exact IH].
Qed.

Lemma map_find_put_other {V : Type} (k k0 : QUuid) (v : V) :
  k0 <> k ->
  forall m, map_find k0 (map_put k v m) = map_find k0 m.
Proof.
  intros Hne.
  induction m as [|[k' v'] m IH]; simpl.
  - destruct (Z.eqb_spec k0 k); [contradiction|reflexivity].
  - destruct (Z.ltb_spec k k'); simpl.
    + destruct (Z.eqb_spec k0 k); [contradiction|reflexivity].
    + destruct (Z.eqb_spec k k') as [->|Hkk']; simpl.
      * destruct (Z.eqb_spec k0 k'); [contradiction|reflexivity].
      * destruct (Z.eqb_spec k0 k'); [reflexivity|exact IH].
Qed.

(** *** What a flush hands to the transport *)

Lemma set_packets_same (s : Sender) : set_packets (_packets s) s = s.
Proof. now destruct s. Qed.

Lemma queuePacketToNode_loop_packets (nodeUUID : QUuid) (buffer : list Z) :
  forall nodes s,
    queuePacketToNode_loop nodes nodeUUID buffer s =
    set_packets (_packets s ++ recipients nodes nodeUUID buffer) s.
Proof.
  induction nodes as [|node nodes IH]; intros s; simpl.
  - now rewrite app_nil_r, set_packets_same.
  - rewrite IH.
    destruct ((getType node =? getMyNodeType) &&
              ((getUUID node =? nodeUUID) || isNull nodeUUID)); simpl.
    + destruct (getActiveSocket node); simpl; [|reflexivity].
      destruct s; simpl. now rewrite <- app_assoc.
    + reflexivity.
Qed.

Lemma queuePacketToNode_packets (w : World) (nodeUUID : QUuid)
    (buffer : list Z) (s : Sender) :
  queuePacketToNode w nodeUUID buffer s =
  set_packets (_packets s ++ recipients (getNodeHash w) nodeUUID buffer) s.
Proof. apply queuePacketToNode_loop_packets. Qed.

Lemma releaseQueuedPacket_sends (w : World) (pb : EditPacketBuffer)
    (s : Sender) :
  0 < _currentSize pb ->
  _currentType pb <> PacketTypeUnknown ->
  snd (releaseQueuedPacket w pb s) =
  queuePacketToNode w (_nodeUUID pb) (contents pb) s.
Proof.
  intros Hsize Htype. unfold releaseQueuedPacket; simpl.
  destruct (Z.ltb_spec 0 (_currentSize pb)); [|lia].
  destruct (Z.eqb_spec (_currentType pb) PacketTypeUnknown);
    [contradiction|reflexivity].
Qed.

Lemma releaseQueuedPacket_empty (w : World) (pb : EditPacketBuffer)
    (s : Sender) :
  _currentSize pb <= 0 ->
  snd (releaseQueuedPacket w pb s) = s.
Proof.
  intros Hsize. unfold releaseQueuedPacket; simpl.
  destruct (Z.ltb_spec 0 (_currentSize pb)); [lia|reflexivity].
Qed.

(** The buffer [queueToServer] leaves for the node, given the buffer
    [pb] the two [if]s made ready. *)
Lemma appended_contents (pb : EditPacketBuffer) (bytes : list Z) :
  0 <= _currentSize pb ->
  (Z.to_nat (_currentSize pb) <= length (_currentBuffer pb))%nat ->
  contents
    (mkEditPacketBuffer (_nodeUUID pb) (_currentType pb)
       (Wire.memcpy_at (_currentBuffer pb) (Z.to_nat (_currentSize pb)) bytes)
       (_currentSize pb + Z.of_nat (length bytes))) =
  contents pb ++ bytes.
Proof.
  intros H0 Hlen. unfold contents; simpl.
  replace (Z.to_nat (_currentSize pb + Z.of_nat (length bytes)))
    with (Z.to_nat (_currentSize pb) + length bytes)%nat by lia.
  now apply Wire.firstn_memcpy_at.
Qed.

Lemma initializePacket_type (pb : EditPacketBuffer) (type : PacketType)
    (s : Sender) :
  _currentType (fst (initializePacket pb type s)) = type.
Proof. reflexivity. Qed.

(** *** One append to one destination *)

Lemma queueToServer_prepared (w : World) (node : Node) (type : PacketType)
    (length : Z) (codeColorBuffer : list Z) (s : Sender) :
  queueToServer w node type length codeColorBuffer s =
  let p := prepared w node type length s in
  (set_pendingEditPackets
     (map_put (getUUID node)
        (mkEditPacketBuffer (_nodeUUID (fst p)) (_currentType (fst p))
           (Wire.memcpy_at (_currentBuffer (fst p))
              (Z.to_nat (_currentSize (fst p)))
              (firstn (Z.to_nat length) (skewed node codeColorBuffer)))
           (_currentSize (fst p) + length))
        (_pendingEditPackets (snd p)))
     (snd p),
   skewed node codeColorBuffer).
Proof. reflexivity. Qed.

Lemma prepared_flush (w : World) (node : Node) (type : PacketType)
    (length : Z) (s : Sender) :
  0 < _currentSize (claimed node s) ->
  _currentType (claimed node s) <> PacketTypeUnknown ->
  type <> _currentType (claimed node s) \/
  _maxPacketSize s <= _currentSize (claimed node s) + length ->
  prepared w node type length s =
  initializePacket (claimed node s) type
    (queuePacketToNode w (getUUID node) (contents (claimed node s)) s).
Proof.
  intros Hsize Htype Hcond. unfold prepared.
  set (pb := claimed node s) in *.
  assert (Hc : (negb (type =? _currentType pb) && (0 <? _currentSize pb))
               || (_maxPacketSize s <=? _currentSize pb + length) = true).
  { destruct Hcond as [Hne|Hfull].
    - destruct (Z.eqb_spec type (_currentType pb)); [contradiction|].
      destruct (Z.ltb_spec 0 (_currentSize pb)); [reflexivity|lia].
    - destruct (Z.leb_spec (_maxPacketSize s) (_currentSize pb + length));
        [apply orb_true_r|lia]. }
  rewrite Hc.
  rewrite releaseQueuedPacket_sends by assumption.
  rewrite initializePacket_type, Z.eqb_refl. simpl negb. cbv iota.
  reflexivity.
Qed.

Lemma prepared_quiet (w : World) (node : Node) (type : PacketType)
    (length : Z) (s : Sender) :
  _currentSize (claimed node s) = 0 \/
  (type = _currentType (claimed node s) /\
   _currentSize (claimed node s) + length < _maxPacketSize s) ->
  _packets (snd (prepared w node type length s)) = _packets s.
Proof.
  intros Hcond. unfold prepared.
  set (pb := claimed node s) in *.
  destruct ((negb (type =? _currentType pb) && (0 <? _currentSize pb))
            || (_maxPacketSize s <=? _currentSize pb + length)) eqn:Hc.
  - assert (Hz : _currentSize pb = 0).
    { destruct Hcond as [Hz|[Hty Hroom]]; [exact Hz|].
      rewrite Hty, Z.eqb_refl in Hc. cbn [negb andb orb] in Hc.
      apply Z.leb_le in Hc. lia. }
    rewrite releaseQueuedPacket_empty by lia.
    rewrite initializePacket_type, Z.eqb_refl. reflexivity.
  - destruct (negb (type =? _currentType (fst (pb, s))) &&
              (_currentSize (fst (pb, s)) =? 0)); reflexivity.
Qed.

Lemma prepared_size (w : World) (node : Node) (type : PacketType)
    (length : Z) (s : Sender) :
  let p := prepared w node type length s in
  _currentSize (fst p) =
     Z.of_nat (List.length (populatePacketHeader type)) + 2 + 8
  \/
  (_currentSize (fst p) = _currentSize (claimed node s) /\
   _currentSize (claimed node s) + length < _maxPacketSize s).
Proof.
  unfold prepared.
  set (pb := claimed node s) in *.
  destruct ((negb (type =? _currentType pb) && (0 <? _currentSize pb))
            || (_maxPacketSize s <=? _currentSize pb + length)) eqn:Hc.
  - left.
    rewrite initializePacket_type, Z.eqb_refl. reflexivity.
  - apply orb_false_elim in Hc. destruct Hc as [_ Hroom].
    apply Z.leb_gt in Hroom.
    destruct (negb (type =? _currentType (fst (pb, s))) &&
              (_currentSize (fst (pb, s)) =? 0)).
    + left. reflexivity.
    + right. split; [reflexivity|exact Hroom].
Qed.

Lemma contents_length_le (pb : EditPacketBuffer) :
  0 <= _currentSize pb ->
  Z.of_nat (length (contents pb)) <= _currentSize pb.
Proof.
  intros H. unfold contents. rewrite length_firstn. lia.
Qed.

(** C4 (amended).  One append of [record], of type [type], to the buffer
    [pb] of [node].
    - When [pb] is not empty and either its type differs from [type] or
      its size plus the length of the record reaches [_maxPacketSize],
      the transport receives exactly what one [queuePacketToNode] of the
      old contents of [pb] queues, and the buffer then holds a fresh
      header for [type] followed by the record.
    - When [pb] is empty, or has the type [type] and room for the record,
      nothing is handed to the transport.
    - When [pb] is within [_maxPacketSize] and the record fits a fresh
      packet (header, sequence number, timestamp and record together are
      within [_maxPacketSize]), the old contents and the buffer after the
      append are within [_maxPacketSize]. *)
Theorem queueToServer_flush_then_append (w : World) (node : Node)
    (type : PacketType) (record : list Z) (s : Sender) :
  let len := Z.of_nat (length record) in
  let pb := map_at EditPacketBuffer_default (getUUID node)
              (_pendingEditPackets s) in
  let r := queueToServer w node type len record s in
  let pb' := map_at EditPacketBuffer_default (getUUID node)
               (_pendingEditPackets (fst r)) in
  length (skewed node record) = length record ->
  (0 < _currentSize pb ->
   _currentType pb <> PacketTypeUnknown ->
   type <> _currentType pb \/ _maxPacketSize s <= _currentSize pb + len ->
   _packets (fst r) =
     _packets (queuePacketToNode w (getUUID node) (contents pb) s) /\
   _currentType pb' = type /\
   contents pb' =
     populatePacketHeader type ++
     Wire.le_bytes 2 (_sequenceNumber s) ++
     Wire.le_bytes 8 (usecTimestampNow (_clockReads s)) ++
     skewed node record) /\
  (_currentSize pb = 0 \/
   (type = _currentType pb /\ _currentSize pb + len < _maxPacketSize s) ->
   _packets (fst r) = _packets s) /\
  (0 <= _currentSize pb <= _maxPacketSize s ->
   Z.of_nat (length (populatePacketHeader type)) + 2 + 8 + len
     <= _maxPacketSize s ->
   Z.of_nat (length (contents pb)) <= _maxPacketSize s /\
   0 <= _currentSize pb' <= _maxPacketSize s).
Proof.
  intros len pb r pb' Hlen.
  assert (Hpb' : pb' =
    let p := prepared w node type len s in
    mkEditPacketBuffer (_nodeUUID (fst p)) (_currentType (fst p))
      (Wire.memcpy_at (_currentBuffer (fst p))
         (Z.to_nat (_currentSize (fst p)))
         (firstn (Z.to_nat len) (skewed node record)))
      (_currentSize (fst p) + len)).
  { unfold pb', r. rewrite queueToServer_prepared. cbn [fst].
    unfold map_at.
    change (_pendingEditPackets (set_pendingEditPackets ?m ?s0)) with m.
    now rewrite map_find_put_same. }
  assert (Hfirst : firstn (Z.to_nat len) (skewed node record) =
                   skewed node record).
  { apply firstn_all2. unfold len. lia. }
  rewrite Hfirst in Hpb'.
  assert (Hpackets : _packets (fst r) =
                     _packets (snd (prepared w node type len s))).
  { unfold r. rewrite queueToServer_prepared. reflexivity. }
  split; [|split].
  - intros Hsize Htype Hcond.
    rewrite Hpackets, Hpb'.
    rewrite (prepared_flush w node type len s Hsize Htype Hcond).
    split; [reflexivity|]. split; [reflexivity|].
    cbv zeta.
    set (s1 := queuePacketToNode w (getUUID node) (contents (claimed node s)) s).
    destruct (initializePacket_contents (claimed node s) type s1)
      as [Hcont [Hsz Hbuf]].
    cbv zeta in Hcont, Hsz, Hbuf.
    replace len with (Z.of_nat (length (skewed node record)))
      by (unfold len; lia).
    rewrite appended_contents; [|rewrite Hsz; lia|exact Hbuf].
    rewrite Hcont.
    unfold s1. rewrite queuePacketToNode_packets.
    cbn [_sequenceNumber _clockReads set_packets].
    now rewrite <- !app_assoc.
  - intros Hquiet. rewrite Hpackets.
    now apply prepared_quiet.
  - intros Hin Hfits.
    split.
    + pose proof (contents_length_le pb (proj1 Hin)). lia.
    + rewrite Hpb'. cbv zeta. cbn [_currentSize].
      destruct (prepared_size w node type len s) as [Hs|[Hs Hroom]];
        rewrite Hs.
      * lia.
      * change (_currentSize (claimed node s)) with (_currentSize pb) in *.
        unfold len in *. lia.
Qed.

(** *** Clock-skew correction over several destinations *)

Lemma queueOctreeEditMessage_loop_owned (w : World) (node : Node)
    (rest : list Node) (type : PacketType) (length : Z)
    (codeColorBuffer : list Z) (s : Sender) :
  selected node = true ->
  owns w node codeColorBuffer = true ->
  queueOctreeEditMessage_loop w (node :: rest) type length codeColorBuffer s =
  queueOctreeEditMessage_loop w rest type length
    (skewed node codeColorBuffer)
    (fst (queueToServer w node type length codeColorBuffer s)).
Proof.
  intros Hsel Hown. cbn [queueOctreeEditMessage_loop].
  unfold selected in Hsel. rewrite Hsel.
  unfold owns in Hown. rewrite Hown. reflexivity.
Qed.

Lemma prepared_pending (w : World) (node : Node) (type : PacketType)
    (length : Z) (s : Sender) :
  _pendingEditPackets (snd (prepared w node type length s)) =
  _pendingEditPackets s.
Proof.
  unfold prepared.
  set (pb := claimed node s).
  assert (Hrel : _pendingEditPackets (snd (releaseQueuedPacket w pb s)) =
                 _pendingEditPackets s).
  { unfold releaseQueuedPacket. cbn [snd].
    destruct ((0 <? _currentSize pb) &&
              negb (_currentType pb =? PacketTypeUnknown)); [|reflexivity].
    now rewrite queuePacketToNode_packets. }
  destruct ((negb (type =? _currentType pb) && (0 <? _currentSize pb))
            || (_maxPacketSize s <=? _currentSize pb + length)).
  - rewrite initializePacket_type, Z.eqb_refl. exact Hrel.
  - destruct (negb (type =? _currentType (fst (pb, s))) &&
              (_currentSize (fst (pb, s)) =? 0)); reflexivity.
Qed.

(** An empty buffer of another type is initialized, and nothing is sent. *)
Lemma prepared_fresh (w : World) (node : Node) (type : PacketType)
    (length : Z) (s : Sender) :
  _currentSize (claimed node s) = 0 ->
  type <> _currentType (claimed node s) ->
  prepared w node type length s = initializePacket (claimed node s) type s.
Proof.
  intros Hsize Htype. unfold prepared.
  set (pb := claimed node s) in *.
  destruct ((negb (type =? _currentType pb) && (0 <? _currentSize pb))
            || (_maxPacketSize s <=? _currentSize pb + length)).
  - rewrite initializePacket_type, Z.eqb_refl.
    cbn [negb andb].
    rewrite releaseQueuedPacket_empty by lia. reflexivity.
  - cbn [fst snd]. rewrite Hsize.
    destruct (Z.eqb_spec type (_currentType pb)); [contradiction|].
    reflexivity.
Qed.

(** C5 (what the code does).  Two destinations [n1], then [n2], both own
    the record and both have a clock skew, [n2] has no buffer yet.  The
    record appended to the buffer of [n2] is the record as rewritten for
    [n1], rewritten again for [n2]: the hook works on the caller's one
    buffer, so the correction for [n2] is applied on top of the one for
    [n1], not to the original record. *)
Theorem clock_skew_accumulates (w : World) (n1 n2 : Node)
    (type : PacketType) (record : list Z) (s : Sender) :
  let k1 := getClockSkewUsec n1 in
  let k2 := getClockSkewUsec n2 in
  let twice :=
    adjustEditPacketForClockSkew (adjustEditPacketForClockSkew record k1) k2 in
  let r := queueOctreeEditMessage_loop w [n1; n2] type
             (Z.of_nat (length record)) record s in
  selected n1 = true -> selected n2 = true ->
  owns w n1 record = true ->
  owns w n2 (adjustEditPacketForClockSkew record k1) = true ->
  k1 <> 0 -> k2 <> 0 ->
  getUUID n1 <> getUUID n2 ->
  map_find (getUUID n2) (_pendingEditPackets s) = None ->
  type <> PacketTypeUnknown ->
  length twice = length record ->
  snd r = twice /\
  exists header pb2,
    map_find (getUUID n2) (_pendingEditPackets (fst r)) = Some pb2 /\
    length header = (length (populatePacketHeader type) + 2 + 8)%nat /\
    contents pb2 = header ++ twice.
Proof.
  intros k1 k2 twice r Hs1 Hs2 Ho1 Ho2 Hk1 Hk2 Hne Hfresh Htype Hlen.
  assert (Hsk1 : skewed n1 record = adjustEditPacketForClockSkew record k1).
  { unfold skewed. fold k1.
    destruct (Z.eqb_spec k1 0); [contradiction|reflexivity]. }
  assert (Hsk2 : skewed n2 (adjustEditPacketForClockSkew record k1) = twice).
  { unfold skewed. fold k2.
    destruct (Z.eqb_spec k2 0); [contradiction|reflexivity]. }
  unfold r.
  rewrite queueOctreeEditMessage_loop_owned by assumption.
  rewrite Hsk1.
  set (s1 := fst (queueToServer w n1 type (Z.of_nat (length record)) record s)).
  rewrite queueOctreeEditMessage_loop_owned by assumption.
  rewrite Hsk2.
  cbn [queueOctreeEditMessage_loop snd fst].
  split; [reflexivity|].
  assert (Hfresh1 : map_find (getUUID n2) (_pendingEditPackets s1) = None).
  { unfold s1. rewrite queueToServer_prepared. cbn [fst].
    change (_pendingEditPackets (set_pendingEditPackets ?m ?s0)) with m.
    rewrite map_find_put_other by auto.
    now rewrite prepared_pending. }
  assert (Hclaimed : claimed n2 s1 =
                     mkEditPacketBuffer (getUUID n2) PacketTypeUnknown [] 0).
  { unfold claimed, map_at. now rewrite Hfresh1. }
  rewrite queueToServer_prepared. cbn [fst].
  change (_pendingEditPackets (set_pendingEditPackets ?m ?s0)) with m.
  rewrite map_find_put_same.
  rewrite prepared_fresh
    by (rewrite Hclaimed; first [reflexivity|exact Htype]).
  rewrite Hsk2.
  destruct (initializePacket_contents (claimed n2 s1) type s1)
    as [Hcont [Hsz Hbuf]].
  cbv zeta in Hcont, Hsz, Hbuf.
  eexists; eexists. split; [reflexivity|].
  rewrite firstn_all2 by lia.
  replace (Z.of_nat (length record)) with (Z.of_nat (length twice)) by lia.
  rewrite appended_contents; [|rewrite Hsz; lia|exact Hbuf].
  rewrite Hcont. split; [|reflexivity].
  rewrite !length_app, !Wire.le_bytes_length. lia.
Qed.

(** *** The latched release *)

Lemma releaseQueuedMessages_latches (w : World) (s : Sender) :
  serversExist w = false ->
  releaseQueuedMessages w s = set_releaseQueuedMessagesPending true s.
Proof. intros H. unfold releaseQueuedMessages. now rewrite H. Qed.

(** Only [releaseQueuedMessages] and the drain write the latch. *)
Lemma prepared_latch (w : World) (node : Node) (type : PacketType)
    (length : Z) (s : Sender) :
  _releaseQueuedMessagesPending (snd (prepared w node type length s)) =
  _releaseQueuedMessagesPending s.
Proof.
  unfold prepared.
  set (pb := claimed node s).
  assert (Hrel : _releaseQueuedMessagesPending
                   (snd (releaseQueuedPacket w pb s)) =
                 _releaseQueuedMessagesPending s).
  { unfold releaseQueuedPacket. cbn [snd].
    destruct ((0 <? _currentSize pb) &&
              negb (_currentType pb =? PacketTypeUnknown)); [|reflexivity].
    now rewrite queuePacketToNode_packets. }
  destruct ((negb (type =? _currentType pb) && (0 <? _currentSize pb))
            || (_maxPacketSize s <=? _currentSize pb + length)).
  - rewrite initializePacket_type, Z.eqb_refl. exact Hrel.
  - destruct (negb (type =? _currentType (fst (pb, s))) &&
              (_currentSize (fst (pb, s)) =? 0)); reflexivity.
Qed.

Lemma queueOctreeEditMessage_loop_latch (w : World) (type : PacketType)
    (length : Z) :
  forall nodes codeColorBuffer s,
    _releaseQueuedMessagesPending
      (fst (queueOctreeEditMessage_loop w nodes type length
              codeColorBuffer s)) =
    _releaseQueuedMessagesPending s.
Proof.
  induction nodes as [|node nodes IH]; intros buf s;
    cbn [queueOctreeEditMessage_loop]; [reflexivity|].
  destruct (getActiveSocket node && (getType node =? getMyNodeType));
    [|apply IH].
  destruct (match _serverJurisdictions w with
            | Some jurisdictions =>
                match jurisdictions (getUUID node) with
                | Some map => isMyJurisdiction map buf
                | None => false
                end
            | None => true
            end); [|apply IH].
  rewrite IH, queueToServer_prepared. cbn [fst].
  apply prepared_latch.
Qed.

Lemma queueOctreeEditMessage_latch (w : World) (type : PacketType)
    (codeColorBuffer : list Z) (s : Sender) :
  _releaseQueuedMessagesPending
    (queueOctreeEditMessage w type codeColorBuffer s) =
  _releaseQueuedMessagesPending s.
Proof.
  unfold queueOctreeEditMessage.
  destruct (_shouldSend s); cbn [negb]; [|reflexivity].
  destruct (serversExist w); cbn [negb].
  - apply queueOctreeEditMessage_loop_latch.
  - destruct (0 <? _maxPendingMessages s); [|reflexivity].
    match goal with
    | |- context [if ?c then _ else _] => destruct c
    end; reflexivity.
Qed.

Lemma queuePacketToNodes_loop_latch (w : World) (buffer octCode : list Z) :
  forall nodes s s',
    queuePacketToNodes_loop w nodes buffer octCode s = Some s' ->
    _releaseQueuedMessagesPending s' = _releaseQueuedMessagesPending s.
Proof.
  induction nodes as [|node nodes IH]; intros s s' H;
    cbn [queuePacketToNodes_loop] in H.
  - now inversion H.
  - destruct (getActiveSocket node && (getType node =? getMyNodeType));
      [|now apply IH].
    destruct (_serverJurisdictions w) as [jurisdictions|]; [|discriminate].
    apply IH in H. rewrite H.
    match goal with
    | |- context [if ?c then _ else _] => destruct c
    end; [|reflexivity].
    now rewrite queuePacketToNode_packets.
Qed.

Lemma queuePacketToNodes_latch (w : World) (buffer : list Z) (s s' : Sender) :
  queuePacketToNodes w buffer s = Some s' ->
  _releaseQueuedMessagesPending s' = _releaseQueuedMessagesPending s.
Proof.
  unfold queuePacketToNodes.
  destruct (_shouldSend s); cbn [negb]; [|now intros H; inversion H].
  destruct (serversExist w); cbn [negb]; [|discriminate].
  apply queuePacketToNodes_loop_latch.
Qed.

Lemma drainSingleMessagePackets_latch (w : World) :
  forall fuel s s',
    drainSingleMessagePackets w fuel s = Some s' ->
    _releaseQueuedMessagesPending s' = _releaseQueuedMessagesPending s.
Proof.
  induction fuel as [|fuel IH]; intros s s' H;
    cbn [drainSingleMessagePackets] in H.
  - now inversion H.
  - destruct (_preServerSingleMessagePackets s) as [|packet rest];
      [now inversion H|].
    destruct (queuePacketToNodes w (contents packet) s) as [s1|] eqn:Hq;
      [|discriminate].
    apply IH in H. rewrite H. cbn [_releaseQueuedMessagesPending
      set_preServerSingleMessagePackets].
    now apply queuePacketToNodes_latch in Hq.
Qed.

Lemma drainPackets_latch (w : World) :
  forall fuel s,
    _releaseQueuedMessagesPending (drainPackets w fuel s) =
    _releaseQueuedMessagesPending s.
Proof.
  induction fuel as [|fuel IH]; intros s; cbn [drainPackets];
    [reflexivity|].
  destruct (_preServerPackets s) as [|packet rest]; [reflexivity|].
  rewrite IH. cbn [_releaseQueuedMessagesPending set_preServerPackets].
  apply queueOctreeEditMessage_latch.
Qed.

Lemma releaseQueuedMessages_loop_empties (w : World) :
  forall entries s,
    Forall (fun entry => _currentSize (snd entry) = 0)
           (fst (releaseQueuedMessages_loop w entries s)).
Proof.
  induction entries as [|[k pb] entries IH]; intros s;
    cbn [releaseQueuedMessages_loop fst]; constructor.
  - reflexivity.
  - apply IH.
Qed.

(** When the drain runs to its end, a release latched before it has been
    performed: the latch is clear and every buffer is empty. *)
Lemma processPreServerExistsPackets_clears_latch (w : World) (s s' : Sender) :
  processPreServerExistsPackets w s = Some s' ->
  _releaseQueuedMessagesPending s' = false /\
  (_releaseQueuedMessagesPending s = true ->
   Forall (fun entry => _currentSize (snd entry) = 0)
          (_pendingEditPackets s')).
Proof.
  unfold processPreServerExistsPackets.
  destruct (serversExist w) eqn:Hw; cbn [negb]; [|discriminate].
  destruct (drainSingleMessagePackets w
              (length (_preServerSingleMessagePackets s)) s)
    as [s1|] eqn:Hd; [|discriminate].
  apply drainSingleMessagePackets_latch in Hd.
  pose proof (drainPackets_latch w (length (_preServerPackets s1)) s1) as Hp.
  rewrite Hd in Hp.
  set (s2 := drainPackets w (length (_preServerPackets s1)) s1) in *.
  destruct (_releaseQueuedMessagesPending s2) eqn:Hl; intros H;
    inversion H; subst s'; clear H.
  - split; [reflexivity|]. intros _.
    unfold releaseQueuedMessages. rewrite Hw. cbn [negb].
    apply releaseQueuedMessages_loop_empties.
  - split; [exact Hl|]. intros Hs. rewrite Hs in Hp. discriminate.
Qed.

(** C6 (what the code does).  [process] enters the drain only when one of
    the two pending lists is not empty.  With both empty it returns the
    sender as it is: a latched release stays latched and no buffer is
    flushed, although jurisdictions are known. *)
Theorem process_leaves_latched_release (w : World) (s : Sender) :
  serversExist w = true ->
  _preServerSingleMessagePackets s = [] ->
  _preServerPackets s = [] ->
  _releaseQueuedMessagesPending s = true ->
  process w s = Some s /\
  ~ process w s =
    Some (set_releaseQueuedMessagesPending false (releaseQueuedMessages w s)).
Proof.
  intros Hw Hs Hp Hl.
  assert (Hproc : process w s = Some s).
  { unfold process. rewrite Hw, Hs, Hp. reflexivity. }
  split; [exact Hproc|].
  rewrite Hproc. intros Heq.
  apply (f_equal (fun o => match o with
                           | Some s' => _releaseQueuedMessagesPending s'
                           | None => true
                           end)) in Heq.
  cbn in Heq. rewrite Hl in Heq. discriminate.
Qed.

(** *** The list of pending edits and the active path *)











(** ** Further properties of the sender *)

(** *** serversExist *)

Lemma serversExist_loop_result (w : World) :
  forall nodes hasServers,
    serversExist_loop w nodes hasServers =
    if existsb (fun node => selected node && lacksJurisdiction w node) nodes
    then (true, true)
    else (hasServers || existsb selected nodes, false).
Proof.
  induction nodes as [|node rest IH]; intros hasServers.
  - cbn. now rewrite orb_false_r.
  - cbn [serversExist_loop existsb]. unfold selected at 1 3.
    rewrite (andb_comm (getActiveSocket node)).
    destruct ((getType node =? getMyNodeType) && getActiveSocket node).
    + fold (lacksJurisdiction w node).
      destruct (lacksJurisdiction w node); cbn [andb orb]; [reflexivity|].
      rewrite IH.
      destruct (existsb _ rest); [reflexivity|].
      now rewrite orb_true_r.
    + cbn [andb orb]. apply IH.
Qed.

(** X11.  [serversExist] holds exactly when the directory has a node of
    the sender's type with an active socket and, if the map of
    jurisdictions is set, every such node has an entry in it. *)
Theorem serversExist_iff (w : World) :
  serversExist w = true <->
  (exists node, In node (getNodeHash w) /\ selected node = true) /\
  (forall jurisdictions node,
      _serverJurisdictions w = Some jurisdictions ->
      In node (getNodeHash w) ->
      selected node = true ->
      jurisdictions (getUUID node) <> None).
Proof.
  unfold serversExist. rewrite serversExist_loop_result.
  destruct (existsb (fun node => selected node && lacksJurisdiction w node)
              (getNodeHash w)) eqn:Hmissing.
  - cbn. split; [discriminate|].
    intros [_ Hall].
    apply existsb_exists in Hmissing.
    destruct Hmissing as [node [Hin Hnode]].
    apply andb_true_iff in Hnode. destruct Hnode as [Hsel Hlack].
    unfold lacksJurisdiction in Hlack.
    destruct (_serverJurisdictions w) as [jurisdictions|] eqn:Hj;
      [|discriminate].
    destruct (jurisdictions (getUUID node)) eqn:Hentry; [discriminate|].
    exfalso. exact (Hall jurisdictions node eq_refl Hin Hsel Hentry).
  - cbn [fst snd orb negb]. rewrite andb_true_r.
    rewrite existsb_exists. split.
    + intros Hex. split; [exact Hex|].
      intros jurisdictions node Hj Hin Hsel Hentry.
      assert (Hc : existsb
                     (fun node => selected node && lacksJurisdiction w node)
                     (getNodeHash w) = true).
      { apply existsb_exists. exists node. split; [exact Hin|].
        unfold lacksJurisdiction. now rewrite Hsel, Hj, Hentry. }
      congruence.
    + intros [Hex _]. exact Hex.
Qed.

(** *** queuePacketToNodes *)

Lemma set_packets_twice (q q' : list (QUuid * list Z)) (s : Sender) :
  set_packets q (set_packets q' s) = set_packets q s.
Proof. reflexivity. Qed.

Lemma serversExist_selected (w : World) :
  serversExist w = true -> existsb selected (getNodeHash w) = true.
Proof.
  unfold serversExist. rewrite serversExist_loop_result.
  destruct (existsb _ (getNodeHash w)); cbn; [discriminate|].
  now rewrite andb_true_r.
Qed.

Lemma serversExist_entries (w : World) :
  serversExist w = true ->
  forall node, In node (getNodeHash w) -> selected node = true ->
               lacksJurisdiction w node = false.
Proof.
  unfold serversExist. rewrite serversExist_loop_result.
  destruct (existsb (fun node => selected node && lacksJurisdiction w node)
              (getNodeHash w)) eqn:Hmissing; cbn; [discriminate|].
  intros _ node Hin Hsel.
  destruct (lacksJurisdiction w node) eqn:Hlack; [|reflexivity].
  assert (Hc : existsb (fun node => selected node && lacksJurisdiction w node)
                 (getNodeHash w) = true).
  { apply existsb_exists. exists node. now rewrite Hsel, Hlack. }
  congruence.
Qed.

Lemma queuePacketToNodes_loop_null (w : World) (buffer octCode : list Z) :
  _serverJurisdictions w = None ->
  forall nodes s,
    existsb selected nodes = true ->
    queuePacketToNodes_loop w nodes buffer octCode s = None.
Proof.
  intros Hnull.
  induction nodes as [|node rest IH]; intros s Hsel; [discriminate|].
  cbn [queuePacketToNodes_loop existsb] in *.
  fold (selected node). destruct (selected node); cbn [orb] in Hsel.
  - now rewrite Hnull.
  - now apply IH.
Qed.

Lemma queuePacketToNodes_loop_sends (w : World) (buffer octCode : list Z) :
  _serverJurisdictions w <> None ->
  forall nodes s,
    (forall node, In node nodes -> selected node = true ->
                  lacksJurisdiction w node = false) ->
    queuePacketToNodes_loop w nodes buffer octCode s =
    Some (set_packets
            (_packets s ++
             flat_map
               (fun node =>
                  if selected node && owns w node octCode
                  then recipients (getNodeHash w) (getUUID node) buffer
                  else [])
               nodes)
            s).
Proof.
  intros Hset.
  induction nodes as [|node rest IH]; intros s Hall.
  - cbn. now rewrite app_nil_r, set_packets_same.
  - cbn [queuePacketToNodes_loop flat_map].
    fold (selected node).
    destruct (selected node) eqn:Hsel; cbn [andb].
    + pose proof (Hall node (or_introl eq_refl) Hsel) as Hentry.
      unfold lacksJurisdiction in Hentry.
      destruct (_serverJurisdictions w) as [jurisdictions|] eqn:Hj;
        [|contradiction].
      destruct (jurisdictions (getUUID node)) as [jm|] eqn:Hjm;
        [|discriminate].
      assert (Hown : owns w node octCode = isMyJurisdiction jm octCode)
        by (unfold owns; now rewrite Hj, Hjm).
      rewrite Hown.
      rewrite IH by (intros n Hn; apply Hall; now right).
      destruct (isMyJurisdiction jm octCode).
      * rewrite queuePacketToNode_packets.
        cbn [_packets set_packets]. rewrite set_packets_twice.
        now rewrite <- app_assoc.
      * reflexivity.
    + cbn [app]. apply IH. intros n Hn; apply Hall; now right.
Qed.

(** X12.  [queuePacketToNodes], when sending is enabled and servers
    exist: with the map of jurisdictions set, the packet is queued, in
    directory order, for every server whose jurisdiction contains the
    octal code that follows the header, the sequence number and the time
    stamp, and nothing else of the sender changes; with the map not set
    ([NULL]), the function dereferences it and the call aborts. *)
Theorem queuePacketToNodes_dispatch (w : World) (buffer : list Z)
    (s : Sender) :
  _shouldSend s = true ->
  serversExist w = true ->
  let octCode :=
    skipn (Z.to_nat (numBytesForPacketHeader buffer + 2 + 8)) buffer in
  (_serverJurisdictions w <> None ->
   queuePacketToNodes w buffer s =
   Some (set_packets
           (_packets s ++
            flat_map
              (fun node =>
                 if selected node && owns w node octCode
                 then recipients (getNodeHash w) (getUUID node) buffer
                 else [])
              (getNodeHash w))
           s)) /\
  (_serverJurisdictions w = None ->
   queuePacketToNodes w buffer s = None).
Proof.
  intros Hsend Hservers octCode.
  unfold queuePacketToNodes. rewrite Hsend, Hservers. cbn [negb].
  split.
  - intros Hset.
    apply queuePacketToNodes_loop_sends; [exact Hset|].
    now apply serversExist_entries.
  - intros Hnull.
    apply queuePacketToNodes_loop_null; [exact Hnull|].
    now apply serversExist_selected.
Qed.

(** *** releaseQueuedMessages *)

Lemma releaseQueuedPacket_result (w : World) (pb : EditPacketBuffer)
    (s : Sender) :
  releaseQueuedPacket w pb s =
  (emptied pb, set_packets (_packets s ++ flushed w pb) s).
Proof.
  unfold releaseQueuedPacket, flushed, emptied.
  destruct ((0 <? _currentSize pb) &&
            negb (_currentType pb =? PacketTypeUnknown)).
  - now rewrite queuePacketToNode_packets.
  - now rewrite app_nil_r, set_packets_same.
Qed.

Lemma releaseQueuedMessages_loop_result (w : World) :
  forall entries s,
    releaseQueuedMessages_loop w entries s =
    (map (fun entry => (fst entry, emptied (snd entry))) entries,
     set_packets
       (_packets s ++ flat_map (fun entry => flushed w (snd entry)) entries)
       s).
Proof.
  induction entries as [|[k pb] rest IH]; intros s.
  - cbn. now rewrite app_nil_r, set_packets_same.
  - cbn [releaseQueuedMessages_loop map flat_map fst snd].
    rewrite releaseQueuedPacket_result. cbn [fst snd].
    rewrite IH. cbn [fst snd _packets set_packets].
    now rewrite set_packets_twice, <- app_assoc.
Qed.

Lemma flushed_emptied (w : World) (pb : EditPacketBuffer) :
  flushed w (emptied pb) = [].
Proof. reflexivity. Qed.

Lemma set_pendingEditPackets_same (s : Sender) :
  set_pendingEditPackets (_pendingEditPackets s) s = s.
Proof. now destruct s. Qed.

(** X13.  [releaseQueuedMessages], when servers exist, queues the
    contents of every pending buffer that is not empty and has a type,
    in the order of the destinations in the map, for the nodes of the
    directory that carry the destination of the buffer; it leaves every
    buffer empty and of type unknown, under the same destinations.
    Releasing a second time changes nothing. *)
Theorem releaseQueuedMessages_flushes_all (w : World) (s : Sender) :
  serversExist w = true ->
  let s' := releaseQueuedMessages w s in
  _packets s' =
    _packets s ++
    flat_map (fun entry => flushed w (snd entry)) (_pendingEditPackets s) /\
  map fst (_pendingEditPackets s') = map fst (_pendingEditPackets s) /\
  Forall (fun entry => _currentSize (snd entry) = 0 /\
                       _currentType (snd entry) = PacketTypeUnknown)
         (_pendingEditPackets s') /\
  releaseQueuedMessages w s' = s'.
Proof.
  intros Hservers s'. subst s'.
  unfold releaseQueuedMessages. rewrite Hservers. cbn [negb].
  rewrite !releaseQueuedMessages_loop_result.
  cbn [fst snd _packets _pendingEditPackets set_pendingEditPackets
       set_packets].
  split; [reflexivity|].
  split; [now rewrite map_map; cbn [fst]|].
  split.
  - apply Forall_forall. intros entry Hin.
    apply in_map_iff in Hin. destruct Hin as [entry0 [<- _]].
    now split.
  - assert (Hnone :
              forall l : list (QUuid * EditPacketBuffer),
                flat_map (fun entry => flushed w (snd entry))
                  (map (fun entry => (fst entry, emptied (snd entry))) l) =
                []).
    { induction l as [|entry rest IH]; [reflexivity|exact IH]. }
    assert (Hsame :
              forall l : list (QUuid * EditPacketBuffer),
                map (fun entry => (fst entry, emptied (snd entry)))
                  (map (fun entry => (fst entry, emptied (snd entry))) l) =
                map (fun entry => (fst entry, emptied (snd entry))) l).
    { induction l as [|entry rest IH]; [reflexivity|].
      cbn [map fst snd]. now rewrite IH. }
    rewrite Hnone, Hsame, app_nil_r.
    now destruct s.
Qed.

(** *** Where datagrams go *)

Lemma queuesMore_refl (w : World) (s s' : Sender) :
  _packets s' = _packets s -> queuesMore w s s'.
Proof.
  intros H. exists []. split; [now rewrite app_nil_r|constructor].
Qed.

Lemma queuesMore_trans (w : World) (s1 s2 s3 : Sender) :
  queuesMore w s1 s2 -> queuesMore w s2 s3 -> queuesMore w s1 s3.
Proof.
  intros [sent1 [H1 F1]] [sent2 [H2 F2]].
  exists (sent1 ++ sent2). split.
  - now rewrite H2, H1, app_assoc.
  - apply Forall_app. now split.
Qed.

Lemma recipients_deliverable (w : World) (nodeUUID : QUuid)
    (buffer : list Z) :
  Forall (deliverable w) (recipients (getNodeHash w) nodeUUID buffer).
Proof.
  apply Forall_forall. intros p Hp.
  unfold recipients in Hp. apply in_flat_map in Hp.
  destruct Hp as [node [Hin Hp]].
  destruct (((getType node =? getMyNodeType) &&
             ((getUUID node =? nodeUUID) || isNull nodeUUID)) &&
            getActiveSocket node) eqn:Hc; [|contradiction].
  destruct Hp as [<- | []].
  exists node. split; [exact Hin|]. split; [|reflexivity].
  unfold selected.
  apply andb_true_iff in Hc. destruct Hc as [Hc Hsock].
  apply andb_true_iff in Hc. destruct Hc as [Htype _].
  now rewrite Hsock, Htype.
Qed.

Lemma flushed_deliverable (w : World) (pb : EditPacketBuffer) :
  Forall (deliverable w) (flushed w pb).
Proof.
  unfold flushed.
  destruct ((0 <? _currentSize pb) &&
            negb (_currentType pb =? PacketTypeUnknown)).
  - apply recipients_deliverable.
  - constructor.
Qed.

Lemma queuePacketToNode_queuesMore (w : World) (nodeUUID : QUuid)
    (buffer : list Z) (s : Sender) :
  queuesMore w s (queuePacketToNode w nodeUUID buffer s).
Proof.
  rewrite queuePacketToNode_packets.
  exists (recipients (getNodeHash w) nodeUUID buffer).
  split; [reflexivity|apply recipients_deliverable].
Qed.

Lemma releaseQueuedPacket_queuesMore (w : World) (pb : EditPacketBuffer)
    (s : Sender) :
  queuesMore w s (snd (releaseQueuedPacket w pb s)).
Proof.
  rewrite releaseQueuedPacket_result.
  exists (flushed w pb). split; [reflexivity|apply flushed_deliverable].
Qed.

Lemma initializePacket_packets (pb : EditPacketBuffer) (type : PacketType)
    (s : Sender) :
  _packets (snd (initializePacket pb type s)) = _packets s.
Proof. reflexivity. Qed.

Lemma prepared_queuesMore (w : World) (node : Node) (type : PacketType)
    (length : Z) (s : Sender) :
  queuesMore w s (snd (prepared w node type length s)).
Proof.
  unfold prepared.
  set (first :=
         if (negb (type =? _currentType (claimed node s)) &&
             (0 <? _currentSize (claimed node s))) ||
            (_maxPacketSize s <=? _currentSize (claimed node s) + length)
         then
           initializePacket
             (fst (releaseQueuedPacket w (claimed node s) s)) type
             (snd (releaseQueuedPacket w (claimed node s) s))
         else (claimed node s, s)).
  assert (Hfirst : queuesMore w s (snd first)).
  { unfold first.
    destruct ((negb (type =? _currentType (claimed node s)) &&
               (0 <? _currentSize (claimed node s))) ||
              (_maxPacketSize s <=? _currentSize (claimed node s) + length)).
    - apply (queuesMore_trans w s
               (snd (releaseQueuedPacket w (claimed node s) s))).
      + apply releaseQueuedPacket_queuesMore.
      + apply queuesMore_refl. apply initializePacket_packets.
    - now apply queuesMore_refl. }
  change (queuesMore w s
            (snd (if negb (type =? _currentType (fst first)) &&
                     (_currentSize (fst first) =? 0)
                  then initializePacket (fst first) type (snd first)
                  else first))).
  destruct (negb (type =? _currentType (fst first)) &&
            (_currentSize (fst first) =? 0)).
  - apply (queuesMore_trans w s (snd first)); [exact Hfirst|].
    apply queuesMore_refl. apply initializePacket_packets.
  - exact Hfirst.
Qed.

Lemma queueToServer_queuesMore (w : World) (node : Node) (type : PacketType)
    (length : Z) (codeColorBuffer : list Z) (s : Sender) :
  queuesMore w s (fst (queueToServer w node type length codeColorBuffer s)).
Proof.
  rewrite queueToServer_prepared. cbv zeta. cbn [fst].
  apply (queuesMore_trans w s (snd (prepared w node type length s))).
  - apply prepared_queuesMore.
  - now apply queuesMore_refl.
Qed.

Lemma queueOctreeEditMessage_loop_queuesMore (w : World) (type : PacketType)
    (length : Z) :
  forall nodes codeColorBuffer s,
    queuesMore w s
      (fst (queueOctreeEditMessage_loop w nodes type length
              codeColorBuffer s)).
Proof.
  induction nodes as [|node rest IH]; intros codeColorBuffer s.
  - now apply queuesMore_refl.
  - cbn [queueOctreeEditMessage_loop].
    destruct (getActiveSocket node && (getType node =? getMyNodeType));
      [|apply IH].
    match goal with
    | |- context [if ?c then _ else _] => destruct c; [|apply IH]
    end.
    apply (queuesMore_trans w s
             (fst (queueToServer w node type length codeColorBuffer s))).
    + apply queueToServer_queuesMore.
    + apply IH.
Qed.

Lemma queueOctreeEditMessage_queuesMore (w : World) (type : PacketType)
    (codeColorBuffer : list Z) (s : Sender) :
  queuesMore w s (queueOctreeEditMessage w type codeColorBuffer s).
Proof.
  unfold queueOctreeEditMessage.
  destruct (negb (_shouldSend s)); [now apply queuesMore_refl|].
  destruct (negb (serversExist w)).
  - destruct (0 <? _maxPendingMessages s); [|now apply queuesMore_refl].
    match goal with
    | |- context [if ?c then _ else _] =>
        destruct c; now apply queuesMore_refl
    end.
  - apply queueOctreeEditMessage_loop_queuesMore.
Qed.

Lemma releaseQueuedMessages_queuesMore (w : World) (s : Sender) :
  queuesMore w s (releaseQueuedMessages w s).
Proof.
  unfold releaseQueuedMessages.
  destruct (negb (serversExist w)); [now apply queuesMore_refl|].
  rewrite releaseQueuedMessages_loop_result. cbn [fst snd].
  exists (flat_map (fun entry => flushed w (snd entry))
            (_pendingEditPackets s)).
  split; [reflexivity|].
  apply Forall_forall. intros p Hp.
  apply in_flat_map in Hp. destruct Hp as [entry [_ Hp]].
  pose proof (flushed_deliverable w (snd entry)) as Hf.
  rewrite Forall_forall in Hf. now apply Hf.
Qed.

Lemma queuePacketToNodes_loop_queuesMore (w : World)
    (buffer octCode : list Z) :
  forall nodes s s',
    queuePacketToNodes_loop w nodes buffer octCode s = Some s' ->
    queuesMore w s s'.
Proof.
  induction nodes as [|node rest IH]; intros s s' H.
  - inversion H. now apply queuesMore_refl.
  - cbn [queuePacketToNodes_loop] in H.
    destruct (getActiveSocket node && (getType node =? getMyNodeType));
      [|now apply IH].
    destruct (_serverJurisdictions w) as [jurisdictions|]; [|discriminate].
    match type of H with
    | context [if ?c then _ else _] => destruct c
    end.
    + apply (queuesMore_trans w s
               (queuePacketToNode w (getUUID node) buffer s)).
      * apply queuePacketToNode_queuesMore.
      * now apply IH.
    + now apply IH.
Qed.

Lemma queuePacketToNodes_queuesMore (w : World) (buffer : list Z)
    (s s' : Sender) :
  queuePacketToNodes w buffer s = Some s' -> queuesMore w s s'.
Proof.
  unfold queuePacketToNodes.
  destruct (negb (_shouldSend s)).
  - intros H. inversion H. now apply queuesMore_refl.
  - destruct (negb (serversExist w)); [discriminate|].
    apply queuePacketToNodes_loop_queuesMore.
Qed.

Lemma drainSingleMessagePackets_queuesMore (w : World) :
  forall fuel s s',
    drainSingleMessagePackets w fuel s = Some s' -> queuesMore w s s'.
Proof.
  induction fuel as [|fuel IH]; intros s s' H; cbn in H.
  - inversion H. now apply queuesMore_refl.
  - destruct (_preServerSingleMessagePackets s) as [|packet rest].
    + inversion H. now apply queuesMore_refl.
    + destruct (queuePacketToNodes w (contents packet) s) as [s1|] eqn:Hq;
        [|discriminate].
      apply (queuesMore_trans w s s1).
      * now apply queuePacketToNodes_queuesMore with (buffer := contents packet).
      * apply (queuesMore_trans w s1
                 (set_preServerSingleMessagePackets
                    (tl (_preServerSingleMessagePackets s1)) s1)).
        -- now apply queuesMore_refl.
        -- now apply IH.
Qed.

Lemma drainPackets_queuesMore (w : World) :
  forall fuel s, queuesMore w s (drainPackets w fuel s).
Proof.
  induction fuel as [|fuel IH]; intros s; cbn [drainPackets].
  - now apply queuesMore_refl.
  - destruct (_preServerPackets s) as [|packet rest].
    + now apply queuesMore_refl.
    + set (s1 := queueOctreeEditMessage w (_currentType packet)
                   (contents packet) s).
      apply (queuesMore_trans w s s1);
        [apply queueOctreeEditMessage_queuesMore|].
      apply (queuesMore_trans w s1
               (set_preServerPackets (tl (_preServerPackets s1)) s1)).
      * now apply queuesMore_refl.
      * apply IH.
Qed.

Lemma processPreServerExistsPackets_queuesMore (w : World) (s s' : Sender) :
  processPreServerExistsPackets w s = Some s' -> queuesMore w s s'.
Proof.
  unfold processPreServerExistsPackets.
  destruct (negb (serversExist w)); [discriminate|].
  destruct (drainSingleMessagePackets w
              (length (_preServerSingleMessagePackets s)) s)
    as [s1|] eqn:Hsingle; [|discriminate].
  apply drainSingleMessagePackets_queuesMore in Hsingle.
  set (s2 := drainPackets w (length (_preServerPackets s1)) s1).
  assert (H2 : queuesMore w s s2).
  { apply (queuesMore_trans w s s1); [exact Hsingle|].
    apply drainPackets_queuesMore. }
  destruct (_releaseQueuedMessagesPending s2); intros H; inversion H;
    subst s'; [|exact H2].
  apply (queuesMore_trans w s s2); [exact H2|].
  apply (queuesMore_trans w s2 (releaseQueuedMessages w s2)).
  - apply releaseQueuedMessages_queuesMore.
  - now apply queuesMore_refl.
Qed.

(** X14.  The sender only ever adds to the datagrams handed to the
    transport, and only datagrams addressed to a node of the directory
    that has the sender's type and an active socket: whatever
    [queueOctreeEditMessage], [releaseQueuedMessages], [queuePacketToNodes]
    and [process] do, the datagrams queued before stay, in their order,
    and each new one has such a destination. *)
Theorem sender_queues_only_to_servers (w : World) (type : PacketType)
    (buffer : list Z) (s : Sender) :
  queuesMore w s (queueOctreeEditMessage w type buffer s) /\
  queuesMore w s (releaseQueuedMessages w s) /\
  (forall s', queuePacketToNodes w buffer s = Some s' -> queuesMore w s s') /\
  (forall s', process w s = Some s' -> queuesMore w s s').
Proof.
  split; [apply queueOctreeEditMessage_queuesMore|].
  split; [apply releaseQueuedMessages_queuesMore|].
  split; [intros s'; apply queuePacketToNodes_queuesMore|].
  intros s'. unfold process.
  match goal with
  | |- context [if ?c then _ else _] => destruct c
  end.
  - apply processPreServerExistsPackets_queuesMore.
  - intros H. inversion H. now apply queuesMore_refl.
Qed.

(** *** The two lists of pending messages *)

Lemma keepsPending_refl (s : Sender) : keepsPending s s.
Proof. now repeat split. Qed.

Lemma keepsPending_trans (s1 s2 s3 : Sender) :
  keepsPending s1 s2 -> keepsPending s2 s3 -> keepsPending s1 s3.
Proof.
  unfold keepsPending. intros [A1 [A2 A3]] [B1 [B2 B3]].
  repeat split; congruence.
Qed.

Lemma prepared_keepsPending (w : World) (node : Node) (type : PacketType)
    (length : Z) (s : Sender) :
  keepsPending s (snd (prepared w node type length s)).
Proof.
  unfold prepared, releaseQueuedPacket. cbn [fst snd].
  rewrite queuePacketToNode_packets.
  repeat match goal with
         | |- context [if ?c then _ else _] => destruct c
         end; now repeat split.
Qed.

Lemma queueToServer_keepsPending (w : World) (node : Node)
    (type : PacketType) (length : Z) (codeColorBuffer : list Z)
    (s : Sender) :
  keepsPending s (fst (queueToServer w node type length codeColorBuffer s)).
Proof.
  rewrite queueToServer_prepared. cbv zeta. cbn [fst].
  apply (prepared_keepsPending w node type length s).
Qed.

Lemma queueOctreeEditMessage_loop_keepsPending (w : World)
    (type : PacketType) (length : Z) :
  forall nodes codeColorBuffer s,
    keepsPending s
      (fst (queueOctreeEditMessage_loop w nodes type length
              codeColorBuffer s)).
Proof.
  induction nodes as [|node rest IH]; intros codeColorBuffer s.
  - now repeat split.
  - cbn [queueOctreeEditMessage_loop].
    destruct (getActiveSocket node && (getType node =? getMyNodeType));
      [|apply IH].
    match goal with
    | |- context [if ?c then _ else _] => destruct c; [|apply IH]
    end.
    apply (keepsPending_trans s
             (fst (queueToServer w node type length codeColorBuffer s))).
    + apply queueToServer_keepsPending.
    + apply IH.
Qed.

Lemma queueOctreeEditMessage_active_keepsPending (w : World)
    (type : PacketType) (codeColorBuffer : list Z) (s : Sender) :
  serversExist w = true ->
  keepsPending s (queueOctreeEditMessage w type codeColorBuffer s).
Proof.
  intros Hservers. unfold queueOctreeEditMessage. rewrite Hservers.
  destruct (negb (_shouldSend s)); [now repeat split|].
  apply queueOctreeEditMessage_loop_keepsPending.
Qed.

Lemma releaseQueuedMessages_keepsPending (w : World) (s : Sender) :
  keepsPending s (releaseQueuedMessages w s).
Proof.
  unfold releaseQueuedMessages.
  destruct (negb (serversExist w)); [now repeat split|].
  rewrite releaseQueuedMessages_loop_result. now repeat split.
Qed.

Lemma queuePacketToNodes_loop_keepsPending (w : World)
    (buffer octCode : list Z) :
  forall nodes s s',
    queuePacketToNodes_loop w nodes buffer octCode s = Some s' ->
    keepsPending s s'.
Proof.
  induction nodes as [|node rest IH]; intros s s' H.
  - inversion H. now repeat split.
  - cbn [queuePacketToNodes_loop] in H.
    destruct (getActiveSocket node && (getType node =? getMyNodeType));
      [|now apply IH].
    destruct (_serverJurisdictions w) as [jurisdictions|]; [|discriminate].
    match type of H with
    | context [if ?c then _ else _] => destruct c
    end; [|now apply IH].
    apply IH in H. rewrite queuePacketToNode_packets in H. exact H.
Qed.

Lemma queuePacketToNodes_keepsPending (w : World) (buffer : list Z)
    (s s' : Sender) :
  queuePacketToNodes w buffer s = Some s' -> keepsPending s s'.
Proof.
  unfold queuePacketToNodes.
  destruct (negb (_shouldSend s)).
  - intros H. inversion H. now repeat split.
  - destruct (negb (serversExist w)); [discriminate|].
    apply queuePacketToNodes_loop_keepsPending.
Qed.

Lemma serve_within_capacity (s : Sender) (r : Request) :
  pendingCount s <= _maxPendingMessages s ->
  pendingCount (serve s r) <= _maxPendingMessages s /\
  _maxPendingMessages (serve s r) = _maxPendingMessages s.
Proof.
  intros Hbound.
  assert (Hkeeps : forall s', keepsPending s s' ->
                     pendingCount s' <= _maxPendingMessages s /\
                     _maxPendingMessages s' = _maxPendingMessages s).
  { intros s' [K1 [K2 K3]]. unfold pendingCount in *.
    rewrite K1, K2. now split. }
  destruct r as [w type buffer|type buffer|w]; cbn [serve].
  - unfold queueOctreeEditMessage.
    destruct (negb (_shouldSend s)); [now split|].
    destruct (negb (serversExist w)).
    + destruct (0 <? _maxPendingMessages s); [|now split].
      cbn [_maxPendingMessages _preServerPackets
           _preServerSingleMessagePackets set_preServerPackets].
      destruct (Z.ltb_spec (_maxPendingMessages s)
                  (Z.of_nat (length (_preServerSingleMessagePackets s)) +
                   Z.of_nat (length (_preServerPackets s ++
                      [EditPacketBuffer_new type buffer]))));
        unfold pendingCount in *;
        cbn [_maxPendingMessages _preServerPackets
             _preServerSingleMessagePackets set_preServerPackets];
        (split; [|reflexivity]); [|lia].
      destruct (_preServerPackets s); cbn [app tl length] in *;
        rewrite ?length_app; cbn [length]; lia.
    + apply Hkeeps. apply queueOctreeEditMessage_loop_keepsPending.
  - unfold queuePendingPacketToNodes.
    destruct (0 <? _maxPendingMessages s); [|now split].
    cbn [_maxPendingMessages _preServerPackets
         _preServerSingleMessagePackets set_preServerSingleMessagePackets].
    destruct (Z.ltb_spec (_maxPendingMessages s)
                (Z.of_nat (length (_preServerSingleMessagePackets s ++
                    [EditPacketBuffer_new type buffer])) +
                 Z.of_nat (length (_preServerPackets s))));
      unfold pendingCount in *;
      cbn [_maxPendingMessages _preServerPackets
           _preServerSingleMessagePackets set_preServerSingleMessagePackets];
      (split; [|reflexivity]); [|lia].
    destruct (_preServerSingleMessagePackets s); cbn [app tl length] in *;
      rewrite ?length_app; cbn [length]; lia.
  - apply Hkeeps. apply releaseQueuedMessages_keepsPending.
Qed.

(** X15.  The two lists of messages kept while no server is known never
    hold more than [_maxPendingMessages] entries together: when they are
    within the capacity, they still are after any sequence of calls of
    [queueOctreeEditMessage], [queuePendingPacketToNodes] and
    [releaseQueuedMessages], whatever the directory is at each call. *)
Theorem pending_within_capacity (requests : list Request) (s : Sender) :
  pendingCount s <= _maxPendingMessages s ->
  pendingCount (fold_left serve requests s) <= _maxPendingMessages s.
Proof.
  revert s.
  induction requests as [|r rest IH]; intros s Hbound; [exact Hbound|].
  cbn [fold_left].
  destruct (serve_within_capacity s r Hbound) as [Hstep Hmax].
  rewrite <- Hmax. apply IH. now rewrite Hmax.
Qed.

(** *** process *)

Lemma queuePacketToNodes_returns (w : World) (buffer : list Z) (s : Sender) :
  serversExist w = true ->
  _serverJurisdictions w <> None ->
  exists s', queuePacketToNodes w buffer s = Some s'.
Proof.
  intros Hservers Hset. unfold queuePacketToNodes.
  destruct (negb (_shouldSend s)); [now exists s|].
  rewrite Hservers. cbn [negb].
  rewrite queuePacketToNodes_loop_sends;
    [eexists; reflexivity|exact Hset|now apply serversExist_entries].
Qed.

Lemma drainSingleMessagePackets_empties (w : World) :
  serversExist w = true ->
  _serverJurisdictions w <> None ->
  forall fuel s,
    (length (_preServerSingleMessagePackets s) <= fuel)%nat ->
    exists s',
      drainSingleMessagePackets w fuel s = Some s' /\
      _preServerSingleMessagePackets s' = [] /\
      _preServerPackets s' = _preServerPackets s.
Proof.
  intros Hservers Hset.
  induction fuel as [|fuel IH]; intros s Hfuel; cbn [drainSingleMessagePackets].
  - exists s. repeat split.
    destruct (_preServerSingleMessagePackets s); [reflexivity|].
    simpl in Hfuel; lia.
  - destruct (_preServerSingleMessagePackets s) as [|packet rest] eqn:Hlist.
    + exists s. now repeat split.
    + destruct (queuePacketToNodes_returns w (contents packet) s Hservers
                  Hset) as [s1 Hs1].
      rewrite Hs1.
      destruct (queuePacketToNodes_keepsPending _ _ _ _ Hs1)
        as [K1 [K2 _]].
      destruct (IH (set_preServerSingleMessagePackets
                      (tl (_preServerSingleMessagePackets s1)) s1))
        as [s' [Hrun [Hnil Hpre]]].
      { cbn [_preServerSingleMessagePackets
             set_preServerSingleMessagePackets].
        rewrite K1, Hlist. simpl in *. lia. }
      exists s'. split; [exact Hrun|]. split; [exact Hnil|].
      rewrite Hpre. exact K2.
Qed.

Lemma drainPackets_empties (w : World) :
  serversExist w = true ->
  forall fuel s,
    (length (_preServerPackets s) <= fuel)%nat ->
    _preServerPackets (drainPackets w fuel s) = [] /\
    _preServerSingleMessagePackets (drainPackets w fuel s) =
    _preServerSingleMessagePackets s.
Proof.
  intros Hservers.
  induction fuel as [|fuel IH]; intros s Hfuel; cbn [drainPackets].
  - split; [|reflexivity].
    destruct (_preServerPackets s); [reflexivity|simpl in Hfuel; lia].
  - destruct (_preServerPackets s) as [|packet rest] eqn:Hlist.
    + now split.
    + destruct (queueOctreeEditMessage_active_keepsPending w
                  (_currentType packet) (contents packet) s Hservers)
        as [K1 [K2 _]].
      set (s1 := queueOctreeEditMessage w (_currentType packet)
                   (contents packet) s) in *.
      destruct (IH (set_preServerPackets (tl (_preServerPackets s1)) s1))
        as [Hnil Hsingle].
      { cbn [_preServerPackets set_preServerPackets].
        rewrite K2, Hlist. simpl in *. lia. }
      split; [exact Hnil|].
      rewrite Hsingle. exact K1.
Qed.

(** X16.  When servers exist, and the map of jurisdictions is set or no
    single-message packet is pending, [process] returns and leaves both
    lists of pending messages empty: each loop of
    [processPreServerExistsPackets] ends, having consumed its list. *)
Theorem process_drains_pending (w : World) (s : Sender) :
  serversExist w = true ->
  _serverJurisdictions w <> None \/ _preServerSingleMessagePackets s = [] ->
  exists s',
    process w s = Some s' /\
    _preServerSingleMessagePackets s' = [] /\
    _preServerPackets s' = [].
Proof.
  intros Hservers Hcase. unfold process. rewrite Hservers. cbn [andb].
  destruct (_preServerPackets s) as [|p ps] eqn:Hpre;
    destruct (_preServerSingleMessagePackets s) as [|q qs] eqn:Hsingle;
    cbn [negb orb].
  - exists s. now repeat split.
  - destruct Hcase as [Hset|Hnil]; [|discriminate].
    unfold processPreServerExistsPackets. rewrite Hservers. cbn [negb].
    destruct (drainSingleMessagePackets_empties w Hservers Hset
                (length (_preServerSingleMessagePackets s)) s (le_n _))
      as [s1 [Hrun [Hnil Hsame]]].
    rewrite Hrun.
    destruct (drainPackets_empties w Hservers
                (length (_preServerPackets s1)) s1 (le_n _)) as [D1 D2].
    set (s2 := drainPackets w (length (_preServerPackets s1)) s1) in *.
    destruct (releaseQueuedMessages_keepsPending w s2) as [R1 [R2 _]].
    destruct (_releaseQueuedMessagesPending s2); eexists;
      (split; [reflexivity|]);
      cbn [_preServerSingleMessagePackets _preServerPackets
           set_releaseQueuedMessagesPending];
      rewrite ?R1, ?R2, D1, D2; now split.
  - unfold processPreServerExistsPackets. rewrite Hservers. cbn [negb].
    rewrite Hsingle. cbn [length drainSingleMessagePackets].
    destruct (drainPackets_empties w Hservers
                (length (_preServerPackets s)) s (le_n _)) as [D1 D2].
    set (s2 := drainPackets w (length (_preServerPackets s)) s) in *.
    destruct (releaseQueuedMessages_keepsPending w s2) as [R1 [R2 _]].
    destruct (_releaseQueuedMessagesPending s2); eexists;
      (split; [reflexivity|]);
      cbn [_preServerSingleMessagePackets _preServerPackets
           set_releaseQueuedMessagesPending];
      rewrite ?R1, ?R2, D1, D2, Hsingle; now split.
  - destruct Hcase as [Hset|Hnil]; [|discriminate].
    unfold processPreServerExistsPackets. rewrite Hservers. cbn [negb].
    destruct (drainSingleMessagePackets_empties w Hservers Hset
                (length (_preServerSingleMessagePackets s)) s (le_n _))
      as [s1 [Hrun [Hnil Hsame]]].
    rewrite Hrun.
    destruct (drainPackets_empties w Hservers
                (length (_preServerPackets s1)) s1 (le_n _)) as [D1 D2].
    set (s2 := drainPackets w (length (_preServerPackets s1)) s1) in *.
    destruct (releaseQueuedMessages_keepsPending w s2) as [R1 [R2 _]].
    destruct (_releaseQueuedMessagesPending s2); eexists;
      (split; [reflexivity|]);
      cbn [_preServerSingleMessagePackets _preServerPackets
           set_releaseQueuedMessagesPending];
      rewrite ?R1, ?R2, D1, D2; now split.
Qed.

(** *** Batching for a single server *)

Lemma prepared_same (w : World) (node : Node) (type : PacketType)
    (length : Z) (s : Sender) :
  _currentType (claimed node s) = type ->
  _currentSize (claimed node s) + length < _maxPacketSize s ->
  prepared w node type length s = (claimed node s, s).
Proof.
  intros Htype Hroom. unfold prepared.
  rewrite Htype, Z.eqb_refl. cbn [negb andb orb].
  destruct (Z.leb_spec (_maxPacketSize s)
              (_currentSize (claimed node s) + length)); [lia|].
  cbn [fst]. now rewrite Htype, Z.eqb_refl.
Qed.

Lemma skewed_none (node : Node) (codeColorBuffer : list Z) :
  getClockSkewUsec node = 0 -> skewed node codeColorBuffer = codeColorBuffer.
Proof. intros H. unfold skewed. now rewrite H. Qed.

Section Batch.

Variable w : World.
Variable node : Node.
Variable type : PacketType.
Hypothesis single_server : getNodeHash w = [node].
Hypothesis server_selected : selected node = true.
Hypothesis no_skew : getClockSkewUsec node = 0.
Hypothesis servers : serversExist w = true.
Hypothesis typed : type <> PacketTypeUnknown.

Lemma single_server_edit (record : list Z) (s : Sender) :
  _shouldSend s = true ->
  owns w node record = true ->
  queueOctreeEditMessage w type record s =
  fst (queueToServer w node type (Z.of_nat (length record)) record s).
Proof.
  intros Hsend Hown. unfold queueOctreeEditMessage.
  rewrite Hsend, servers, single_server. cbn [negb].
  now rewrite queueOctreeEditMessage_loop_owned.
Qed.

Lemma appended_record (pb : EditPacketBuffer) (record : list Z) :
  0 <= _currentSize pb ->
  (Z.to_nat (_currentSize pb) <= length (_currentBuffer pb))%nat ->
  let pb' :=
    mkEditPacketBuffer (_nodeUUID pb) (_currentType pb)
      (Wire.memcpy_at (_currentBuffer pb) (Z.to_nat (_currentSize pb))
         (firstn (Z.to_nat (Z.of_nat (length record)))
            (skewed node record)))
      (_currentSize pb + Z.of_nat (length record)) in
  contents pb' = contents pb ++ record /\
  (Z.to_nat (_currentSize pb') <= length (_currentBuffer pb'))%nat.
Proof.
  intros Hpos Hwithin.
  rewrite skewed_none by exact no_skew.
  rewrite Nat2Z.id, firstn_all. cbv zeta. split.
  - now apply appended_contents.
  - cbn [_currentSize _currentBuffer].
    pose proof (Wire.memcpy_at_length (_currentBuffer pb) record
                  (Z.to_nat (_currentSize pb)) Hwithin).
    lia.
Qed.

Lemma batching_first (record : list Z) (s0 : Sender) :
  _shouldSend s0 = true ->
  _pendingEditPackets s0 = [] ->
  owns w node record = true ->
  Z.of_nat (length record) < _maxPacketSize s0 ->
  batching node type s0 (queueOctreeEditMessage w type record s0) [record].
Proof.
  intros Hsend Hnone Hown Hroom.
  rewrite single_server_edit by assumption.
  rewrite queueToServer_prepared. cbv zeta. cbn [fst].
  assert (Hclaimed : claimed node s0 =
                     mkEditPacketBuffer (getUUID node) PacketTypeUnknown [] 0)
    by (unfold claimed; now rewrite Hnone).
  rewrite prepared_fresh
    by (rewrite Hclaimed; cbn; first [reflexivity|exact typed]).
  set (r := initializePacket (claimed node s0) type s0).
  destruct (initializePacket_contents (claimed node s0) type s0)
    as [Hcontents [Hsize Hwithin]].
  fold r in Hcontents, Hsize, Hwithin.
  assert (Hpos : 0 <= _currentSize (fst r)) by lia.
  destruct (appended_record (fst r) record Hpos Hwithin) as [Happ Hfits].
  eexists. split.
  - cbn [_pendingEditPackets set_pendingEditPackets].
    change (_pendingEditPackets (snd r)) with (_pendingEditPackets s0).
    rewrite Hnone. reflexivity.
  - split; [unfold r; rewrite Hclaimed; reflexivity|].
    split; [apply initializePacket_type|].
    split; [rewrite Happ, Hcontents; unfold preamble; cbn [concat];
            now rewrite app_nil_r|].
    split.
    + rewrite Happ, Hcontents. cbn [_currentSize]. rewrite Hsize.
      rewrite !length_app, !Wire.le_bytes_length. lia.
    + split; [exact Hfits|].
      split; [reflexivity|]. split; [exact Hsend|reflexivity].
Qed.

Lemma batching_next (record : list Z) (acc : list (list Z))
    (s0 s : Sender) :
  batching node type s0 s acc ->
  owns w node record = true ->
  Z.of_nat (length (preamble type s0 ++ concat acc)) + Z.of_nat (length record)
    < _maxPacketSize s0 ->
  batching node type s0 (queueOctreeEditMessage w type record s) (acc ++ [record]).
Proof.
  intros [pb [Hpending [Huuid [Htype [Hcontents [Hsize [Hwithin
           [Hpackets [Hsend Hmax]]]]]]]]] Hown Hroom.
  rewrite single_server_edit by assumption.
  rewrite queueToServer_prepared. cbv zeta. cbn [fst].
  assert (Hclaimed : claimed node s = pb).
  { unfold claimed, map_at. rewrite Hpending. cbn [map_find].
    rewrite Z.eqb_refl, <- Huuid. now destruct pb. }
  rewrite prepared_same
    by (rewrite Hclaimed;
        first [exact Htype|rewrite Hsize, Hcontents, Hmax; lia]).
  cbn [fst snd]. rewrite Hclaimed.
  assert (Hpos : 0 <= _currentSize pb) by lia.
  destruct (appended_record pb record Hpos Hwithin) as [Happ Hfits].
  eexists. split.
  - cbn [_pendingEditPackets set_pendingEditPackets].
    rewrite Hpending. cbn [map_put].
    rewrite Z.ltb_irrefl, Z.eqb_refl. reflexivity.
  - split; [exact Huuid|]. split; [exact Htype|].
    split; [rewrite Happ, Hcontents, concat_app; cbn [concat];
            now rewrite app_nil_r, <- app_assoc|].
    split.
    + rewrite Happ. cbn [_currentSize]. rewrite Hsize, length_app. lia.
    + split; [exact Hfits|].
      split; [exact Hpackets|]. split; [exact Hsend|exact Hmax].
Qed.

Lemma batching_all (s0 : Sender) :
  forall records acc s,
    batching node type s0 s acc ->
    Forall (fun record => owns w node record = true) records ->
    Z.of_nat (length (preamble type s0 ++ concat (acc ++ records)))
      < _maxPacketSize s0 ->
    batching node type s0
      (submitEdits w (map (fun record => (type, record)) records) s)
      (acc ++ records).
Proof.
  induction records as [|record rest IH]; intros acc s Hinv Hown Hroom.
  - now rewrite app_nil_r.
  - inversion Hown as [|? ? Hrecord Hrest]; subst.
    cbn [map submitEdits fold_left fst snd].
    replace (acc ++ record :: rest) with ((acc ++ [record]) ++ rest) in *
      by now rewrite <- app_assoc.
    apply IH; [|exact Hrest|exact Hroom].
    apply batching_next; [exact Hinv|exact Hrecord|].
    rewrite !concat_app, !length_app in Hroom.
    cbn [concat] in Hroom. rewrite app_nil_r in Hroom.
    rewrite length_app. lia.
Qed.

(** X17.  Batching: with a single server in the directory, without clock
    skew, and a sender that holds no buffer yet, edits of one type whose
    records the server owns and that fit one packet together are
    accumulated in one buffer and nothing is queued; the buffer holds the
    header, the sequence number and the time stamp of the first edit,
    then the records in the order of submission, and
    [releaseQueuedMessages] queues exactly that packet for the server. *)
Theorem single_server_batch (records : list (list Z)) (s : Sender) :
  let packet := preamble type s ++ concat records in
  let s' := submitEdits w (map (fun record => (type, record)) records) s in
  _shouldSend s = true ->
  _pendingEditPackets s = [] ->
  records <> [] ->
  Forall (fun record => owns w node record = true) records ->
  Z.of_nat (length packet) < _maxPacketSize s ->
  _packets s' = _packets s /\
  map (fun entry => (fst entry, contents (snd entry)))
      (_pendingEditPackets s') = [(getUUID node, packet)] /\
  _packets (releaseQueuedMessages w s') =
    _packets s ++ [(getUUID node, packet)].
Proof.
  intros packet s' Hsend Hnone Hsome Hown Hroom.
  destruct records as [|record rest]; [contradiction|].
  inversion Hown as [|? ? Hrecord Hrest]; subst.
  assert (Hinv : batching node type s s' ([record] ++ rest)).
  { unfold s'. cbn [map submitEdits fold_left fst snd].
    apply batching_all; [|exact Hrest|exact Hroom].
    apply batching_first; try assumption.
    unfold packet in Hroom. cbn [concat] in Hroom.
    rewrite !length_app in Hroom. lia. }
  destruct Hinv as [pb [Hpending [Huuid [Htype [Hcontents [Hsize [Hwithin
                     [Hpackets [Hsend' Hmax]]]]]]]]].
  split; [exact Hpackets|].
  split; [rewrite Hpending; cbn [map fst snd]; now rewrite Hcontents|].
  unfold releaseQueuedMessages. rewrite servers. cbn [negb].
  rewrite releaseQueuedMessages_loop_result.
  cbn [fst snd _packets set_packets set_pendingEditPackets].
  rewrite Hpending, Hpackets. cbn [flat_map snd]. rewrite app_nil_r.
  f_equal. unfold flushed.
  assert (Hfilled : 0 < _currentSize pb).
  { rewrite Hsize, Hcontents. unfold preamble.
    rewrite !length_app, !Wire.le_bytes_length. lia. }
  destruct (Z.ltb_spec 0 (_currentSize pb)); [|lia].
  destruct (Z.eqb_spec (_currentType pb) PacketTypeUnknown); [congruence|].
  cbn [andb negb]. rewrite single_server, Huuid. unfold recipients.
  cbn [flat_map]. rewrite Z.eqb_refl.
  unfold selected in server_selected.
  apply andb_true_iff in server_selected.
  destruct server_selected as [Hsock Hmine].
  rewrite Hsock, Hmine. cbn [andb orb app].
  now rewrite Hcontents.
Qed.

End Batch.

(** *** Edits nobody owns, and a sender that must not send *)

Lemma queueOctreeEditMessage_loop_unowned (w : World) (type : PacketType)
    (length : Z) (codeColorBuffer : list Z) (s : Sender) :
  forall nodes,
    (forall node, In node nodes -> selected node = true ->
                  owns w node codeColorBuffer = false) ->
    queueOctreeEditMessage_loop w nodes type length codeColorBuffer s =
    (s, codeColorBuffer).
Proof.
  induction nodes as [|node rest IH]; intros Hnone; [reflexivity|].
  cbn [queueOctreeEditMessage_loop].
  fold (selected node). fold (owns w node codeColorBuffer).
  destruct (selected node) eqn:Hsel.
  - rewrite (Hnone node (or_introl eq_refl) Hsel).
    apply IH. intros n Hn. apply Hnone. now right.
  - apply IH. intros n Hn. apply Hnone. now right.
Qed.

(** X18.  An edit that falls in the jurisdiction of no server is dropped
    without a trace: when servers exist and no node of the sender's type
    with an active socket owns the record, [queueOctreeEditMessage]
    leaves the sender as it is; the record is neither buffered, nor kept
    for later, nor sent. *)
Theorem unowned_edit_is_dropped (w : World) (type : PacketType)
    (codeColorBuffer : list Z) (s : Sender) :
  serversExist w = true ->
  (forall node, In node (getNodeHash w) -> selected node = true ->
                owns w node codeColorBuffer = false) ->
  queueOctreeEditMessage w type codeColorBuffer s = s.
Proof.
  intros Hservers Hnone. unfold queueOctreeEditMessage.
  destruct (negb (_shouldSend s)); [reflexivity|].
  rewrite Hservers. cbn [negb].
  now rewrite queueOctreeEditMessage_loop_unowned.
Qed.

Lemma flushed_empty (w : World) :
  forall entries : list (QUuid * EditPacketBuffer),
    Forall (fun entry => _currentSize (snd entry) = 0) entries ->
    flat_map (fun entry => flushed w (snd entry)) entries = [].
Proof.
  induction entries as [|entry rest IH]; intros Hall; [reflexivity|].
  inversion Hall as [|? ? Hsize Hrest]; subst.
  cbn [flat_map]. rewrite IH by exact Hrest.
  unfold flushed. now rewrite Hsize.
Qed.

Lemma emptied_all (entries : list (QUuid * EditPacketBuffer)) :
  Forall (fun entry => _currentSize (snd entry) = 0)
         (map (fun entry => (fst entry, emptied (snd entry))) entries).
Proof.
  apply Forall_forall. intros entry Hin.
  apply in_map_iff in Hin. now destruct Hin as [entry0 [<- _]].
Qed.

Lemma releaseQueuedMessages_idle (w : World) (s : Sender) :
  idle s ->
  idle (releaseQueuedMessages w s) /\
  _packets (releaseQueuedMessages w s) = _packets s.
Proof.
  intros [Hoff Hempty]. unfold releaseQueuedMessages.
  destruct (negb (serversExist w)); [now repeat split|].
  rewrite releaseQueuedMessages_loop_result.
  cbn [fst snd]. rewrite flushed_empty by exact Hempty.
  rewrite app_nil_r. split; [split|reflexivity].
  - exact Hoff.
  - apply emptied_all.
Qed.

Lemma queueOctreeEditMessage_off (w : World) (type : PacketType)
    (codeColorBuffer : list Z) (s : Sender) :
  _shouldSend s = false ->
  queueOctreeEditMessage w type codeColorBuffer s = s.
Proof. intros H. unfold queueOctreeEditMessage. now rewrite H. Qed.

Lemma serve_idle (s : Sender) (r : Request) :
  idle s -> idle (serve s r) /\ _packets (serve s r) = _packets s.
Proof.
  intros Hidle. destruct r as [w type buffer|type buffer|w]; cbn [serve].
  - rewrite queueOctreeEditMessage_off by apply Hidle. now split.
  - unfold queuePendingPacketToNodes.
    destruct (0 <? _maxPendingMessages s); [|now split].
    match goal with
    | |- context [if ?c then _ else _] => destruct c
    end; (split; [exact Hidle|reflexivity]).
  - now apply releaseQueuedMessages_idle.
Qed.

Lemma drainSingleMessagePackets_idle (w : World) :
  forall fuel s,
    idle s ->
    exists s',
      drainSingleMessagePackets w fuel s = Some s' /\
      idle s' /\ _packets s' = _packets s.
Proof.
  induction fuel as [|fuel IH]; intros s Hidle;
    cbn [drainSingleMessagePackets].
  - now exists s.
  - destruct (_preServerSingleMessagePackets s) as [|packet rest] eqn:Hlist;
      [now exists s|].
    unfold queuePacketToNodes.
    replace (_shouldSend s) with false by (symmetry; apply Hidle).
    cbn [negb]. rewrite Hlist. cbn [tl].
    destruct (IH (set_preServerSingleMessagePackets rest s))
      as [s' [Hrun [Hidle' Hpackets]]]; [exact Hidle|].
    exists s'. split; [exact Hrun|split; [exact Hidle'|exact Hpackets]].
Qed.

Lemma drainPackets_idle (w : World) :
  forall fuel s,
    idle s ->
    idle (drainPackets w fuel s) /\
    _packets (drainPackets w fuel s) = _packets s.
Proof.
  induction fuel as [|fuel IH]; intros s Hidle; cbn [drainPackets].
  - now split.
  - destruct (_preServerPackets s) as [|packet rest] eqn:Hlist;
      [now split|].
    rewrite queueOctreeEditMessage_off by apply Hidle.
    rewrite Hlist. cbn [tl].
    destruct (IH (set_preServerPackets rest s))
      as [Hidle' Hpackets]; [exact Hidle|].
    split; [exact Hidle'|exact Hpackets].
Qed.

(** X19.  A sender whose sending is disabled and whose buffers are empty
    never hands anything to the transport: after any sequence of calls of
    [queueOctreeEditMessage], [queuePendingPacketToNodes] and
    [releaseQueuedMessages], and a call of [process] (which returns), the
    queued datagrams are the ones it had. *)
Theorem disabled_sender_is_silent (requests : list Request) (w : World)
    (s : Sender) :
  _shouldSend s = false ->
  Forall (fun entry => _currentSize (snd entry) = 0)
         (_pendingEditPackets s) ->
  let s1 := fold_left serve requests s in
  _packets s1 = _packets s /\
  exists s2, process w s1 = Some s2 /\ _packets s2 = _packets s.
Proof.
  intros Hoff Hempty.
  assert (Hrun : forall reqs s0, idle s0 ->
                   idle (fold_left serve reqs s0) /\
                   _packets (fold_left serve reqs s0) = _packets s0).
  { induction reqs as [|r rest IH]; intros s0 Hidle; [now split|].
    cbn [fold_left].
    destruct (serve_idle s0 r Hidle) as [Hidle' Hpackets].
    destruct (IH (serve s0 r) Hidle') as [Hidle'' Hpackets'].
    split; [exact Hidle''|congruence]. }
  destruct (Hrun requests s (conj Hoff Hempty)) as [Hidle1 Hpackets1].
  cbv zeta. split; [exact Hpackets1|].
  set (s1 := fold_left serve requests s) in *.
  unfold process.
  match goal with
  | |- context [if ?c then _ else _] => destruct c eqn:Hcond
  end; [|now exists s1].
  apply andb_true_iff in Hcond. destruct Hcond as [Hservers _].
  unfold processPreServerExistsPackets. rewrite Hservers. cbn [negb].
  destruct (drainSingleMessagePackets_idle w
              (length (_preServerSingleMessagePackets s1)) s1 Hidle1)
    as [sa [Hsingle [Hidlea Hpacketsa]]].
  rewrite Hsingle.
  destruct (drainPackets_idle w (length (_preServerPackets sa)) sa Hidlea)
    as [Hidleb Hpacketsb].
  set (sb := drainPackets w (length (_preServerPackets sa)) sa) in *.
  destruct (releaseQueuedMessages_idle w sb Hidleb) as [_ Hpacketsc].
  destruct (_releaseQueuedMessagesPending sb); eexists;
    (split; [reflexivity|]); cbn [_packets set_releaseQueuedMessagesPending];
    congruence.
Qed.

(** *** Every owner gets the record *)

Lemma claimed_wellFormed (node : Node) (s : Sender) :
  buffersWellFormed s -> wellFormed (claimed node s).
Proof.
  intros Hwf. unfold claimed, map_at.
  destruct (map_find (getUUID node) (_pendingEditPackets s)) as [pb|] eqn:Hpb.
  - exact (Hwf _ _ Hpb).
  - split; cbn; lia.
Qed.

Lemma initializePacket_wellFormed (pb : EditPacketBuffer)
    (type : PacketType) (s : Sender) :
  wellFormed (fst (initializePacket pb type s)).
Proof.
  destruct (initializePacket_contents pb type s) as [_ [Hsize Hwithin]].
  split; [lia|exact Hwithin].
Qed.

Lemma prepared_ready (w : World) (node : Node) (type : PacketType)
    (length : Z) (s : Sender) :
  buffersWellFormed s ->
  wellFormed (fst (prepared w node type length s)) /\
  _currentType (fst (prepared w node type length s)) = type.
Proof.
  intros Hwf.
  pose proof (claimed_wellFormed node s Hwf) as [Hpos Hwithin].
  unfold prepared.
  destruct ((negb (type =? _currentType (claimed node s)) &&
             (0 <? _currentSize (claimed node s))) ||
            (_maxPacketSize s <=? _currentSize (claimed node s) + length))
    eqn:Hflush.
  - rewrite initializePacket_type, Z.eqb_refl. cbn [negb andb].
    split; [apply initializePacket_wellFormed|apply initializePacket_type].
  - cbn [fst snd].
    destruct (negb (type =? _currentType (claimed node s)) &&
              (_currentSize (claimed node s) =? 0)) eqn:Hinit.
    + split; [apply initializePacket_wellFormed|apply initializePacket_type].
    + split; [now split|].
      apply orb_false_iff in Hflush. destruct Hflush as [Hswitch _].
      cbn [fst].
      destruct (Z.eqb_spec type (_currentType (claimed node s)));
        [congruence|].
      cbn [negb andb] in Hswitch, Hinit.
      apply Z.ltb_ge in Hswitch. apply Z.eqb_neq in Hinit. lia.
Qed.

Lemma queueToServer_appends (w : World) (node : Node) (type : PacketType)
    (record : list Z) (s : Sender) :
  getClockSkewUsec node = 0 ->
  buffersWellFormed s ->
  let r := queueToServer w node type (Z.of_nat (length record)) record s in
  received (getUUID node) type record (fst r) /\
  (forall u, u <> getUUID node ->
             map_find u (_pendingEditPackets (fst r)) =
             map_find u (_pendingEditPackets s)) /\
  buffersWellFormed (fst r) /\
  snd r = record.
Proof.
  intros Hskew Hwf. cbv zeta.
  rewrite queueToServer_prepared. cbv zeta. cbn [fst snd].
  destruct (prepared_ready w node type (Z.of_nat (length record)) s Hwf)
    as [[Hpos Hwithin] Htype].
  set (p := prepared w node type (Z.of_nat (length record)) s) in *.
  destruct (appended_record node Hskew (fst p) record Hpos Hwithin)
    as [Happ Hfits].
  assert (Hpending : _pendingEditPackets (snd p) = _pendingEditPackets s)
    by apply prepared_pending.
  split; [|split; [|split]].
  - eexists. exists (contents (fst p)).
    cbn [_pendingEditPackets set_pendingEditPackets].
    rewrite map_find_put_same.
    split; [reflexivity|]. split; [exact Htype|exact Happ].
  - intros u Hu. cbn [_pendingEditPackets set_pendingEditPackets].
    rewrite map_find_put_other by exact Hu. now rewrite Hpending.
  - intros k pb. cbn [_pendingEditPackets set_pendingEditPackets].
    destruct (Z.eq_dec k (getUUID node)) as [->|Hk].
    + rewrite map_find_put_same. intros Hpb. inversion Hpb; subst pb.
      split; [cbn [_currentSize]; lia|exact Hfits].
    + rewrite map_find_put_other by exact Hk. rewrite Hpending.
      apply Hwf.
  - now apply skewed_none.
Qed.

Lemma queueOctreeEditMessage_loop_fans_out (w : World) (type : PacketType)
    (record : list Z) :
  forall nodes s,
    (forall node, In node nodes -> selected node = true ->
                  getClockSkewUsec node = 0) ->
    buffersWellFormed s ->
    let r := queueOctreeEditMessage_loop w nodes type
               (Z.of_nat (length record)) record s in
    buffersWellFormed (fst r) /\
    (forall u, received u type record s -> received u type record (fst r)) /\
    (forall node, In node nodes -> selected node = true ->
                  owns w node record = true ->
                  received (getUUID node) type record (fst r)) /\
    (forall u,
        (forall node, In node nodes -> selected node = true ->
                      owns w node record = true -> getUUID node <> u) ->
        map_find u (_pendingEditPackets (fst r)) =
        map_find u (_pendingEditPackets s)).
Proof.
  induction nodes as [|node rest IH]; intros s Hcalm Hwf; cbv zeta.
  - cbn [queueOctreeEditMessage_loop fst].
    split; [exact Hwf|]. split; [auto|]. split; [intros ? []|auto].
  - assert (Hcalm' : forall n, In n rest -> selected n = true ->
                               getClockSkewUsec n = 0)
      by (intros n Hn; apply Hcalm; now right).
    cbn [queueOctreeEditMessage_loop].
    fold (selected node). fold (owns w node record).
    destruct (selected node && owns w node record) eqn:Hserved.
    + apply andb_true_iff in Hserved. destruct Hserved as [Hsel Hown].
      rewrite Hsel, Hown.
      destruct (queueToServer_appends w node type record s
                  (Hcalm node (or_introl eq_refl) Hsel) Hwf)
        as [Hgot [Hothers [Hwf1 Hsame]]].
      rewrite Hsame.
      set (s1 := fst (queueToServer w node type (Z.of_nat (length record))
                        record s)) in *.
      destruct (IH s1 Hcalm' Hwf1) as [Hwf' [Hkeep [Howners Hrest]]].
      split; [exact Hwf'|]. split; [|split].
      * intros u Hu. apply Hkeep.
        destruct (Z.eq_dec u (getUUID node)) as [->|Hne]; [exact Hgot|].
        destruct Hu as [pb [front [Hfind Hu]]].
        exists pb, front. split; [|exact Hu].
        now rewrite Hothers.
      * intros n [<-|Hn] Hseln Hownn.
        -- apply Hkeep. exact Hgot.
        -- now apply Howners.
      * intros u Hu.
        rewrite Hrest by (intros n Hn; apply Hu; now right).
        apply Hothers. intros Heq.
        exact (Hu node (or_introl eq_refl) Hsel Hown (eq_sym Heq)).
    + assert (Hskip :
                (if selected node
                 then if owns w node record
                      then queueOctreeEditMessage_loop w rest type
                             (Z.of_nat (length record))
                             (snd (queueToServer w node type
                                     (Z.of_nat (length record)) record s))
                             (fst (queueToServer w node type
                                     (Z.of_nat (length record)) record s))
                      else queueOctreeEditMessage_loop w rest type
                             (Z.of_nat (length record)) record s
                 else queueOctreeEditMessage_loop w rest type
                        (Z.of_nat (length record)) record s) =
                queueOctreeEditMessage_loop w rest type
                  (Z.of_nat (length record)) record s)
        by (destruct (selected node), (owns w node record);
            try reflexivity; discriminate).
      rewrite Hskip.
      destruct (IH s Hcalm' Hwf) as [Hwf' [Hkeep [Howners Hrest]]].
      split; [exact Hwf'|]. split; [exact Hkeep|]. split.
      * intros n [<-|Hn] Hseln Hownn.
        -- rewrite Hseln, Hownn in Hserved. discriminate.
        -- now apply Howners.
      * intros u Hu. apply Hrest. intros n Hn; apply Hu; now right.
Qed.

(** X20.  Fan-out: when servers exist, sending is enabled and no server
    has a clock skew, [queueOctreeEditMessage] appends the record to the
    buffer of every server whose jurisdiction contains it (the buffer then
    has the type of the edit and ends with the record), and leaves the
    buffer of every other destination as it was.  Buffers whose valid
    prefix lies within their bytes stay so. *)
Theorem queueOctreeEditMessage_fans_out (w : World) (type : PacketType)
    (record : list Z) (s : Sender) :
  serversExist w = true ->
  _shouldSend s = true ->
  (forall node, In node (getNodeHash w) -> selected node = true ->
                getClockSkewUsec node = 0) ->
  buffersWellFormed s ->
  let s' := queueOctreeEditMessage w type record s in
  (forall node, In node (getNodeHash w) -> selected node = true ->
                owns w node record = true ->
                received (getUUID node) type record s') /\
  (forall u,
      (forall node, In node (getNodeHash w) -> selected node = true ->
                    owns w node record = true -> getUUID node <> u) ->
      map_find u (_pendingEditPackets s') =
      map_find u (_pendingEditPackets s)) /\
  buffersWellFormed s'.
Proof.
  intros Hservers Hsend Hcalm Hwf. cbv zeta.
  unfold queueOctreeEditMessage. rewrite Hsend, Hservers. cbn [negb].
  destruct (queueOctreeEditMessage_loop_fans_out w type record
              (getNodeHash w) s Hcalm Hwf)
    as [Hwf' [_ [Howners Hrest]]].
  split; [exact Howners|]. split; [exact Hrest|exact Hwf'].
Qed.

(** *** process without a map of jurisdictions *)

(** X22.  A single-message packet kept while no server was known brings
    [process] down when servers appear before a map of jurisdictions is
    set: with sending enabled, [process] reaches [queuePacketToNodes],
    which dereferences the [NULL] map, and the call aborts. *)
Theorem process_aborts_without_jurisdictions (w : World) (s : Sender) :
  serversExist w = true ->
  _serverJurisdictions w = None ->
  _shouldSend s = true ->
  _preServerSingleMessagePackets s <> [] ->
  process w s = None.
Proof.
  intros Hservers Hnull Hsend Hsome.
  destruct (_preServerSingleMessagePackets s) as [|packet rest] eqn:Hlist;
    [contradiction|].
  unfold process. rewrite Hservers, Hlist.
  cbn [negb andb]. rewrite orb_true_r.
  unfold processPreServerExistsPackets. rewrite Hservers, Hlist.
  cbn [negb length drainSingleMessagePackets]. rewrite Hlist.
  assert (Habort : queuePacketToNodes w (contents packet) s = None).
  { unfold queuePacketToNodes. rewrite Hsend, Hservers. cbn [negb].
    apply queuePacketToNodes_loop_null; [exact Hnull|].
    now apply serversExist_selected. }
  now rewrite Habort.
Qed.

(** *** The bootstrap FIFO over both lists *)


















(** *** The drain *)








End Sender.

(** ** The sender on a concrete directory

    A one-byte packet header holding the type, a clock that starts at
    1000000 and advances by one at each reading, jurisdictions given by
    the list of first octal-code bytes a server owns, and edit records
    laid out as one octal-code byte, the eight bytes of the timestamp,
    then the payload. *)

Definition Region : Type := list Z.

Definition inRegion (jm : Region) (octCode : list Z) : bool :=
  match octCode with
  | c :: _ => existsb (Z.eqb c) jm
  | [] => false
  end.

Definition modelServer : NodeType := 77.
Definition oneByteHeader (type : PacketType) : list Z := [type].
Definition oneByteHeaderLength (packet : list Z) : Z := 1.
Definition ticking (k : nat) : Z := 1000000 + Z.of_nat k.

(** Modelled from the spec: the hook [adjustEditPacketForClockSkew] is
    virtual and its overrides are outside the file; it rewrites the
    record's embedded timestamp by the clock offset. *)
Definition adjustTimestamp (codeColorBuffer : list Z) (clockSkew : Z)
  : list Z :=
  match codeColorBuffer with
  | [] => []
  | octCode :: rest =>
      octCode ::
      Wire.le_bytes 8 (Wire.le_value (firstn 8 rest) + clockSkew) ++
      skipn 8 rest
  end.

Definition record (octCode timestamp : Z) (payload : list Z) : list Z :=
  octCode :: Wire.le_bytes 8 timestamp ++ payload.

Definition timestampOf (codeColorBuffer : list Z) : Z :=
  Wire.le_value (firstn 8 (skipn 1 codeColorBuffer)).

Definition send :=
  queueOctreeEditMessage Region inRegion modelServer oneByteHeader ticking
    adjustTimestamp.
Definition sendTo :=
  queueToServer Region modelServer oneByteHeader ticking adjustTimestamp.
Definition tick :=
  process Region inRegion modelServer oneByteHeaderLength oneByteHeader
    ticking adjustTimestamp [].

Definition server (uuid clockSkew : Z) : Node :=
  mkNode modelServer uuid true clockSkew.

(** No node known; one server and no jurisdiction map, so that it gets
    every edit; one server of known jurisdiction; two servers with clock
    skews 100 and 50, either without jurisdiction map, or with the second
    jurisdiction still missing, or with both known. *)
Definition nobody : World Region := mkWorld Region [] None.
Definition oneServer : World Region := mkWorld Region [server 5 0] None.
Definition firstKnown : World Region :=
  mkWorld Region [server 5 100]
    (Some (fun u => if u =? 5 then Some [0] else None)).
Definition twoServers : World Region :=
  mkWorld Region [server 5 100; server 6 50] None.
Definition secondUnknown : World Region :=
  mkWorld Region [server 5 100; server 6 50]
    (Some (fun u => if u =? 5 then Some [0] else None)).
Definition bothKnown : World Region :=
  mkWorld Region [server 5 100; server 6 50]
    (Some (fun u => if u =? 5 then Some [0]
                    else if u =? 6 then Some [1] else None)).

(** A sender that has queued nothing yet, with the given pending capacity
    and maximum packet size. *)
Definition fresh (maxPendingMessages maxPacketSize : Z) : Sender :=
  mkSender true maxPendingMessages false 0 maxPacketSize [] [] [] [] 0.



(** With capacity 1 and the packet [[10]] pending, the packable edit
    [[20]] is appended to the empty list of edits and removed at once: the
    entry dropped is the one just submitted, and the older packet stays. *)
Lemma bootstrap_drops_submitted_entry :
  let s1 := queuePendingPacketToNodes 1 [10] (fresh 1 1500) in
  let s2 := send nobody 2 [20] s1 in
  map contents (_preServerSingleMessagePackets s2) = [[10]] /\
  _preServerPackets s2 = [].
Proof. vm_compute. now split. Qed.

(** C4 as stated fails: with a maximum packet size of 30 and the 11-byte
    header, a record of 25 bytes is appended to the empty buffer without a
    flush (0 + 25 < 30) and makes it 36 bytes long; the next record of the
    same type meets the flush condition, and the packet flushed is 36
    bytes long. *)
Lemma flushed_packet_exceeds_maximum :
  let s1 := send oneServer 1 (repeat 7 25) (fresh 10 30) in
  let s2 := send oneServer 1 (repeat 8 5) s1 in
  _packets s1 = [] /\
  exists packet,
    _packets s2 = [packet] /\
    Z.of_nat (length (snd packet)) = 36 /\
    _maxPacketSize s2 < Z.of_nat (length (snd packet)).
Proof.
  split; [reflexivity|].
  eexists. split; [vm_compute; reflexivity|].
  split; vm_compute; reflexivity.
Qed.

(** A buffer holding a record of type 1 receives a record of type 2. *)
Lemma queueToServer_flush_then_append_witness :
  let s1 := send oneServer 1 [0; 1; 2] (fresh 10 1500) in
  let r := sendTo oneServer (server 5 0) 2 3 [0; 8; 9] s1 in
  _packets s1 = [] /\
  _packets (fst r) =
    [(5, [1; 0; 0; 64; 66; 15; 0; 0; 0; 0; 0; 0; 1; 2])] /\
  map_find 5 (_pendingEditPackets (fst r)) =
    Some (mkEditPacketBuffer 5 2
            [2; 1; 0; 65; 66; 15; 0; 0; 0; 0; 0; 0; 8; 9] 14).
Proof.
  intros s1 r.
  destruct (queueToServer_flush_then_append Region modelServer oneByteHeader
              ticking adjustTimestamp oneServer (server 5 0) 2 [0; 8; 9] s1
              eq_refl) as [Hflush _].
  destruct Hflush as [Hpackets _].
  - vm_compute; reflexivity.
  - vm_compute; discriminate.
  - left. vm_compute; discriminate.
  - split; [reflexivity|]. split; [|reflexivity].
    refine (eq_trans Hpackets _). reflexivity.
Defined.

(** Two servers with clock skews 100 and 50 receive a record stamped
    1000: the copy for the second server is stamped 1150. *)
Lemma clock_skew_accumulates_witness :
  let original := record 0 1000 [42] in
  let r := queueOctreeEditMessage_loop Region inRegion modelServer
             oneByteHeader ticking adjustTimestamp twoServers
             [server 5 100; server 6 50] 1 10 original (fresh 10 1500) in
  timestampOf original = 1000 /\
  exists header pb2,
    map_find 6 (_pendingEditPackets (fst r)) = Some pb2 /\
    length header = 11%nat /\
    contents pb2 = header ++ record 0 1150 [42].
Proof.
  intros original r.
  split; [reflexivity|].
  destruct (clock_skew_accumulates Region inRegion modelServer oneByteHeader
              ticking adjustTimestamp twoServers (server 5 100) (server 6 50)
              1 original (fresh 10 1500))
    as [_ [header [pb2 [Hfind [Hlen Hcontents]]]]];
    try reflexivity; try (vm_compute; discriminate).
  exists header, pb2. split; [exact Hfind|]. split; [exact Hlen|].
  exact Hcontents.
Defined.

(** The buffers of the two servers after the record stamped 1000 was
    queued for both: the first holds the stamp 1100, the second 1150. *)
Example two_servers_stamps :
  let s := send twoServers 1 (record 0 1000 [42]) (fresh 10 1500) in
  map (fun entry => (fst entry, timestampOf (skipn 11 (contents (snd entry)))))
      (_pendingEditPackets s) =
  [(5, 1100); (6, 1150)].
Proof. vm_compute. reflexivity. Qed.

(** An edit is buffered for server 5; a second server appears whose
    jurisdiction is not known yet, and a release is requested; then the
    jurisdiction arrives.  [process] does not perform the release. *)
Lemma process_leaves_latched_release_witness :
  let s1 := send firstKnown 1 (record 0 1000 [42]) (fresh 10 1500) in
  let s2 := releaseQueuedMessages Region modelServer secondUnknown s1 in
  serversExist Region modelServer firstKnown = true /\
  serversExist Region modelServer secondUnknown = false /\
  serversExist Region modelServer bothKnown = true /\
  _releaseQueuedMessagesPending s2 = true /\
  map (fun entry => _currentSize (snd entry)) (_pendingEditPackets s2) = [21] /\
  tick bothKnown s2 = Some s2 /\
  _packets s2 = [].
Proof.
  intros s1 s2.
  destruct (process_leaves_latched_release Region inRegion modelServer
              oneByteHeaderLength oneByteHeader ticking adjustTimestamp []
              bothKnown s2 eq_refl eq_refl eq_refl eq_refl) as [Hprocess _].
  do 5 (split; [reflexivity|]).
  split; [exact Hprocess|reflexivity].
Defined.

(** ** Dispatch, release and batching on the concrete directory *)

(** A single-message packet whose octal code, after the one-byte header,
    the sequence number and the time stamp, starts with 1: with both
    jurisdictions known it goes to server 6 only; without a map of
    jurisdictions the call aborts. *)
Lemma queuePacketToNodes_dispatch_witness :
  let packet := [1; 0; 0; 7; 0; 0; 0; 0; 0; 0; 0; 1; 42] in
  let s := fresh 10 1500 in
  queuePacketToNodes Region inRegion modelServer oneByteHeaderLength []
    bothKnown packet s = Some (set_packets [(6, packet)] s) /\
  queuePacketToNodes Region inRegion modelServer oneByteHeaderLength []
    twoServers packet s = None.
Proof.
  intros packet s. split.
  - destruct (queuePacketToNodes_dispatch Region inRegion modelServer
                oneByteHeaderLength [] bothKnown packet s eq_refl eq_refl)
      as [Hset _].
    refine (eq_trans (Hset _) _); [discriminate|reflexivity].
  - destruct (queuePacketToNodes_dispatch Region inRegion modelServer
                oneByteHeaderLength [] twoServers packet s eq_refl eq_refl)
      as [_ Hnull].
    exact (Hnull eq_refl).
Defined.

(** One edit buffered for server 5, then released: the 21 bytes go to
    server 5, the buffer is empty, and a second release is idle. *)
Lemma releaseQueuedMessages_flushes_all_witness :
  let s1 := send firstKnown 1 (record 0 1000 [42]) (fresh 10 1500) in
  let s' := releaseQueuedMessages Region modelServer firstKnown s1 in
  map (fun p => (fst p, length (snd p))) (_packets s') = [(5, 21%nat)] /\
  map (fun entry => _currentSize (snd entry)) (_pendingEditPackets s') = [0] /\
  releaseQueuedMessages Region modelServer firstKnown s' = s'.
Proof.
  intros s1 s'.
  destruct (releaseQueuedMessages_flushes_all Region modelServer firstKnown
              s1 eq_refl) as [Hpackets [_ [_ Hagain]]].
  split.
  - refine (eq_trans
              (f_equal (map (fun p => (fst p, length (snd p)))) Hpackets) _).
    reflexivity.
  - split; [reflexivity|exact Hagain].
Defined.

(** Capacity 2: a single-message packet, two edits and a release request
    while nobody is known leave two pending messages. *)
Lemma pending_within_capacity_witness :
  let requests :=
    [QueuePending Region 1 [10]; QueueEdit Region nobody 2 [20];
     QueueEdit Region nobody 2 [30]; Release Region nobody] in
  let s' :=
    fold_left
      (serve Region inRegion modelServer oneByteHeader ticking
         adjustTimestamp)
      requests (fresh 2 1500) in
  pendingCount s' = 2 /\ pendingCount s' <= 2.
Proof.
  intros requests s'.
  split; [reflexivity|].
  apply (pending_within_capacity Region inRegion modelServer oneByteHeader
           ticking adjustTimestamp requests (fresh 2 1500)).
  vm_compute. discriminate.
Defined.

(** A single-message packet and an edit kept while nobody is known, then
    both servers appear with their jurisdictions: [process] consumes both
    lists. *)
Lemma process_drains_pending_witness :
  let packet := [1; 0; 0; 7; 0; 0; 0; 0; 0; 0; 0; 1; 42] in
  let s1 :=
    send nobody 2 (record 0 1000 [42])
      (queuePendingPacketToNodes 1 packet (fresh 2 1500)) in
  length (_preServerSingleMessagePackets s1) = 1%nat /\
  length (_preServerPackets s1) = 1%nat /\
  exists s',
    tick bothKnown s1 = Some s' /\
    _preServerSingleMessagePackets s' = [] /\ _preServerPackets s' = [].
Proof.
  intros packet s1.
  split; [reflexivity|]. split; [reflexivity|].
  apply (process_drains_pending Region inRegion modelServer
           oneByteHeaderLength oneByteHeader ticking adjustTimestamp []
           bothKnown s1 eq_refl).
  left. discriminate.
Defined.

(** Two edits of type 1 for the one server: one packet of the header, the
    sequence number 0, the first clock reading and the two records. *)
Lemma single_server_batch_witness :
  let s' :=
    submitEdits Region inRegion modelServer oneByteHeader ticking
      adjustTimestamp oneServer [(1, [0; 1; 2]); (1, [0; 8; 9])]
      (fresh 10 1500) in
  _packets s' = [] /\
  _packets (releaseQueuedMessages Region modelServer oneServer s') =
  [(5, [1; 0; 0; 64; 66; 15; 0; 0; 0; 0; 0; 0; 1; 2; 0; 8; 9])].
Proof.
  intros s'.
  assert (Htyped : (1 : PacketType) <> PacketTypeUnknown) by discriminate.
  assert (Hsome : [[0; 1; 2]; [0; 8; 9]] <> ([] : list (list Z)))
    by discriminate.
  assert (Hown : Forall (fun r => owns Region inRegion oneServer
                                    (server 5 0) r = true)
                   [[0; 1; 2]; [0; 8; 9]])
    by (repeat constructor).
  assert (Hroom :
            Z.of_nat (length (preamble oneByteHeader ticking 1
                                (fresh 10 1500) ++
                              concat [[0; 1; 2]; [0; 8; 9]]))
            < _maxPacketSize (fresh 10 1500))
    by (vm_compute; reflexivity).
  destruct (single_server_batch Region inRegion modelServer oneByteHeader
              ticking adjustTimestamp oneServer (server 5 0) 1
              eq_refl eq_refl eq_refl eq_refl Htyped
              [[0; 1; 2]; [0; 8; 9]] (fresh 10 1500)
              eq_refl eq_refl Hsome Hown Hroom) as [Hquiet [_ Hrelease]].
  split; [exact Hquiet|exact Hrelease].
Defined.

(** An edit in region 9, which neither server owns, leaves the sender as
    it was. *)
Lemma unowned_edit_is_dropped_witness :
  send bothKnown 1 (record 9 1000 [42]) (fresh 10 1500) = fresh 10 1500.
Proof.
  unfold send.
  apply (unowned_edit_is_dropped Region inRegion modelServer oneByteHeader
           ticking adjustTimestamp bothKnown 1 (record 9 1000 [42])
           (fresh 10 1500) eq_refl).
  intros node [<- | [<- | []]] _; reflexivity.
Defined.

(** A sender that must not send. *)
Definition muted : Sender := mkSender false 10 false 0 1500 [] [] [] [] 0.

Lemma disabled_sender_is_silent_witness :
  let requests :=
    [QueueEdit Region oneServer 1 [0; 1; 2]; QueuePending Region 1 [10];
     Release Region oneServer] in
  let s1 :=
    fold_left
      (serve Region inRegion modelServer oneByteHeader ticking
         adjustTimestamp)
      requests muted in
  length (_preServerSingleMessagePackets s1) = 1%nat /\
  _packets s1 = [] /\
  exists s2, tick oneServer s1 = Some s2 /\ _packets s2 = [].
Proof.
  intros requests s1.
  split; [reflexivity|].
  apply (disabled_sender_is_silent Region inRegion modelServer
           oneByteHeaderLength oneByteHeader ticking adjustTimestamp []
           requests oneServer muted eq_refl).
  constructor.
Defined.

(** Two servers without clock skew; server 5 owns region 0, server 6 the
    regions 0 and 1. *)
Definition calmServers : World Region :=
  mkWorld Region [server 5 0; server 6 0]
    (Some (fun u => if u =? 5 then Some [0]
                    else if u =? 6 then Some [0; 1] else None)).

(** An edit in region 0 reaches the buffers of both servers. *)
Lemma queueOctreeEditMessage_fans_out_witness :
  let s' := send calmServers 1 (record 0 1000 [42]) (fresh 10 1500) in
  received 5 1 (record 0 1000 [42]) s' /\
  received 6 1 (record 0 1000 [42]) s' /\
  map_find 7 (_pendingEditPackets s') = None.
Proof.
  intros s'.
  assert (Hcalm : forall node, In node (getNodeHash Region calmServers) ->
                    selected modelServer node = true ->
                    getClockSkewUsec node = 0)
    by (intros node [<- | [<- | []]] _; reflexivity).
  assert (Hwf : buffersWellFormed (fresh 10 1500))
    by (intros k pb H; discriminate H).
  destruct (queueOctreeEditMessage_fans_out Region inRegion modelServer
              oneByteHeader ticking adjustTimestamp calmServers 1
              (record 0 1000 [42]) (fresh 10 1500) eq_refl eq_refl
              Hcalm Hwf) as [Howners [Hrest _]].
  split; [|split].
  - apply (Howners (server 5 0));
      [left; reflexivity|reflexivity|reflexivity].
  - apply (Howners (server 6 0));
      [right; left; reflexivity|reflexivity|reflexivity].
  - refine (eq_trans (Hrest 7 _) eq_refl).
    intros node [<- | [<- | []]] _ _; discriminate.
Defined.

(** A single-message packet kept while nobody is known; then server 5
    appears and no map of jurisdictions is set. *)
Lemma process_aborts_without_jurisdictions_witness :
  let packet := [1; 0; 0; 7; 0; 0; 0; 0; 0; 0; 0; 1; 42] in
  let s1 := queuePendingPacketToNodes 1 packet (fresh 2 1500) in
  serversExist Region modelServer nobody = false /\
  map contents (_preServerSingleMessagePackets s1) = [packet] /\
  tick oneServer s1 = None.
Proof.
  intros packet s1.
  split; [reflexivity|]. split; [reflexivity|].
  apply (process_aborts_without_jurisdictions Region inRegion modelServer
           oneByteHeaderLength oneByteHeader ticking adjustTimestamp []
           oneServer s1 eq_refl eq_refl eq_refl).
  discriminate.
Defined.

End OctreeEditPacketSender.
